(** * ATLAS premium allocation: exact-cents rounding, apportionment, IPF

    A shallow embedding of the allocation core of the ATLAS repository
    ([ras_module.py], [tiv_module.py]) and the properties of it that the
    specification states.

    Conventions of the embedding.
    - The arithmetic of Python and numpy floats is an interface ([FloatOps],
      [CentOps]).  [ipf], [round_matrix_exact_cents],
      [allocate_cents_for_coverage] and [build_tiv_matrix] are embedded over
      any carrier of it, so a theorem proved for every carrier holds of the
      64-bit floats.  Two carriers are given: the binary64 floats themselves
      ([b64_ops], [b64_cents]), with their rounding, infinities and NaN, and
      the exact rationals ([Q_ops], [Q_cents]).  The numeric cells of a sheet
      are rationals, and [build_ras_matrix], which reads them, is embedded
      over the rationals.
    - A numpy [int] array holds 64-bit integers, written as [Z].  The
      conversion of a float to [int] is part of the interface; both carriers
      give [-2^63] for a value outside the range, as numpy does on x86-64.
      The sums and the addition that [allocate_cents_for_coverage] performs
      on such arrays are wrapped ([wrap64]).  The integer arithmetic of
      [round_matrix_exact_cents] is written in [Z]; a theorem that rests on
      it states the bounds under which no intermediate value leaves the
      64-bit range.
    - A two-dimensional numpy array is a list of rows.  An operation that
      numpy refuses because operand shapes disagree returns [None].
    - A Python [dict] is a [gmap]; a Python [set] is a [gset].
    - A Python [str] is a [string] whose characters are code points below
      256. *)

From Stdlib Require Import ZArith QArith Qround Qabs Ascii String.
From Stdlib Require PrimFloat SpecFloat FloatOps FloatAxioms.
From stdpp Require Import gmap strings list sorting pretty.

Set Warnings "-inexact-float".

(** ** Numeric primitives *)

Section Numeric.
Local Open Scope Z_scope.

(** [sum] of an integer numpy vector, before any wrap-around. *)
Definition zsum (l : list Z) : Z := foldr Z.add 0 l.

(** The range of numpy's [int]. *)
Definition int64_min : Z := - 2 ^ 63.
Definition int64_max : Z := 2 ^ 63 - 1.

(** A 64-bit result of integer arithmetic: two's complement wrap-around. *)
Definition wrap64 (z : Z) : Z := (z + 2 ^ 63) mod 2 ^ 64 - 2 ^ 63.

(** [astype(int)] of an integral float value: the value itself inside the
    range, and [-2^63] outside it. *)
Definition cast64 (z : Z) : Z :=
  if (int64_min <=? z) && (z <=? int64_max) then z else int64_min.

(** The nearest integer of a rational, a tie going to the even neighbour. *)
Definition rint (q : Q) : Z :=
  let f := Qfloor q in
  match Qcompare (q - inject_Z f) (1 # 2) with
  | Lt => f
  | Gt => f + 1
  | Eq => if Z.even f then f else f + 1
  end.
End Numeric.

(** Sum of a vector of rationals. *)
Definition qsum (l : list Q) : Q := foldr Qplus 0%Q l.

(** ** The float interface *)

(** The arithmetic [ipf] uses on its [float] arrays, as an interface: the
    control flow of [ipf] is the same over any carrier, the 64-bit floats
    included. *)
Class FloatOps (F : Type) := {
  fzero : F;
  fone : F;
  fadd : F → F → F;
  fmul : F → F → F;
  fdiv : F → F → F;
  (** [x == 0] *)
  is_zero : F → bool;
  (** [x > 0] *)
  is_pos : F → bool;
  (** [np.isclose(a, b, atol=tol)]: [|a - b| <= tol + rtol * |b|] with
      numpy's default [rtol = 1e-05]. *)
  isclose : F → F → F → bool
}.

(** What the cent arithmetic uses besides: subtraction, negation, [x <= y],
    and the conversions between floats and integers. *)
Class CentOps (F : Type) := {
  fsub : F → F → F;
  fneg : F → F;
  fle : F → F → bool;
  (** [float(c)], and numpy's conversion of an [int] operand or array. *)
  of_int : Z → F;
  (** [np.floor(x).astype(int)] *)
  floor_int : F → Z;
  (** [np.rint(x).astype(int)] *)
  rint_int : F → Z;
  (** [int(round(x))]; [None] is the [OverflowError] or [ValueError] that
      Python raises for an infinity or a NaN. *)
  py_round : F → option Z
}.

(** *** The exact rationals as a carrier *)

#[export] Instance Q_ops : FloatOps Q := {|
  fzero := 0%Q;
  fone := 1%Q;
  fadd := Qplus;
  fmul := Qmult;
  fdiv := Qdiv;
  is_zero := λ x, Qeq_bool x 0;
  is_pos := λ x, negb (Qle_bool x 0);
  isclose := λ tol a b, Qle_bool (Qabs (a - b)) (tol + (1 # 100000) * Qabs b)
|}.

#[export] Instance Q_cents : CentOps Q := {|
  fsub := Qminus;
  fneg := Qopp;
  fle := Qle_bool;
  of_int := inject_Z;
  floor_int := λ x, cast64 (Qfloor x);
  rint_int := λ x, cast64 (rint x);
  py_round := λ x, Some (rint x)
|}.

(** *** The binary64 floats as a carrier *)

Section Binary64.
Import PrimFloat SpecFloat FloatOps.
Local Open Scope Z_scope.

(** [math.floor] of a finite float, from its sign, mantissa and exponent. *)
Definition b64_floor (x : float) : option Z :=
  match Prim2SF x with
  | S754_zero _ => Some 0
  | S754_finite s m e => Some (Z.shiftl (cond_Zopp s (Z.pos m)) e)
  | _ => None
  end.

(** The nearest integer of a finite float, a tie going to the even
    neighbour: [round(x)] and [np.rint(x)]. *)
Definition b64_rint (x : float) : option Z :=
  match Prim2SF x with
  | S754_zero _ => Some 0
  | S754_finite s m e =>
      let z := cond_Zopp s (Z.pos m) in
      if 0 <=? e then Some (Z.shiftl z e)
      else
        let d := 2 ^ (- e) in
        let f := z / d in
        Some (match 2 * (z mod d) ?= d with
              | Lt => f
              | Gt => f + 1
              | Eq => if Z.even f then f else f + 1
              end)
  | _ => None
  end.

(** [astype(int)] after [np.floor] or [np.rint]: an infinity, a NaN and a
    value outside the range give [-2^63]. *)
Definition b64_to_int (r : option Z) : Z :=
  match r with
  | Some z => cast64 z
  | None => int64_min
  end.

(** The float nearest to an integer. *)
Definition b64_of_int (z : Z) : float :=
  SF2Prim (binary_normalize prec emax z 0 false).

Definition b64_is_finite (x : float) : bool :=
  negb (is_nan x || is_infinity x).

(** [np.isclose(a, b, rtol=1e-05, atol=tol)], entry by entry: the tolerance
    test for two finite entries, equality otherwise. *)
Definition b64_isclose (tol a b : float) : bool :=
  if b64_is_finite a && b64_is_finite b
  then (abs (a - b) <=? tol + 1e-05 * abs b)%float
  else (a =? b)%float.
End Binary64.

#[export] Instance b64_ops : FloatOps PrimFloat.float := {|
  fzero := PrimFloat.zero;
  fone := PrimFloat.one;
  fadd := PrimFloat.add;
  fmul := PrimFloat.mul;
  fdiv := PrimFloat.div;
  is_zero := λ x, PrimFloat.eqb x PrimFloat.zero;
  is_pos := λ x, PrimFloat.ltb PrimFloat.zero x;
  isclose := b64_isclose
|}.

#[export] Instance b64_cents : CentOps PrimFloat.float := {|
  fsub := PrimFloat.sub;
  fneg := PrimFloat.opp;
  fle := PrimFloat.leb;
  of_int := b64_of_int;
  floor_int := λ x, b64_to_int (b64_floor x);
  rint_int := λ x, b64_to_int (b64_rint x);
  py_round := b64_rint
|}.

(** ** Integer matrices as lists of rows *)

Section Matrix.
Local Open Scope Z_scope.

(** [M.sum(axis=1)]. *)
Definition row_sums (M : list (list Z)) : list Z := zsum <$> M.

(** Column [j] of [M]. *)
Definition column (j : nat) (M : list (list Z)) : list Z :=
  (λ row : list Z, row !!! j) <$> M.

(** [M.sum(axis=0)] of a matrix with [nC] columns. *)
Definition col_sums (nC : nat) (M : list (list Z)) : list Z :=
  (λ j, zsum (column j M)) <$> seq 0 nC.

(** The shape test: [M] has [nR] rows of [nC] entries each. *)
Definition conforms {A} (M : list (list A)) (nR nC : nat) : bool :=
  bool_decide (length M = nR) && forallb (λ row, bool_decide (length row = nC)) M.
End Matrix.

(** ** Joint exact two-decimal rounding ([round_matrix_exact_cents]) *)

(** The three arrays the correction pass mutates. *)
Record rstate := RState {
  Xc : list (list Z);
  row_def : list Z;
  col_def : list Z
}.

Section Rounding.
Context {F : Type} `{FloatOps F} `{CentOps F}.
Local Open Scope Z_scope.

(** A dollar amount scaled to cents: [x * 100.0]. *)
Definition to_cents (x : F) : F := fmul x (of_int 100).

(** An integer number of cents as a dollar amount: [float(c) / 100.0]. *)
Definition dollars (c : Z) : F := fdiv (of_int c) (of_int 100).

(** [Xc_real - Xc]: the fractional part of a cell in cents. *)
Definition remainder (x : F) : F := fsub (to_cents x) (of_int (floor_int (to_cents x))).

(** [R[i, j]]; the sort key of a cell. *)
Definition rem_at (X : list (list F)) (ij : nat * nat) : F :=
  match X !! ij.1 ≫= (.!! ij.2) with
  | Some x => remainder x
  | None => fzero
  end.

(** [[(i, j) for i in range(nR) for j in range(nC)]]. *)
Definition cells (nR nC : nat) : list (nat * nat) :=
  i ← seq 0 nR; (λ j, (i, j)) <$> seq 0 nC.

(** [list.sort(key=..., reverse=True)]: descending by key, entries of equal
    key kept in their original order. *)
Fixpoint insert_desc {A} (key : A → F) (x : A) (l : list A) : list A :=
  match l with
  | [] => [x]
  | y :: l' =>
      if fle (key y) (key x) then x :: y :: l'
      else y :: insert_desc key x l'
  end.

Definition sort_desc {A} (key : A → F) (l : list A) : list A :=
  foldr (insert_desc key) [] l.

(** One iteration of the loop body before the exit test: the cell [(i, j)]
    takes [min(row_def[i], col_def[j])] when both are positive.  An index
    outside an array is Python's [IndexError], here [None]. *)
Definition visit (st : rstate) (ij : nat * nat) : option rstate :=
  let '(i, j) := ij in
  ri ← row_def st !! i;
  cj ← col_def st !! j;
  if bool_decide (0 < ri) && bool_decide (0 < cj) then
    let take := Z.min ri cj in
    row ← Xc st !! i;
    _ ← row !! j;
    Some (RState (alter (alter (λ v, v + take) j) i (Xc st))
                 (alter (λ d, d - take) i (row_def st))
                 (alter (λ d, d - take) j (col_def st)))
  else Some st.

(** The loop [for i, j in idx: ...; if row_def.sum() == 0 and
    col_def.sum() == 0: break].  The second component counts the cells
    visited. *)
Fixpoint greedy (idx : list (nat * nat)) (st : rstate) : option (rstate * nat) :=
  match idx with
  | [] => Some (st, 0%nat)
  | ij :: rest =>
      st' ← visit st ij;
      if bool_decide (zsum (row_def st') = 0) && bool_decide (zsum (col_def st') = 0)
      then Some (st', 1%nat)
      else '(st'', k) ← greedy rest st'; Some (st'', S k)
  end.

(** The state on entry to the loop: the element-wise floor of the matrix in
    cents and the deficits of its rows and columns. *)
Definition floor_cents (X : list (list F)) : list (list Z) :=
  (λ row : list F, (λ x, floor_int (to_cents x)) <$> row) <$> X.

Definition cent_targets (targets : list F) : list Z :=
  (λ t, rint_int (to_cents t)) <$> targets.

Definition initial_state (X : list (list F)) (row_targets col_targets : list F) : rstate :=
  let C := floor_cents X in
  RState C
         (zip_with Z.sub (cent_targets row_targets) (row_sums C))
         (zip_with Z.sub (cent_targets col_targets) (col_sums (length col_targets) C)).

(** The whole pass, up to the final conversion to dollars.  numpy refuses
    the subtractions [rT_c - Xc.sum(axis=1)] and [cT_c - Xc.sum(axis=0)]
    when the target vectors do not have one entry per row and per column
    (vectors of length one, which numpy would broadcast, are refused here
    as well: the repository always passes conforming shapes). *)
Definition round_matrix_pass (X : list (list F)) (row_targets col_targets : list F)
  : option (rstate * nat) :=
  let nR := length row_targets in
  let nC := length col_targets in
  if conforms X nR nC then
    greedy (sort_desc (rem_at X) (cells nR nC)) (initial_state X row_targets col_targets)
  else None.

(** [round_matrix_exact_cents]: the corrected cents divided by 100. *)
Definition round_matrix_exact_cents (X : list (list F)) (row_targets col_targets : list F)
  : option (list (list F)) :=
  '(st, _) ← round_matrix_pass X row_targets col_targets;
  Some ((λ row : list Z, dollars <$> row) <$> Xc st).

(** The bounds under which the 64-bit arithmetic of the pass is the
    arithmetic of [Z]: no cell of the floor and no cent target is negative,
    and the floor, the row targets and the column targets each add up to
    less than [2^63].  Every sum of cells then lies between 0 and the total
    of the floor, every deficit and every sum of deficits between minus
    that total and a total of targets, and a cell that takes cents ends at
    no more than the target of its row. *)
Definition cents_in_range (X : list (list F)) (row_targets col_targets : list F) : Prop :=
  Forall (Forall (λ c, 0 ≤ c)) (floor_cents X) ∧
  zsum (row_sums (floor_cents X)) ≤ int64_max ∧
  Forall (λ t, 0 ≤ t) (cent_targets row_targets) ∧
  Forall (λ t, 0 ≤ t) (cent_targets col_targets) ∧
  zsum (cent_targets row_targets) ≤ int64_max ∧
  zsum (cent_targets col_targets) ≤ int64_max.
End Rounding.


(** ** Vocabulary for the invariants of the correction pass *)

Section RoundingInvariants.
Local Open Scope Z_scope.

(** The three arrays have the shapes of an [nR] by [nC] problem. *)
Definition well_shaped (nR nC : nat) (st : rstate) : Prop :=
  length (Xc st) = nR ∧ Forall (λ row, length row = nC) (Xc st) ∧
  length (row_def st) = nR ∧ length (col_def st) = nC.

(** The cents the loop body moves into cell [(i, j)]: the smaller deficit
    when both are positive, nothing otherwise. *)
Definition take_of (st : rstate) (i j : nat) : Z :=
  let ri := row_def st !!! i in
  let cj := col_def st !!! j in
  if bool_decide (0 < ri) && bool_decide (0 < cj) then Z.min ri cj else 0.

(** Moving [t] cents into cell [(i, j)]. *)
Definition bump (st : rstate) (i j : nat) (t : Z) : rstate :=
  RState (alter (alter (λ v, v + t) j) i (Xc st))
         (alter (λ d, d - t) i (row_def st))
         (alter (λ d, d - t) j (col_def st)).

(** What every run of loop iterations preserves, from [st] to [st']:
    deficit plus allotted cents of each row and of each column, the
    difference of the two deficit totals; cells never shrink, deficits
    never grow and never turn negative. *)
Definition evolves (nR nC : nat) (st st' : rstate) : Prop :=
  well_shaped nR nC st' ∧
  (∀ a : nat, (a < nR)%nat →
     row_def st' !!! a + zsum (Xc st' !!! a) = row_def st !!! a + zsum (Xc st !!! a)) ∧
  (∀ b : nat, (b < nC)%nat →
     col_def st' !!! b + zsum (column b (Xc st')) = col_def st !!! b + zsum (column b (Xc st))) ∧
  zsum (row_def st') - zsum (col_def st') = zsum (row_def st) - zsum (col_def st) ∧
  (∀ a b : nat, (Xc st !!! a) !!! b ≤ (Xc st' !!! a) !!! b) ∧
  (∀ a : nat, row_def st' !!! a ≤ row_def st !!! a ∧
              (0 ≤ row_def st !!! a → 0 ≤ row_def st' !!! a)) ∧
  (∀ b : nat, col_def st' !!! b ≤ col_def st !!! b ∧
              (0 ≤ col_def st !!! b → 0 ≤ col_def st' !!! b)).

(** Cell [(i, j)] can take no more cents: its row or its column has no
    positive deficit left. *)
Definition settled (st : rstate) (ij : nat * nat) : Prop :=
  row_def st !!! ij.1 ≤ 0 ∨ col_def st !!! ij.2 ≤ 0.

(** Cell [(i, j)] lies inside an [nR] by [nC] matrix. *)
Definition in_range (nR nC : nat) (ij : nat * nat) : Prop :=
  (ij.1 < nR)%nat ∧ (ij.2 < nC)%nat.
End RoundingInvariants.

(** ** Iterative proportional fitting ([ipf]) *)

Section IPF.
Context {F : Type} `{FloatOps F}.

(** [v.sum()].  The order in which numpy adds the entries is not part of
    the embedding; the entries are added from the last one on. *)
Definition fsum (v : list F) : F := foldr fadd fzero v.

(** [X.sum(axis=1)] and [X.sum(axis=0)] of a matrix with [nC] columns. *)
Definition frow_sums (X : list (list F)) : list F := fsum <$> X.

Definition fcol_sums (nC : nat) (X : list (list F)) : list F :=
  (λ j, fsum ((λ row : list F, default fzero (row !! j)) <$> X)) <$> seq 0 nC.

(** [rs[rs == 0] = 1.0]: a zero sum is replaced by one before dividing. *)
Definition guard (s : F) : F := if is_zero s then fone else s.

(** [rs = X.sum(axis=1, keepdims=True); rs[rs == 0] = 1.0;
     X *= (rT / rs.squeeze())[:, None]]. *)
Definition scale_rows (rT : list F) (X : list (list F)) : list (list F) :=
  zip_with (λ t (row : list F), (λ x, fmul x (fdiv t (guard (fsum row)))) <$> row) rT X.

(** [cs = X.sum(axis=0, keepdims=True); cs[cs == 0] = 1.0;
     X *= (cT / cs.squeeze())[None, :]]. *)
Definition scale_cols (cT : list F) (X : list (list F)) : list (list F) :=
  let factors := zip_with fdiv cT (guard <$> fcol_sums (length cT) X) in
  (λ row : list F, zip_with fmul row factors) <$> X.

(** One row rescaling followed by one column rescaling. *)
Definition sweep (rT cT : list F) (X : list (list F)) : list (list F) :=
  scale_cols cT (scale_rows rT X).

(** [np.allclose(a, b, atol=tol)]. *)
Definition allclose (tol : F) (a b : list F) : bool :=
  forallb (λ ab, isclose tol ab.1 ab.2) (zip a b).

(** The exit test of the loop. *)
Definition converged (tol : F) (rT cT : list F) (X : list (list F)) : bool :=
  allclose tol (frow_sums X) rT && allclose tol (fcol_sums (length cT) X) cT.

(** [for _ in range(max_iter): sweep; if converged: break].  The second
    component counts the iterations performed. *)
Fixpoint ipf_loop (max_iter : nat) (tol : F) (rT cT : list F) (X : list (list F))
  : list (list F) * nat :=
  match max_iter with
  | O => (X, O)
  | S n =>
      let X' := sweep rT cT X in
      if converged tol rT cT X' then (X', 1%nat)
      else let '(Y, k) := ipf_loop n tol rT cT X' in (Y, S k)
  end.

(** The seed built when none is supplied: the outer product of the
    indicators of the positive targets, or all ones when that is all zero. *)
Definition indicator (v : list F) : list F :=
  (λ t, if is_pos t then fone else fzero) <$> v.

Definition outer (u v : list F) : list (list F) :=
  (λ a, fmul a <$> v) <$> u.

Definition default_seed (rT cT : list F) : list (list F) :=
  let seed := outer (indicator rT) (indicator cT) in
  if is_zero (fsum (frow_sums seed))
  then replicate (length rT) (replicate (length cT) fone)
  else seed.

(** [ipf]: the seed, one sweep, then the capped loop.  A seed whose shape is
    not [len(rT)] by [len(cT)] makes numpy refuse the first rescaling:
    [None]. *)
Definition ipf (row_targets col_targets : list F) (seed : option (list (list F)))
    (max_iter : nat) (tol : F) : option (list (list F) * nat) :=
  let seed := default (default_seed row_targets col_targets) seed in
  if conforms seed (length row_targets) (length col_targets) then
    Some (ipf_loop max_iter tol row_targets col_targets
            (sweep row_targets col_targets seed))
  else None.

(** A supplied seed has the shape of the targets. *)
Definition seed_fits (rT cT : list F) (seed : option (list (list F))) : Prop :=
  match seed with
  | None => True
  | Some s => conforms s (length rT) (length cT) = true
  end.
End IPF.

(** The defaults of [ipf]: [max_iter=5000, tol=1e-10]. *)
Definition default_max_iter : nat := 5000.
Definition default_tol : Q := 1 # 10000000000.

Section Binary64Vocabulary.
Import PrimFloat.

Definition b64_default_tol : float := 1e-10%float.

(** What the comparisons tell of a binary64 float: it is at least zero, it
    equals zero, it is a NaN (the only float different from itself). *)
Definition b64_nonneg (x : float) : Prop := (0 <=? x)%float = true.
Definition b64_zero (x : float) : Prop := (x =? 0)%float = true.
Definition b64_nan (x : float) : Prop := (x =? x)%float = false.

(** Not negative: at least zero, or a NaN; and zero or a NaN. *)
Definition b64_not_neg (x : float) : Prop := b64_nonneg x ∨ b64_nan x.
Definition b64_zero_or_nan (x : float) : Prop := b64_zero x ∨ b64_nan x.

(** The same on the decoded float: not negative (a zero of either sign, a
    positive number, plus infinity or a NaN), and zero or NaN. *)
Definition sf_not_neg (x : SpecFloat.spec_float) : Prop :=
  match x with
  | SpecFloat.S754_nan | SpecFloat.S754_zero _ => True
  | SpecFloat.S754_infinity s | SpecFloat.S754_finite s _ _ => s = false
  end.

Definition sf_zero_or_nan (x : SpecFloat.spec_float) : Prop :=
  match x with
  | SpecFloat.S754_nan | SpecFloat.S754_zero _ => True
  | _ => False
  end.

(** The sign of a decoded float is [s], unless it is a NaN. *)
Definition sf_sign_is (s : bool) (x : SpecFloat.spec_float) : Prop :=
  match x with
  | SpecFloat.S754_nan => True
  | SpecFloat.S754_zero s' | SpecFloat.S754_infinity s'
  | SpecFloat.S754_finite s' _ _ => s' = s
  end.
End Binary64Vocabulary.

(** ** Largest-remainder apportionment ([allocate_cents_for_coverage]) *)

(** [np.argsort]: the indices of a vector in an order that sorts it.  Which
    order numpy returns depends on the sorting kind and on the NaN among
    the entries; the embedding takes any function that returns the indices
    in some order, and nothing proved depends on which. *)
Class Argsort (F : Type) := {
  argsort : list F → list nat;
  argsort_perm : ∀ l, argsort l ≡ₚ seq 0 (length l)
}.

Section Apportionment.
Context {F : Type} `{FloatOps F} `{CentOps F} `{Argsort F}.
Local Open Scope Z_scope.

(** One instance: insertion sort of the indices, ascending, indices of equal
    entries kept in increasing order. *)
Fixpoint insert_asc (key : nat → F) (i : nat) (l : list nat) : list nat :=
  match l with
  | [] => [i]
  | j :: l' =>
      if fle (key i) (key j) then i :: j :: l'
      else j :: insert_asc key i l'
  end.

Definition stable_argsort (l : list F) : list nat :=
  foldr (insert_asc (λ i, default fzero (l !! i))) [] (seq 0 (length l)).

(** [tivs = [float(tiv_by_loc_map.get(l, 0.0)) for l in loc_list]]. *)
Definition tivs_of (tiv_by_loc_map : gmap string F) (loc_list : list string) : list F :=
  (λ l, default fzero (tiv_by_loc_map !! l)) <$> loc_list.

(** The normalised weights: [np.ones(n) / n] when [total_tiv <= 0], else
    [tivs / total_tiv]. *)
Definition weights (tivs : list F) : list F :=
  let n := length tivs in
  let total_tiv := fsum tivs in
  if fle total_tiv fzero then replicate n (fdiv fone (of_int (Z.of_nat n)))
  else (λ t, fdiv t total_tiv) <$> tivs.

(** [raw = weights * cents_total] and [floor = np.floor(raw).astype(int)]. *)
Definition raw_shares (cents_total : Z) (tivs : list F) : list F :=
  (λ w, fmul w (of_int cents_total)) <$> weights tivs.

Definition floor_shares (cents_total : Z) (tivs : list F) : list Z :=
  floor_int <$> raw_shares cents_total tivs.

(** The bounds under which the 64-bit arithmetic on the floors is the
    arithmetic of [Z]: no floor is negative (a share outside the range is
    cast to [-2^63]) and the floors, with one cent more for each entity,
    add up to less than [2^63]. *)
Definition shares_in_range (cents_total : Z) (tivs : list F) : Prop :=
  Forall (λ f, 0 ≤ f) (floor_shares cents_total tivs) ∧
  zsum (floor_shares cents_total tivs) + Z.of_nat (length tivs) ≤ int64_max.

(** [add = np.zeros(n, dtype=int); add[idxs] = 1]. *)
Definition set_ones (n : nat) (idxs : list nat) : list Z :=
  foldl (λ a i, <[i := 1]> a) (replicate n 0) idxs.

(** The array part of [allocate_cents_for_coverage] for a given
    [cents_total], up to the assertion: [None] is the [AssertionError].
    [floor.sum()], [floor + add] and [cents.sum()] are 64-bit.  The slice
    [order[:remain]] of the [n] indices holds the first [min(remain, n)]
    of them. *)
Definition apportion (cents_total : Z) (tivs : list F) : option (list Z) :=
  let n := length tivs in
  let raw := raw_shares cents_total tivs in
  let floor := floor_shares cents_total tivs in
  let rema := zip_with (λ r f, fsub r (of_int f)) raw floor in
  let remain := cents_total - wrap64 (zsum floor) in
  let order := argsort (fneg <$> rema) in
  let add := if bool_decide (0 < remain)
             then set_ones n (take (Z.to_nat (Z.min remain (Z.of_nat n))) order)
             else replicate n 0 in
  let cents := zip_with (λ f a, wrap64 (f + a)) floor add in
  if bool_decide (wrap64 (zsum cents) = cents_total) then Some cents else None.

(** From [cents_total = int(round(premium_total * 100))] to the assertion. *)
Definition allocate_cents (premium_total : F) (tivs : list F) : option (list Z) :=
  cents_total ← py_round (to_cents premium_total);
  apportion cents_total tivs.

(** [{loc_list[i]: v[i] for i in range(n)}]: a later entry replaces an
    earlier one under the same key. *)
Definition to_dict (loc_list : list string) (v : list F) : gmap string F :=
  foldl (λ m lv, <[lv.1 := lv.2]> m) ∅ (zip loc_list v).

(** [allocate_cents_for_coverage]; [None] is an exception: that of
    [round] for an infinite or NaN premium, or the [AssertionError]. *)
Definition allocate_cents_for_coverage
    (premium_total : F) (tiv_by_loc_map : gmap string F) (loc_list : list string)
  : option (gmap string F) :=
  let n := length loc_list in
  if bool_decide (n = 0%nat) then Some ∅
  else
    let tivs := tivs_of tiv_by_loc_map loc_list in
    if fle premium_total fzero then Some (to_dict loc_list (replicate n fzero))
    else
      cents ← allocate_cents premium_total tivs;
      Some (to_dict loc_list (dollars <$> cents)).
End Apportionment.

(** ** Python strings *)

Section PyStrings.

(** [ch.isspace()] for a code point below 256: the characters [str.strip()]
    removes. *)
Definition py_isspace (c : ascii) : bool :=
  let n := nat_of_ascii c in
  ((9 <=? n) && (n <=? 13)) || ((28 <=? n) && (n <=? 32)) || (n =? 133) || (n =? 160).

(** [ch.isalnum()] for a code point below 256. *)
Definition py_isalnum (c : ascii) : bool :=
  let n := nat_of_ascii c in
  ((48 <=? n) && (n <=? 57)) || ((65 <=? n) && (n <=? 90)) || ((97 <=? n) && (n <=? 122))
  || (n =? 170) || (n =? 178) || (n =? 179) || (n =? 181) || (n =? 185) || (n =? 186)
  || ((188 <=? n) && (n <=? 190)) || ((192 <=? n) && (n <=? 214))
  || ((216 <=? n) && (n <=? 246)) || ((248 <=? n) && (n <=? 255)).

(** [ch.lower()] for a code point below 256. *)
Definition lower_char (c : ascii) : ascii :=
  let n := nat_of_ascii c in
  if ((65 <=? n) && (n <=? 90)) || ((192 <=? n) && (n <=? 222) && negb (n =? 215))
  then ascii_of_nat (n + 32) else c.

Fixpoint lower (s : string) : string :=
  match s with
  | EmptyString => EmptyString
  | String c s' => String (lower_char c) (lower s')
  end.

Fixpoint lstrip (s : string) : string :=
  match s with
  | EmptyString => EmptyString
  | String c s' => if py_isspace c then lstrip s' else s
  end.

(** [s.strip()]. *)
Definition strip (s : string) : string :=
  String.rev (lstrip (String.rev (lstrip s))).

(** [s.replace("\xa0", " ")]. *)
Fixpoint replace_nbsp (s : string) : string :=
  match s with
  | EmptyString => EmptyString
  | String c s' =>
      String (if (nat_of_ascii c =? 160)%nat then " "%char else c) (replace_nbsp s')
  end.

(** [key in k]: [key] occurs in [k] as a substring. *)
Fixpoint contains (k key : string) : bool :=
  String.prefix key k ||
  match k with
  | EmptyString => false
  | String _ k' => contains k' key
  end.

(** [", ".join(l)]. *)
Fixpoint join (sep : string) (l : list string) : string :=
  match l with
  | [] => ""%string
  | [x] => x
  | x :: l' => (x ++ sep ++ join sep l')%string
  end.
End PyStrings.

(** ** Ordered de-duplication of labels ([unique_ordered]) *)

Section UniqueOrdered.

(** One iteration of [for v in series.astype(str)]: the trimmed label is
    appended when it passes the test [keep] and has not been seen. *)
Definition uo_step (keep : string → bool)
    (st : gset string * list string) (v0 : string) : gset string * list string :=
  let v := strip v0 in
  if keep v && bool_decide (v ∉ st.1) then ({[ v ]} ∪ st.1, st.2 ++ [v]) else st.

Definition uo_loop (keep : string → bool) (series : list string) : list string :=
  (foldl (uo_step keep) (∅, []) series).2.

(** [if v], for a string: it is not empty. *)
Definition nonempty (v : string) : bool := negb (String.eqb v "").

(** [v.lower() not in ("nan", "none")]. *)
Definition not_nan (v : string) : bool :=
  negb (String.eqb (lower v) "nan" || String.eqb (lower v) "none").

(** [unique_ordered] of [ras_module.py] (and of [common.py], [main.py]):
    the test is [if v and v not in seen]. *)
Definition unique_ordered_ras (series : list string) : list string :=
  uo_loop nonempty series.

(** [unique_ordered] of [tiv_module.py]: the test is
    [if v and v.lower() not in ("nan", "none") and v not in seen]. *)
Definition unique_ordered_tiv (series : list string) : list string :=
  uo_loop (λ v, nonempty v && not_nan v) series.

(** Duplicates removed, first-seen order kept: the head stays, and is struck
    from what follows. *)
Fixpoint first_seen (l : list string) : list string :=
  match l with
  | [] => []
  | x :: l' => x :: filter (λ y, y ≠ x) (first_seen l')
  end.

(** The labels a test keeps, trimmed, in the order of the series. *)
Definition kept_labels (keep : string → bool) (series : list string) : list string :=
  filter (λ v, keep v = true) (strip <$> series).
End UniqueOrdered.

(** ** Sheets and loaders ([load_ras_sheet], [load_tiv_sheet]) *)

(** A cell of a sheet, given by what the conversions the loaders apply make
    of it: [pd.isna(x)], [str(x)], [pd.to_numeric(x, errors="coerce")]
    ([None] for NaN) and [float(_clean_text(x))] ([None] when it raises). *)
Record cell := Cell {
  is_na : bool;
  as_str : string;
  to_numeric : option Q;
  clean_float : option Q
}.

(** [np.nan], and a text and a numeric cell as a sheet holds them. *)
Definition nan_cell : cell := Cell true "nan" None None.
Definition text_cell (s : string) : cell := Cell false s None None.
Definition num_cell (s : string) (q : Q) : cell := Cell false s (Some q) (Some q).

(** A data frame: the headers, and one list of cells per row. *)
Record frame := Frame {
  columns : list string;
  body : list (list cell)
}.

(** [pd.ExcelFile]: the sheets by name. *)
Definition workbook := list (string * frame).

(** The typed rows the builders read from the frame [load_ras_sheet]
    returns. *)
Record ras_row := RasRow {
  r_loc : string; r_cov : string; r_ent : string; r_addr : string;
  r_row : Q; r_col : Q
}.

(** The typed rows the builders read from the frame [load_tiv_sheet]
    returns, over the type [F] of its numbers; [t_loc] is [None] for NaN. *)
Record tiv_row (F : Type) := TivRow {
  t_cov : string; t_loc : option string; t_pre : F; t_tiv : F;
  t_ent : string; t_street : string; t_city : string; t_state : string;
  t_zip : string
}.
Arguments TivRow {F} _ _ _ _ _ _ _ _ _.
Arguments t_cov {F} _.
Arguments t_loc {F} _.
Arguments t_pre {F} _.
Arguments t_tiv {F} _.
Arguments t_ent {F} _.
Arguments t_street {F} _.
Arguments t_city {F} _.
Arguments t_state {F} _.
Arguments t_zip {F} _.

(** The [cols] dictionary of [load_tiv_sheet]. *)
Record tiv_cols := TivCols {
  col_cov : string; col_pre : string; col_loc : string; col_tiv : string;
  col_ent : option string; col_st : option string; col_city : option string;
  col_state : option string; col_zip : option string
}.

Section Loaders.

Definition RAS_SHEETS : list string := ["RAS Algorithm - INPUT"; "INPUT"]%string.
Definition COL_LOC : string := "Loc #".
Definition COL_ROW : string := "Premium Total".
Definition COL_COV : string := "Coverage/Expense".
Definition COL_COL : string := "Total".
Definition COL_ENT : string := "Enitity Name".
Definition COL_ADDR : string := "Address".

Definition SHEET_TIV : string := "TIV Weighted Dist. - INPUT".
Definition COV_NAMES : list string := ["Coverage Type"; "Coverage/Expense"; "Coverage"]%string.
Definition PREM_NAMES : list string := ["Premium Amount"; "Premium"; "Premium Total"]%string.
Definition LOC_NAMES : list string := ["Loc #"; "Location #"; "Loc"]%string.
Definition ENT_NAMES : list string := ["Enitity Name"; "Entity Name"]%string.
Definition STREET_NAMES : list string := ["Street"; "Address 1"; "Address1"]%string.
Definition CITY_NAMES : list string := ["City"]%string.
Definition STATE_NAMES : list string := ["State"; "ST"]%string.
Definition ZIP_NAMES : list string :=
  ["Zip-Code"; "Zip-code"; "Zip Code"; "Zip"; "Postal Code"]%string.
Definition TIV_NAMES : list string :=
  ["Insurable Value"; "Total Insured Value"; "TIV"; "TIV ($)"; "TIV Amount";
   "TIV Value"; "TIV USD"; "TIV Total"; "Insured Value"; "Replacement Cost"]%string.

(** The line feed of the error message. *)
Definition newline : string := String (ascii_of_nat 10) EmptyString.

(** [read_sheet_any]: the first candidate that is a sheet of the workbook;
    [inl] is the [ValueError] raised when there is none. *)
Fixpoint read_sheet_any (xls : workbook) (candidates : list string)
    (all_candidates : list string) : string + frame :=
  match candidates with
  | [] => inl ("None of the sheets found: " ++ join ", " all_candidates)%string
  | name :: rest =>
      match list_find (λ sf, sf.1 = name) xls with
      | Some (_, (_, df)) => inr df
      | None => read_sheet_any xls rest all_candidates
      end
  end.

(** [df[c]] in one row, for a header [c] that occurs once: the cell under
    the header; NaN when the row is shorter than the headers. *)
Definition cell_at (headers : list string) (c : string) (row : list cell) : cell :=
  match list_find (λ h, h = c) headers with
  | Some (i, _) => default nan_cell (row !! i)
  | None => nan_cell
  end.

(** [df[c].astype(str).str.strip()] followed by the blanking of "nan". *)
Definition ras_text (x : cell) : string :=
  let s := strip (as_str x) in
  if String.eqb (lower s) "nan" then ""%string else s.

(** [pd.to_numeric(df[c], errors="coerce").fillna(0.0)]. *)
Definition numeric_or_zero (x : cell) : Q := default 0%Q (to_numeric x).

(** How many headers equal [c], and whether more than one does: [df[c]] is
    then a [DataFrame], not a column. *)
Definition occurrences (c : string) (headers : list string) : nat :=
  length (filter (λ h, h = c) headers).

Definition duplicated (headers : list string) (c : string) : bool :=
  bool_decide (2 ≤ occurrences c headers).

(** The columns [load_ras_sheet] converts with [.astype(str).str.strip()]
    and with [pd.to_numeric], in the order of the conversions, and the
    messages of the [AttributeError] and the [TypeError] that the
    conversions raise on a [DataFrame]. *)
Definition RAS_TEXT_COLUMNS : list string := [COL_LOC; COL_COV; COL_ENT; COL_ADDR].
Definition RAS_NUMERIC_COLUMNS : list string := [COL_ROW; COL_COL].
Definition ATTRIBUTE_ERROR : string := "'DataFrame' object has no attribute 'str'".
Definition TYPE_ERROR : string := "arg must be a list, tuple, 1-d array, or Series".

(** [load_ras_sheet]; [inl] is the message of the exception raised.  A
    header that is missing is added as a column of NaN ([df[c] = np.nan])
    before the conversions.  Two headers with the same trimmed form, one of
    the six names, make the conversion of that name raise. *)
Definition load_ras_sheet (xls : workbook) : string + list ras_row :=
  match read_sheet_any xls RAS_SHEETS RAS_SHEETS with
  | inl msg => inl msg
  | inr df =>
      let headers := strip <$> columns df in
      let get (c : string) (row : list cell) : cell :=
        if bool_decide (c ∈ headers) then cell_at headers c row else nan_cell in
      if existsb (duplicated headers) RAS_TEXT_COLUMNS then inl ATTRIBUTE_ERROR
      else if existsb (duplicated headers) RAS_NUMERIC_COLUMNS then inl TYPE_ERROR
      else
        inr ((λ row,
                RasRow (ras_text (get COL_LOC row)) (ras_text (get COL_COV row))
                       (ras_text (get COL_ENT row)) (ras_text (get COL_ADDR row))
                       (numeric_or_zero (get COL_ROW row))
                       (numeric_or_zero (get COL_COL row))) <$> body df)
  end.

(** [norm] of [pick_col]: lower case, alphanumeric characters only. *)
Fixpoint keep_alnum (s : string) : string :=
  match s with
  | EmptyString => EmptyString
  | String c s' => if py_isalnum c then String c (keep_alnum s') else keep_alnum s'
  end.

Definition norm (s : string) : string := keep_alnum (lower s).

(** [d[k] = v] on a dictionary kept in insertion order. *)
Fixpoint dict_put (k v : string) (d : list (string * string)) : list (string * string) :=
  match d with
  | [] => [(k, v)]
  | (k', v') :: d' =>
      if String.eqb k k' then (k', v) :: d' else (k', v') :: dict_put k v d'
  end.

Fixpoint dict_get (k : string) (d : list (string * string)) : option string :=
  match d with
  | [] => None
  | (k', v') :: d' => if String.eqb k k' then Some v' else dict_get k d'
  end.

(** [{norm(c): c for c in df.columns}]. *)
Definition norm_map (headers : list string) : list (string * string) :=
  foldl (λ d c, dict_put (norm c) c d) [] headers.

(** The first [Some] of [f] over a list: a loop that returns at its first
    hit. *)
Fixpoint first_some {A B} (f : A → option B) (l : list A) : option B :=
  match l with
  | [] => None
  | x :: l' => match f x with Some y => Some y | None => first_some f l' end
  end.

(** [df.columns = [str(c).replace("\xa0", " ").strip() for c in df.columns]]. *)
Definition clean_header (c : string) : string := strip (replace_nbsp c).

(** [pick_col]: the header whose normal form is that of a candidate, else
    the first header whose normal form contains that of a candidate. *)
Definition pick_col (headers : list string) (candidates : list string) : option string :=
  let nm := norm_map (clean_header <$> headers) in
  match first_some (λ cand, dict_get (norm cand) nm) candidates with
  | Some orig => Some orig
  | None =>
      first_some (λ cand,
        first_some (λ kv : string * string,
                      if contains kv.1 (norm cand) then Some kv.2 else None) nm)
        candidates
  end.

(** [_clean_text]. *)
Definition clean_text (x : cell) : string :=
  if is_na x then ""%string
  else
    let s := strip (replace_nbsp (as_str x)) in
    if String.eqb (lower s) "nan" || String.eqb (lower s) "none" then ""%string else s.

(** [f.is_integer()]. *)
Definition is_integer (f : Q) : bool := Qeq_bool (inject_Z (Qfloor f)) f.

(** [_normalize_loc]: blank is NaN, a whole number is written without its
    fraction. *)
Definition normalize_loc (x : cell) : option string :=
  let s := clean_text x in
  if String.eqb s "" then None
  else
    match clean_float x with
    | Some f => if is_integer f then Some (pretty (Qfloor f)) else Some s
    | None => Some s
    end.

(** The required fields of [load_tiv_sheet] with the aliases each accepts,
    the header each resolved to, and those that resolved to none. *)
Definition required_aliases : list (string * list string) :=
  [("Coverage"%string, COV_NAMES);
   ("Premium Amount"%string, PREM_NAMES);
   ("Loc #"%string, LOC_NAMES);
   ("TIV/Insurable Value"%string, TIV_NAMES)].

Definition required_fields (headers : list string) : list (string * option string) :=
  (λ nc : string * list string, (nc.1, pick_col headers nc.2)) <$> required_aliases.

Definition missing_fields (headers : list string) : list string :=
  omap (λ nc : string * option string,
          match nc.2 with None => Some nc.1 | Some _ => None end)
       (required_fields headers).

Definition missing_message (missing headers : list string) : string :=
  ("Missing required column(s) on '" ++ SHEET_TIV ++ "': " ++ join ", " missing
   ++ newline ++ "Headers found: " ++ join ", " headers)%string.

(** The headers as [load_tiv_sheet] and [pick_col] leave them:
    [str(c).strip()], then [str(c).replace("\xa0", " ").strip()]. *)
Definition tiv_headers (df : frame) : list string :=
  clean_header <$> (strip <$> columns df).

(** The headers as [load_ras_sheet] leaves them: [str(c).strip()]. *)
Definition ras_headers (df : frame) : list string := strip <$> columns df.

(** [load_tiv_sheet]; [inl] is a [ValueError] with its message.  The typed
    rows read each logical field from the column it resolved to.  The
    embedding covers the sheets whose cleaned headers are all different and
    whose fields resolve to different columns; on other sheets pandas hands
    the conversions a [DataFrame] or converts one column twice, and the
    rows below are not what the loader leaves. *)
Definition load_tiv_sheet (xls : workbook) : string + (list (tiv_row Q) * tiv_cols) :=
  match read_sheet_any xls [SHEET_TIV] [SHEET_TIV] with
  | inl msg => inl msg
  | inr df =>
      let headers := tiv_headers df in
      match pick_col headers COV_NAMES, pick_col headers PREM_NAMES,
            pick_col headers LOC_NAMES, pick_col headers TIV_NAMES with
      | Some c_cov, Some c_pre, Some c_loc, Some c_tiv =>
          let c_ent := pick_col headers ENT_NAMES in
          let c_st := pick_col headers STREET_NAMES in
          let c_city := pick_col headers CITY_NAMES in
          let c_state := pick_col headers STATE_NAMES in
          let c_zip := pick_col headers ZIP_NAMES in
          let opt (c : option string) (row : list cell) : string :=
            match c with
            | Some h => clean_text (cell_at headers h row)
            | None => ""%string
            end in
          inr ((λ row,
                  TivRow (clean_text (cell_at headers c_cov row))
                         (normalize_loc (cell_at headers c_loc row))
                         (numeric_or_zero (cell_at headers c_pre row))
                         (numeric_or_zero (cell_at headers c_tiv row))
                         (opt c_ent row) (opt c_st row) (opt c_city row)
                         (opt c_state row) (opt c_zip row)) <$> body df,
               TivCols c_cov c_pre c_loc c_tiv c_ent c_st c_city c_state c_zip)
      | _, _, _, _ => inl (missing_message (missing_fields headers) headers)
      end
  end.
End Loaders.

(** ** The weighted allocator over a frame ([build_tiv_matrix]) *)

(** What [build_tiv_matrix] returns, the location metadata apart (it is
    computed by [build_loc_meta_tiv] and plays no part in the matrix). *)
Record tiv_result (F : Type) := TivResult {
  res_locs : list string;
  res_covs : list string;
  res_mat : gmap string (gmap string F);
  res_row_vec : list F;
  res_col_vec : list F
}.
Arguments TivResult {F} _ _ _ _ _.
Arguments res_locs {F} _.
Arguments res_covs {F} _.
Arguments res_mat {F} _.
Arguments res_row_vec {F} _.
Arguments res_col_vec {F} _.

Section TivMatrix.
Context {F : Type} {FO : FloatOps F} {CO : CentOps F} {AS : Argsort F}.

(** [df.groupby(key)[val].sum().to_dict()], the rows whose key is NaN
    dropped. *)
Definition groupby_sum {K} `{Countable K}
    (key : tiv_row F → option K) (val : tiv_row F → F) (rows : list (tiv_row F))
  : gmap K F :=
  foldl (λ m r,
           match key r with
           | Some k => <[k := fadd (default fzero (m !! k)) (val r)]> m
           | None => m
           end) ∅ rows.

(** [for l in locs: tiv_global_map.setdefault(l, 0.0)]. *)
Definition set_defaults (locs : list string) (m : gmap string F) : gmap string F :=
  foldl (λ m l, match m !! l with Some _ => m | None => <[l := fzero]> m end) m locs.

(** [{str(l): {c: 0.0 for c in covs} for l in locs}]. *)
Definition zero_matrix (locs covs : list string) : gmap string (gmap string F) :=
  list_to_map ((λ l, (l, list_to_map ((λ c, (c, fzero)) <$> covs))) <$> locs).

(** [(cov, l) in tiv_by_cov_loc and tiv_by_cov_loc[(cov, l)] > 0]. *)
Definition positive_under (tiv_by_cov_loc : gmap (string * string) F)
    (cov l : string) : bool :=
  match tiv_by_cov_loc !! (cov, l) with
  | Some t => is_pos t
  | None => false
  end.

(** [cov_locs]: the locations with a positive weight of their own under the
    coverage. *)
Definition cov_locs_of (tiv_by_cov_loc : gmap (string * string) F)
    (locs : list string) (cov : string) : list string :=
  filter (λ l, positive_under tiv_by_cov_loc cov l = true) locs.

(** The weight map and the locations the coverage is allocated over: those
    of the coverage when at least two locations have a positive weight
    under it, else the global ones. *)
Definition weights_for (tiv_by_cov_loc : gmap (string * string) F)
    (tiv_global_map : gmap string F) (locs : list string) (cov : string)
  : gmap string F * list string :=
  let cov_locs := cov_locs_of tiv_by_cov_loc locs cov in
  if bool_decide (2 ≤ length cov_locs) then
    (list_to_map ((λ l, (l, default fzero (tiv_by_cov_loc !! (cov, l)))) <$> cov_locs),
     cov_locs)
  else (tiv_global_map, locs).

(** [mat[str(l)][cov] = v]; [None] is the [KeyError] of a location that is
    not a row of the matrix. *)
Definition set_cell (mat : gmap string (gmap string F)) (l cov : string) (v : F)
  : option (gmap string (gmap string F)) :=
  inner ← mat !! l; Some (<[l := <[cov := v]> inner]> mat).

(** [for l in alloc_locs: mat[str(l)][cov] = alloc.get(l, 0.0)]. *)
Fixpoint fill_column (mat : gmap string (gmap string F)) (cov : string)
    (alloc : gmap string F) (alloc_locs : list string)
  : option (gmap string (gmap string F)) :=
  match alloc_locs with
  | [] => Some mat
  | l :: rest =>
      mat' ← set_cell mat l cov (default fzero (alloc !! l));
      fill_column mat' cov alloc rest
  end.

(** The body of [for cov in covs]. *)
Definition allocate_coverage (premium_by_cov : gmap string F)
    (tiv_by_cov_loc : gmap (string * string) F) (tiv_global_map : gmap string F)
    (locs : list string) (mat : gmap string (gmap string F)) (cov : string)
  : option (gmap string (gmap string F)) :=
  let P := default fzero (premium_by_cov !! cov) in
  let '(tiv_map, alloc_locs) := weights_for tiv_by_cov_loc tiv_global_map locs cov in
  alloc ← allocate_cents_for_coverage P tiv_map alloc_locs;
  fill_column mat cov alloc alloc_locs.

Fixpoint allocate_coverages (premium_by_cov : gmap string F)
    (tiv_by_cov_loc : gmap (string * string) F) (tiv_global_map : gmap string F)
    (locs : list string) (mat : gmap string (gmap string F)) (covs : list string)
  : option (gmap string (gmap string F)) :=
  match covs with
  | [] => Some mat
  | cov :: rest =>
      mat' ← allocate_coverage premium_by_cov tiv_by_cov_loc tiv_global_map locs mat cov;
      allocate_coverages premium_by_cov tiv_by_cov_loc tiv_global_map locs mat' rest
  end.

(** [mat[l][c]], read after the loop. *)
Definition mat_cell (mat : gmap string (gmap string F)) (l c : string) : option F :=
  mat !! l ≫= (.!! c).

(** Python's [sum] of floats: from 0, left to right. *)
Definition py_sum (vals : list F) : F := foldl fadd fzero vals.

(** The maps [build_tiv_matrix] derives from the frame. *)
Definition tiv_locs (rows : list (tiv_row F)) : list string :=
  unique_ordered_tiv (omap t_loc rows).

Definition tiv_covs (rows : list (tiv_row F)) : list string :=
  unique_ordered_tiv (t_cov <$> rows).

Definition tiv_global (rows : list (tiv_row F)) : gmap string F :=
  set_defaults (tiv_locs rows) (groupby_sum t_loc t_tiv rows).

Definition tiv_premiums (rows : list (tiv_row F)) : gmap string F :=
  groupby_sum (λ r, Some (t_cov r)) t_pre rows.

Definition tiv_by_coverage (rows : list (tiv_row F)) : gmap (string * string) F :=
  groupby_sum (λ r, l ← t_loc r; Some (t_cov r, l)) t_tiv rows.

(** The weight map and locations chosen for a coverage of the frame, its
    premium, and the allocation made of it. *)
Definition coverage_weights (rows : list (tiv_row F)) (cov : string)
  : gmap string F * list string :=
  weights_for (tiv_by_coverage rows) (tiv_global rows) (tiv_locs rows) cov.

Definition coverage_premium (rows : list (tiv_row F)) (cov : string) : F :=
  default fzero (tiv_premiums rows !! cov).

Definition coverage_alloc (rows : list (tiv_row F)) (cov : string)
  : option (gmap string F) :=
  allocate_cents_for_coverage (coverage_premium rows cov)
    (coverage_weights rows cov).1 (coverage_weights rows cov).2.

(** [build_tiv_matrix], over the rows of the frame; [None] is an exception
    out of the loop: that of the allocator. *)
Definition build_tiv_matrix (rows : list (tiv_row F)) : option (tiv_result F) :=
  let locs := tiv_locs rows in
  let covs := tiv_covs rows in
  let premium_by_cov := tiv_premiums rows in
  mat ← allocate_coverages premium_by_cov (tiv_by_coverage rows) (tiv_global rows)
          locs (zero_matrix locs covs) covs;
  row_vec ← mapM (λ l, vals ← mapM (mat_cell mat l) covs; Some (py_sum vals)) locs;
  Some (TivResult locs covs mat row_vec
          ((λ c, default fzero (premium_by_cov !! c)) <$> covs)).
End TivMatrix.

(** ** Output file names ([next_output_path]) *)

Section OutputPath.

(** The stems of the output files of the two modules. *)
Definition RAS_OUTPUT : string := "RAS_ALG_Output".
Definition TIV_OUTPUT : string := "TIV_Weighted_Matrix".

(** [f"{stem}({n}).xlsx"]. *)
Definition output_name (stem : string) (n : nat) : string :=
  stem +:+ "(" +:+ pretty n +:+ ").xlsx".

(** [next_output_path]: [dir] holds the names of the files of [base_dir].
    The source loops [while True]; the loop is run here for at most [fuel]
    values of [n], and [None] is the loop still running. *)
Fixpoint next_output_from (stem : string) (dir : gset string) (fuel n : nat)
  : option string :=
  match fuel with
  | O => None
  | S fuel' =>
      let p := output_name stem n in
      if bool_decide (p ∉ dir) then Some p
      else next_output_from stem dir fuel' (S n)
  end.

Definition next_output_path (stem : string) (dir : gset string) (fuel : nat)
  : option string :=
  next_output_from stem dir fuel 1.
End OutputPath.

(** ** Location metadata ([build_loc_meta_ras]) *)

(** [{"entity": ..., "address": ...}]. *)
Record loc_meta := LocMeta {
  m_entity : string;
  m_address : string
}.

Section LocMeta.

(** [if not old and new: old = new]. *)
Definition fill_blank (old new : string) : string :=
  if String.eqb old "" && negb (String.eqb new "") then new else old.

(** The body of [for _, row in df.iterrows()].  The columns of the frame
    [load_ras_sheet] returns hold strings, so [pd.notna] is true of them. *)
Definition meta_step (meta : gmap string loc_meta) (r : ras_row) : gmap string loc_meta :=
  let loc := strip (r_loc r) in
  if String.eqb loc "" then meta
  else
    let ent := strip (r_ent r) in
    let addr := strip (r_addr r) in
    match meta !! loc with
    | None => <[loc := LocMeta ent addr]> meta
    | Some m =>
        <[loc := LocMeta (fill_blank (m_entity m) ent)
                         (fill_blank (m_address m) addr)]> meta
    end.

Definition build_loc_meta_ras (rows : list ras_row) : gmap string loc_meta :=
  foldl meta_step ∅ rows.

(** The first entry of a list that is not blank, blank when there is
    none. *)
Definition first_nonblank (l : list string) : string :=
  default ""%string (head (filter (λ s, s ≠ ""%string) l)).

(** The rows of a location. *)
Definition rows_of (loc : string) (rows : list ras_row) : list ras_row :=
  filter (λ r, strip (r_loc r) = loc) rows.
End LocMeta.

(** ** Location metadata of the weighted allocator ([build_loc_meta_tiv]) *)

(** [{"entity": ..., "street": ..., "city": ..., "state": ..., "zip": ...}]. *)
Record tiv_meta := TivMeta {
  tm_entity : string;
  tm_street : string;
  tm_city : string;
  tm_state : string;
  tm_zip : string
}.

Section LocMetaTiv.

(** [_clean_text] on a string: [pd.isna] is false of it. *)
Definition clean_str (s : string) : string :=
  let s' := strip (replace_nbsp s) in
  if String.eqb (lower s') "nan" || String.eqb (lower s') "none" then ""%string else s'.

(** The body of [for _, r in df.iterrows()], on the frame [load_tiv_sheet]
    returns: a detail column that was not found reads as blank. *)
Definition tiv_meta_step (meta : gmap string tiv_meta) (r : tiv_row Q)
  : gmap string tiv_meta :=
  match t_loc r with
  | None => meta
  | Some loc =>
      let ent := clean_str (t_ent r) in
      let st := clean_str (t_street r) in
      let city := clean_str (t_city r) in
      let state := clean_str (t_state r) in
      let zipc := clean_str (t_zip r) in
      match meta !! loc with
      | None => <[loc := TivMeta ent st city state zipc]> meta
      | Some m =>
          <[loc := TivMeta (fill_blank (tm_entity m) ent) (fill_blank (tm_street m) st)
                           (fill_blank (tm_city m) city) (fill_blank (tm_state m) state)
                           (fill_blank (tm_zip m) zipc)]> meta
      end
  end.

Definition build_loc_meta_tiv (rows : list (tiv_row Q)) : gmap string tiv_meta :=
  foldl tiv_meta_step ∅ rows.

(** The rows of a location. *)
Definition tiv_rows_of (loc : string) (rows : list (tiv_row Q)) : list (tiv_row Q) :=
  filter (λ r, t_loc r = Some loc) rows.
End LocMetaTiv.

(** ** The RAS matrix of a frame ([build_ras_matrix]) *)

Record ras_result := RasResult {
  ras_locs : list string;
  ras_covs : list string;
  ras_M : list (list Q);
  ras_row_vec : list Q;
  ras_col_vec : list Q;
  ras_meta : gmap string loc_meta
}.

Section RasMatrix.

(** [df.groupby(key, dropna=False)[val].sum().to_dict()] on a column of
    strings. *)
Definition ras_groupby (key : ras_row → string) (val : ras_row → Q)
    (rows : list ras_row) : gmap string Q :=
  foldl (λ m r, <[key r := (default 0 (m !! key r) + val r)%Q]> m) ∅ rows.

(** [np.where(v > 0, v, 0)]. *)
Definition where_pos (v : list Q) : list Q :=
  (λ t, if is_pos t then t else 0%Q) <$> v.

(** [max(a, 1.0)]. *)
Definition max_one (a : Q) : Q := if Qle_bool 1 a then a else 1%Q.

(** [seed = np.outer(...); seed = seed / seed.sum() * max(rt.sum(), 1.0)
    if seed.sum() > 0 else None]. *)
Definition ras_seed (rt ct : list Q) : option (list (list Q)) :=
  let seed := outer (where_pos rt) (where_pos ct) in
  let s := fsum (frow_sums seed) in
  if is_pos s
  then Some ((λ row : list Q, (λ x, x / s * max_one (fsum rt))%Q <$> row) <$> seed)
  else None.

(** [np.zeros((nL, nC))]. *)
Definition zeros (nL nC : nat) : list (list Q) := replicate nL (replicate nC 0%Q).

(** [build_ras_matrix]; [None] is an exception raised by [ipf] or by
    [round_matrix_exact_cents]. *)
Definition build_ras_matrix (rows : list ras_row) : option ras_result :=
  let locs := unique_ordered_ras (r_loc <$> rows) in
  let covs := unique_ordered_ras (r_cov <$> rows) in
  let row_totals_map := ras_groupby r_loc r_row rows in
  let col_totals_map := ras_groupby r_cov r_col rows in
  let row_vec := (λ l, default 0%Q (row_totals_map !! l)) <$> locs in
  let col_vec := (λ c, default 0%Q (col_totals_map !! c)) <$> covs in
  let nL := length locs in
  let nC := length covs in
  M ← (if bool_decide (nL = 0%nat) || bool_decide (nC = 0%nat) then Some (zeros nL nC)
       else
         '(M_real, _) ← ipf row_vec col_vec (ras_seed row_vec col_vec)
                            default_max_iter default_tol;
         round_matrix_exact_cents M_real row_vec col_vec);
  Some (RasResult locs covs M row_vec col_vec (build_loc_meta_ras rows)).
End RasMatrix.

(** ** The stages of [build_ras] before the workbook is written *)

Section Pipelines.

(** [df = load_ras_sheet(inp); ... = build_ras_matrix(df)]: [inl] is the
    [ValueError] of the loader, [inr None] an exception out of the matrix
    stage. *)
Definition build_ras_stages (xls : workbook) : string + option ras_result :=
  match load_ras_sheet xls with
  | inl msg => inl msg
  | inr rows => inr (build_ras_matrix rows)
  end.
End Pipelines.

(** ** Example inputs *)

(** A TIV sheet with coverage, premium and location columns and no
    insured-value column. *)
Definition tiv_sheet_without_tiv : frame :=
  Frame ["Coverage"; " Premium "; "Location Number"]
        [[text_cell "Fire"; num_cell "100.0" 100; num_cell "1.0" 1]].

(** A TIV sheet with no column of insured values; the header "Activity"
    contains the alias "TIV". *)
Definition tiv_sheet_activity : frame :=
  Frame ["Coverage"; "Premium"; "Loc #"; "Activity"]
        [[text_cell "Fire"; num_cell "100.0" 100; num_cell "1.0" 1; text_cell "retail"]].

(** A RAS sheet with two headers that read "Loc #" once trimmed. *)
Definition ras_sheet_two_locs : frame :=
  Frame ["Loc #"; "Loc # "; "Premium Total"; "Coverage/Expense"; "Total"]
        [[num_cell "1" 1; num_cell "2" 2; num_cell "100.0" 100; text_cell "Fire";
          num_cell "100.0" 100]].

(** A RAS sheet without the columns "Loc #", "Enitity Name" and "Address". *)
Definition ras_sheet_without_loc : frame :=
  Frame ["Premium Total"; "Coverage/Expense"; "Total"]
        [[num_cell "100.0" 100; text_cell "Fire"; num_cell "100.0" 100]].


Section ExampleRows.
Import PrimFloat.

(** Two coverages over two locations; "A" has a weight of its own at
    location "1" only, and location "2" carries no weight at all. *)
Definition tiv_rows_single_weight : list (tiv_row PrimFloat.float) :=
  [TivRow "A" (Some "1"%string) 100%float 50%float "" "" "" "" "";
   TivRow "B" (Some "2"%string) 0%float 0%float "" "" "" "" ""].

(** As above with positive weights at both locations and a premium of one
    cent for "A". *)
Definition tiv_rows_one_cent : list (tiv_row PrimFloat.float) :=
  [TivRow "A" (Some "1"%string) 0.01%float 75%float "" "" "" "" "";
   TivRow "B" (Some "2"%string) 0%float 25%float "" "" "" "" ""].

(** As above with equal weights at both locations and a premium of 100.00
    for "A". *)
Definition tiv_rows_equal_weights : list (tiv_row PrimFloat.float) :=
  [TivRow "A" (Some "1"%string) 100%float 50%float "" "" "" "" "";
   TivRow "B" (Some "2"%string) 0%float 50%float "" "" "" "" ""].
End ExampleRows.

(** The same rows with their numbers as rationals. *)
Definition tiv_rows_two_weights : list (tiv_row Q) :=
  [TivRow "A" (Some "1"%string) 100%Q 50%Q "" "" "" "" "";
   TivRow "B" (Some "2"%string) 0%Q 50%Q "" "" "" "" ""].

(** A TIV sheet with the four required columns under other spellings, the
    location written as a number. *)
Definition tiv_sheet_small : frame :=
  Frame ["Coverage"; " Premium "; "Location Number"; "TIV ($)"]
        [[text_cell "Fire"; num_cell "100.0" 100; num_cell "1.0" 1; num_cell "50.0" 50]].


(** * Properties of the joint rounding pass *)

Section ZsumFacts.
Local Open Scope Z_scope.
Implicit Types l k : list Z.

Lemma zsum_app l k : zsum (l ++ k) = zsum l + zsum k.
Proof. induction l as [|x l IH]; simpl; lia. Qed.

Lemma zsum_alter f l (i : nat) x :
  l !! i = Some x → zsum (alter f i l) = zsum l + (f x - x).
Proof.
  revert i. induction l as [|y l IH]; intros [|i] Hi; simplify_eq/=; try lia.
  rewrite (IH _ Hi). lia.
Qed.

Lemma zsum_nonneg l : Forall (λ x, 0 ≤ x) l → 0 ≤ zsum l.
Proof. induction 1; simpl; lia. Qed.

Lemma zsum_zero_all l : Forall (λ x, 0 ≤ x) l → zsum l = 0 → Forall (λ x, x = 0) l.
Proof.
  induction 1 as [|x l Hx Hl IH]; simpl; intros Hs; constructor.
  - pose proof (zsum_nonneg l Hl). lia.
  - apply IH. pose proof (zsum_nonneg l Hl). lia.
Qed.

Lemma zsum_all_zero l : Forall (λ x, x = 0) l → zsum l = 0.
Proof. induction 1; simpl; lia. Qed.

Lemma zsum_zip_sub l k :
  length l = length k → zsum (zip_with Z.sub l k) = zsum l - zsum k.
Proof.
  revert k. induction l as [|x l IH]; intros [|y k] Hlen; simplify_eq/=; try lia.
  rewrite IH by done. lia.
Qed.

Lemma zsum_zip_add l k :
  length l = length k → zsum (zip_with Z.add l k) = zsum l + zsum k.
Proof.
  revert k. induction l as [|x l IH]; intros [|y k] Hlen; simplify_eq/=; try lia.
  rewrite IH by done. lia.
Qed.
End ZsumFacts.

Section MatrixFacts.
Local Open Scope Z_scope.
Implicit Types M : list (list Z).

Lemma conforms_spec {A} (M : list (list A)) nR nC :
  conforms M nR nC = true ↔ length M = nR ∧ Forall (λ row, length row = nC) M.
Proof.
  unfold conforms. rewrite andb_true_iff, bool_decide_eq_true, forallb_forall.
  rewrite Forall_forall. split; intros [? H]; split; try done.
  - intros row Hr. apply list_elem_of_In, H in Hr. by apply bool_decide_eq_true in Hr.
  - intros row Hr. apply bool_decide_eq_true, H. by apply list_elem_of_In.
Qed.

Lemma length_col_sums nC M : length (col_sums nC M) = nC.
Proof. unfold col_sums. by rewrite length_fmap, length_seq. Qed.

Lemma length_row_sums M : length (row_sums M) = length M.
Proof. unfold row_sums. by rewrite length_fmap. Qed.

Lemma lookup_col_sums nC M (j : nat) :
  (j < nC)%nat → col_sums nC M !!! j = zsum (column j M).
Proof.
  intros Hj. unfold col_sums. apply list_lookup_total_correct.
  by rewrite list_lookup_fmap, lookup_seq_lt.
Qed.

Lemma lookup_row_sums M (i : nat) :
  (i < length M)%nat → row_sums M !!! i = zsum (M !!! i).
Proof.
  intros Hi. unfold row_sums. apply list_lookup_total_correct.
  by rewrite list_lookup_fmap, (list_lookup_lookup_total_lt M i Hi).
Qed.

Lemma col_sums_nil nC : col_sums nC [] = replicate nC 0.
Proof.
  unfold col_sums. generalize 0%nat. induction nC as [|n IH]; intros s; simpl; [done|].
  f_equal. apply IH.
Qed.

Lemma col_sums_cons nC row M :
  length row = nC →
  col_sums nC (row :: M) = zip_with Z.add row (col_sums nC M).
Proof.
  intros Hlen. apply list_eq. intros j.
  destruct (decide (j < nC)%nat) as [Hj|Hj].
  - assert (is_Some (row !! j)) as [x Hx] by (apply lookup_lt_is_Some; lia).
    rewrite lookup_zip_with, Hx. simpl.
    unfold col_sums. rewrite !list_lookup_fmap, lookup_seq_lt by done. simpl.
    unfold column. simpl. by rewrite (list_lookup_total_correct row j x Hx).
  - rewrite !lookup_ge_None_2; [done| |].
    + rewrite length_zip_with, length_col_sums. lia.
    + rewrite length_col_sums. lia.
Qed.

(** Summing all the row sums and summing all the column sums count the same cells. *)
Lemma zsum_row_col_sums nC M :
  Forall (λ row, length row = nC) M →
  zsum (row_sums M) = zsum (col_sums nC M).
Proof.
  induction 1 as [|row M Hrow HM IH].
  - rewrite col_sums_nil. simpl. symmetry. apply zsum_all_zero, Forall_replicate. done.
  - rewrite col_sums_cons by done. rewrite zsum_zip_add by (by rewrite length_col_sums).
    simpl. rewrite IH. done.
Qed.
End MatrixFacts.

Section PassFacts.
Local Open Scope Z_scope.
Implicit Types st : rstate.

Lemma well_shaped_lookups nR nC st (i j : nat) :
  well_shaped nR nC st → (i < nR)%nat → (j < nC)%nat →
  ∃ row x, row_def st !! i = Some (row_def st !!! i) ∧
           col_def st !! j = Some (col_def st !!! j) ∧
           Xc st !! i = Some row ∧ row !! j = Some x.
Proof.
  intros (HX & Hrows & Hr & Hc) Hi Hj.
  destruct (lookup_lt_is_Some_2 (Xc st) i) as [row Hrow]; [lia|].
  assert (length row = nC) as Hlen.
  { rewrite Forall_lookup in Hrows. by apply (Hrows i). }
  destruct (lookup_lt_is_Some_2 row j) as [x Hx]; [lia|].
  exists row, x. split_and!; try done.
  - apply list_lookup_lookup_total_lt. lia.
  - apply list_lookup_lookup_total_lt. lia.
Qed.

Lemma bump_zero st i j : bump st i j 0 = st.
Proof.
  destruct st as [M rd cd]. unfold bump. simpl. f_equal.
  - apply list_alter_id. intros row. apply list_alter_id. intros; lia.
  - apply list_alter_id. intros; lia.
  - apply list_alter_id. intros; lia.
Qed.

(** The loop body is [bump] by [take_of] on every cell inside the arrays. *)
Lemma visit_bump nR nC st (i j : nat) :
  well_shaped nR nC st → (i < nR)%nat → (j < nC)%nat →
  visit st (i, j) = Some (bump st i j (take_of st i j)).
Proof.
  intros Hws Hi Hj.
  destruct (well_shaped_lookups nR nC st i j Hws Hi Hj) as (row & x & Hr & Hc & Hrow & Hx).
  unfold visit, take_of. rewrite Hr, Hc. simpl.
  destruct (bool_decide (0 < row_def st !!! i) && bool_decide (0 < col_def st !!! j)) eqn:Hpos.
  - rewrite Hrow. simpl. rewrite Hx. simpl. done.
  - by rewrite bump_zero.
Qed.

Lemma take_of_bounds st (i j : nat) :
  let t := take_of st i j in
  0 ≤ t ∧
  (0 ≤ row_def st !!! i → t ≤ row_def st !!! i) ∧
  (0 ≤ col_def st !!! j → t ≤ col_def st !!! j) ∧
  (row_def st !!! i - t ≤ 0 ∨ col_def st !!! j - t ≤ 0).
Proof.
  unfold take_of. simpl.
  destruct (bool_decide (0 < row_def st !!! i)) eqn:Hr;
    destruct (bool_decide (0 < col_def st !!! j)) eqn:Hc; simpl;
    try apply bool_decide_eq_true in Hr; try apply bool_decide_eq_false in Hr;
    try apply bool_decide_eq_true in Hc; try apply bool_decide_eq_false in Hc; lia.
Qed.

Lemma zsum_column_alter (M : list (list Z)) nC (i j b : nat) row x (t : Z) :
  Forall (λ row, length row = nC) M → (b < nC)%nat →
  M !! i = Some row → row !! j = Some x →
  zsum (column b (alter (alter (λ v, v + t) j) i M))
  = zsum (column b M) + (if decide (j = b) then t else 0).
Proof.
  intros Hrows Hb Hrow Hx. unfold column.
  rewrite (list_fmap_alter _ _ (λ v, if decide (j = b) then v + t else v)).
  - erewrite zsum_alter; [|by rewrite list_lookup_fmap, Hrow].
    case_decide; lia.
  - eapply Forall_impl; [exact Hrows|]. intros r Hr. simpl in *.
    rewrite list_lookup_total_alter.
    destruct (decide (j = b)) as [->|Hne].
    + rewrite decide_True by (split; [done|lia]). done.
    + rewrite decide_False by (intros [? _]; done). done.
Qed.

Lemma bump_evolves nR nC st (i j : nat) (t : Z) :
  well_shaped nR nC st → (i < nR)%nat → (j < nC)%nat →
  0 ≤ t →
  (0 ≤ row_def st !!! i → t ≤ row_def st !!! i) →
  (0 ≤ col_def st !!! j → t ≤ col_def st !!! j) →
  evolves nR nC st (bump st i j t).
Proof.
  intros Hws Hi Hj Ht Htr Htc.
  destruct (well_shaped_lookups nR nC st i j Hws Hi Hj) as (row & x & Hr & Hc & Hrow & Hx).
  destruct Hws as (HX & Hrows & Hrd & Hcd).
  unfold evolves, bump; simpl. split_and!.
  - unfold well_shaped; simpl. rewrite !length_alter. split_and!; try done.
    apply Forall_alter; [done|]. intros r _ Hlen. by rewrite length_alter.
  - intros a Ha. rewrite !list_lookup_total_alter.
    destruct (decide (i = a)) as [->|Hne].
    + rewrite !decide_True by (split; [done|lia]).
      rewrite (list_lookup_total_correct _ _ _ Hrow).
      rewrite (zsum_alter _ _ _ _ Hx). lia.
    + rewrite !decide_False by (intros [? _]; done). done.
  - intros b Hb. rewrite (zsum_column_alter _ nC _ _ _ row x) by done.
    rewrite list_lookup_total_alter.
    destruct (decide (j = b)) as [->|Hne].
    + rewrite decide_True by (split; [done|lia]). lia.
    + rewrite decide_False by (intros [? _]; done). lia.
  - rewrite (zsum_alter _ _ _ _ Hr), (zsum_alter _ _ _ _ Hc). lia.
  - intros a b. rewrite list_lookup_total_alter.
    case_decide as Ha; [|done]. destruct Ha as [-> Hlt].
    rewrite list_lookup_total_alter. case_decide as Hb; [|lia].
    destruct Hb as [-> _]. lia.
  - intros a. rewrite list_lookup_total_alter.
    case_decide as Ha; [|lia]. destruct Ha as [-> _]. lia.
  - intros b. rewrite list_lookup_total_alter.
    case_decide as Hb; [|lia]. destruct Hb as [-> _]. lia.
Qed.

Lemma evolves_refl nR nC st : well_shaped nR nC st → evolves nR nC st st.
Proof. intros Hws. unfold evolves. split_and!; try done; intros; lia. Qed.

Lemma evolves_trans nR nC st1 st2 st3 :
  evolves nR nC st1 st2 → evolves nR nC st2 st3 → evolves nR nC st1 st3.
Proof.
  intros (_ & Hr1 & Hc1 & Hd1 & Hm1 & Hrd1 & Hcd1) (Hws & Hr2 & Hc2 & Hd2 & Hm2 & Hrd2 & Hcd2).
  unfold evolves. split_and!; try done.
  - intros a Ha. rewrite Hr2, Hr1 by done. done.
  - intros b Hb. rewrite Hc2, Hc1 by done. done.
  - lia.
  - intros a b. specialize (Hm1 a b). specialize (Hm2 a b). lia.
  - intros a. specialize (Hrd1 a). specialize (Hrd2 a). lia.
  - intros b. specialize (Hcd1 b). specialize (Hcd2 b). lia.
Qed.

Lemma settled_stable nR nC st st' ij :
  evolves nR nC st st' → settled st ij → settled st' ij.
Proof.
  intros (_ & _ & _ & _ & _ & Hrd & Hcd). unfold settled.
  specialize (Hrd ij.1). specialize (Hcd ij.2). lia.
Qed.
End PassFacts.

Section GreedyFacts.
Local Open Scope Z_scope.
Implicit Types st : rstate.

Lemma visit_evolves nR nC st ij :
  well_shaped nR nC st → in_range nR nC ij →
  ∃ st', visit st ij = Some st' ∧ evolves nR nC st st' ∧ settled st' ij.
Proof.
  destruct ij as [i j]. intros Hws [Hi Hj]; simpl in *.
  exists (bump st i j (take_of st i j)). split; [by eapply visit_bump|].
  destruct (take_of_bounds st i j) as (H0 & Hr & Hc & Hs).
  split; [by apply bump_evolves|].
  destruct Hws as (_ & _ & Hrd & Hcd).
  unfold settled, bump; simpl.
  rewrite !list_lookup_total_alter_eq by lia. done.
Qed.

(** The loop never fails on cells inside the arrays, visits no more cells
    than it is given, and stops either with both deficit totals at zero
    or with every cell it was given settled. *)
Lemma greedy_evolves nR nC idx : ∀ st,
  well_shaped nR nC st → Forall (in_range nR nC) idx →
  ∃ st' k, greedy idx st = Some (st', k) ∧ (k ≤ length idx)%nat ∧
           evolves nR nC st st' ∧
           ((zsum (row_def st') = 0 ∧ zsum (col_def st') = 0) ∨ Forall (settled st') idx).
Proof.
  induction idx as [|ij rest IH]; intros st Hws Hidx.
  - exists st, 0%nat. simpl. split_and!; [done|lia|by apply evolves_refl|by right].
  - apply Forall_cons in Hidx as [Hij Hrest].
    destruct (visit_evolves nR nC st ij Hws Hij) as (st1 & Hv & Hev1 & Hset).
    simpl. rewrite Hv. simpl.
    destruct (bool_decide (zsum (row_def st1) = 0) && bool_decide (zsum (col_def st1) = 0)) eqn:Hz.
    + exists st1, 1%nat. split_and!; [done|lia|done|].
      left. apply andb_true_iff in Hz as [H1 H2].
      by apply bool_decide_eq_true in H1, H2.
    + destruct (IH st1) as (st' & k & Hg & Hk & Hev & Hend); [apply Hev1|done|].
      exists st', (S k). rewrite Hg. simpl. split_and!; [done|lia| |].
      * by eapply evolves_trans.
      * destruct Hend as [?|Hall]; [by left|right].
        constructor; [|done]. by eapply settled_stable.
Qed.
End GreedyFacts.

Section SortFacts.
Context {F : Type} {CO : CentOps F} {A : Type} (key : A → F).

Lemma insert_desc_perm x l : insert_desc key x l ≡ₚ x :: l.
Proof.
  induction l as [|y l IH]; simpl; [done|].
  destruct (fle (key y) (key x)); [done|].
  rewrite IH. apply Permutation_swap.
Qed.

(** Sorting only reorders. *)
Lemma sort_desc_perm l : sort_desc key l ≡ₚ l.
Proof.
  induction l as [|x l IH]; simpl; [done|].
  unfold sort_desc in *. simpl. by rewrite insert_desc_perm, IH.
Qed.
End SortFacts.

Section CellsFacts.
Lemma elem_of_cells nR nC i j :
  (i, j) ∈ cells nR nC ↔ (i < nR)%nat ∧ (j < nC)%nat.
Proof.
  unfold cells. rewrite list_elem_of_bind. split.
  - intros (a & Hin & Ha). apply list_elem_of_fmap in Hin as (b & Heq & Hb).
    simplify_eq. apply elem_of_seq in Ha, Hb. lia.
  - intros [Hi Hj]. exists i. split.
    + apply list_elem_of_fmap. exists j. split; [done|]. apply elem_of_seq. lia.
    + apply elem_of_seq. lia.
Qed.

Lemma length_cells nR nC : length (cells nR nC) = (nR * nC)%nat.
Proof.
  unfold cells.
  assert (∀ s, length (seq s nR ≫= λ i, (λ j, (i, j)) <$> seq 0 nC) = (nR * nC)%nat) as H;
    [|apply H].
  induction nR as [|n IH]; intros s; simpl; [done|].
  rewrite length_app, length_fmap, length_seq, IH. done.
Qed.
End CellsFacts.

Section InitialState.
Context {F : Type} {FO : FloatOps F} {CO : CentOps F}.
Implicit Types (X : list (list F)) (rT cT : list F).
Local Open Scope Z_scope.

Lemma list_eq_total (l k : list Z) (n : nat) :
  length l = n → length k = n →
  (∀ i : nat, (i < n)%nat → l !!! i = k !!! i) → l = k.
Proof.
  intros Hl Hk H. apply (list_eq_same_length _ _ n); [done..|].
  intros i x y Hi Hx Hy.
  apply list_lookup_total_correct in Hx, Hy. rewrite <- Hx, <- Hy. by apply H.
Qed.

Lemma lookup_total_zip_sub (l k : list Z) (i : nat) :
  (i < length l)%nat → (i < length k)%nat →
  zip_with Z.sub l k !!! i = l !!! i - k !!! i.
Proof.
  intros Hl Hk. apply list_lookup_total_correct.
  rewrite lookup_zip_with.
  rewrite (list_lookup_lookup_total_lt l i Hl), (list_lookup_lookup_total_lt k i Hk).
  done.
Qed.

Lemma length_cent_targets (ts : list F) : length (cent_targets ts) = length ts.
Proof. unfold cent_targets. by rewrite length_fmap. Qed.

Lemma floor_cents_shape X nR nC :
  conforms X nR nC = true →
  length (floor_cents X) = nR ∧ Forall (λ row, length row = nC) (floor_cents X).
Proof.
  intros [Hlen Hrows]%conforms_spec. unfold floor_cents. split.
  - by rewrite length_fmap.
  - apply Forall_fmap. eapply Forall_impl; [exact Hrows|].
    intros row Hrow. simpl in *. by rewrite length_fmap.
Qed.

Lemma initial_well_shaped X rT cT :
  conforms X (length rT) (length cT) = true →
  well_shaped (length rT) (length cT) (initial_state X rT cT).
Proof.
  intros [Hlen Hrows]%floor_cents_shape.
  unfold well_shaped, initial_state; simpl. split_and!; try done.
  - rewrite length_zip_with_l_eq; rewrite length_cent_targets; [done|].
    by rewrite length_row_sums.
  - rewrite length_zip_with_l_eq; rewrite length_cent_targets; [done|].
    by rewrite length_col_sums.
Qed.

Lemma initial_row_link X rT cT (a : nat) :
  conforms X (length rT) (length cT) = true → (a < length rT)%nat →
  row_def (initial_state X rT cT) !!! a + zsum (Xc (initial_state X rT cT) !!! a)
  = cent_targets rT !!! a.
Proof.
  intros [Hlen Hrows]%floor_cents_shape Ha. unfold initial_state; simpl.
  rewrite lookup_total_zip_sub.
  - rewrite lookup_row_sums by lia. lia.
  - by rewrite length_cent_targets.
  - rewrite length_row_sums. lia.
Qed.

Lemma initial_col_link X rT cT (b : nat) :
  conforms X (length rT) (length cT) = true → (b < length cT)%nat →
  col_def (initial_state X rT cT) !!! b + zsum (column b (Xc (initial_state X rT cT)))
  = cent_targets cT !!! b.
Proof.
  intros [Hlen Hrows]%floor_cents_shape Hb. unfold initial_state; simpl.
  rewrite lookup_total_zip_sub.
  - rewrite lookup_col_sums by lia. lia.
  - by rewrite length_cent_targets.
  - rewrite length_col_sums. lia.
Qed.

Lemma initial_mismatch X rT cT :
  conforms X (length rT) (length cT) = true →
  zsum (row_def (initial_state X rT cT)) - zsum (col_def (initial_state X rT cT))
  = zsum (cent_targets rT) - zsum (cent_targets cT).
Proof.
  intros [Hlen Hrows]%floor_cents_shape. unfold initial_state; simpl.
  rewrite !zsum_zip_sub.
  - rewrite (zsum_row_col_sums (length cT)) by done. lia.
  - by rewrite length_cent_targets, length_col_sums.
  - by rewrite length_cent_targets, length_row_sums.
Qed.

(** The pass on conforming shapes: it returns, after at most [nR * nC]
    cells, a state that evolved from the floor and that either has both
    deficit totals at zero or has every cell of the matrix settled. *)
Lemma pass_evolves X rT cT :
  conforms X (length rT) (length cT) = true →
  ∃ st k, round_matrix_pass X rT cT = Some (st, k) ∧
          (k ≤ length rT * length cT)%nat ∧
          evolves (length rT) (length cT) (initial_state X rT cT) st ∧
          ((zsum (row_def st) = 0 ∧ zsum (col_def st) = 0) ∨
           ∀ i j : nat, (i < length rT)%nat → (j < length cT)%nat → settled st (i, j)).
Proof.
  intros Hconf. unfold round_matrix_pass. rewrite Hconf.
  pose proof (sort_desc_perm (rem_at X) (cells (length rT) (length cT))) as Hperm.
  destruct (greedy_evolves (length rT) (length cT)
              (sort_desc (rem_at X) (cells (length rT) (length cT)))
              (initial_state X rT cT)) as (st & k & Hg & Hk & Hev & Hend).
  - by apply initial_well_shaped.
  - rewrite Hperm. apply Forall_forall. intros [i j] Hin.
    by apply elem_of_cells in Hin.
  - exists st, k. split_and!; try done.
    + by rewrite Hperm, length_cells in Hk.
    + destruct Hend as [?|Hall]; [by left|right].
      intros i j Hi Hj. rewrite Hperm in Hall.
      rewrite Forall_forall in Hall. apply Hall. by apply elem_of_cells.
Qed.

(** After any evolution from the initial state, the deficits are the cent
    targets less the sums of the matrix as it then stands. *)
Lemma evolved_deficits X rT cT st :
  conforms X (length rT) (length cT) = true →
  evolves (length rT) (length cT) (initial_state X rT cT) st →
  row_def st = zip_with Z.sub (cent_targets rT) (row_sums (Xc st)) ∧
  col_def st = zip_with Z.sub (cent_targets cT) (col_sums (length cT) (Xc st)).
Proof.
  intros Hconf ((HX & Hrows & Hrd & Hcd) & Hr & Hc & _). split.
  - apply (list_eq_total _ _ (length rT)); [done| |].
    + rewrite length_zip_with_l_eq; rewrite length_cent_targets; [done|].
      by rewrite length_row_sums.
    + intros a Ha. rewrite lookup_total_zip_sub.
      * rewrite lookup_row_sums by lia.
        specialize (Hr a Ha). rewrite initial_row_link in Hr by done. lia.
      * by rewrite length_cent_targets.
      * rewrite length_row_sums. lia.
  - apply (list_eq_total _ _ (length cT)); [done| |].
    + rewrite length_zip_with_l_eq; rewrite length_cent_targets; [done|].
      by rewrite length_col_sums.
    + intros b Hb. rewrite lookup_total_zip_sub.
      * rewrite lookup_col_sums by lia.
        specialize (Hc b Hb). rewrite initial_col_link in Hc by done. lia.
      * by rewrite length_cent_targets.
      * rewrite length_col_sums. lia.
Qed.
End InitialState.

Section RoundingTheorems.
Context {F : Type} {FO : FloatOps F} {CO : CentOps F}.
Implicit Types (X : list (list F)) (rT cT : list F).
Local Open Scope Z_scope.

Lemma cell_total (M : list (list Z)) (a b : nat) row c :
  M !! a = Some row → row !! b = Some c → (M !!! a) !!! b = c.
Proof.
  intros Ha Hb. rewrite (list_lookup_total_correct _ _ _ Ha).
  by apply list_lookup_total_correct.
Qed.

Lemma exact_result X rT cT st k :
  round_matrix_pass X rT cT = Some (st, k) →
  round_matrix_exact_cents X rT cT = Some ((λ row : list Z, dollars <$> row) <$> Xc st).
Proof. intros H. unfold round_matrix_exact_cents. by rewrite H. Qed.

Lemma floor_cents_lookup X (i j : nat) x :
  X !! i ≫= (.!! j) = Some x →
  ∃ row, floor_cents X !! i = Some row ∧ row !! j = Some (floor_int (to_cents x)).
Proof.
  intros Hx. apply bind_Some in Hx as (xrow & Hi & Hj).
  exists ((λ x, floor_int (to_cents x)) <$> xrow). unfold floor_cents. split.
  - rewrite list_lookup_fmap. rewrite Hi. done.
  - rewrite list_lookup_fmap. rewrite Hj. done.
Qed.

(** C4. On conforming shapes, whether or not the cent targets of rows and
    columns add up to the same total, the pass returns a matrix after
    visiting at most [nR * nC] cells, and the remaining row deficits less
    the remaining column deficits total the initial mismatch
    [sum(rT_cents) - sum(cT_cents)]. *)
Theorem round_matrix_infeasible_total X rT cT :
  conforms X (length rT) (length cT) = true →
  ∃ st k,
    round_matrix_pass X rT cT = Some (st, k) ∧
    round_matrix_exact_cents X rT cT
      = Some ((λ row : list Z, dollars <$> row) <$> Xc st) ∧
    (k ≤ length rT * length cT)%nat ∧
    row_def st = zip_with Z.sub (cent_targets rT) (row_sums (Xc st)) ∧
    col_def st = zip_with Z.sub (cent_targets cT) (col_sums (length cT) (Xc st)) ∧
    zsum (row_def st) - zsum (col_def st)
      = zsum (cent_targets rT) - zsum (cent_targets cT).
Proof.
  intros Hconf.
  destruct (pass_evolves X rT cT Hconf) as (st & k & Hpass & Hk & Hev & _).
  destruct (evolved_deficits X rT cT st Hconf Hev) as [Hrd Hcd].
  exists st, k. split_and!; try done.
  - by eapply exact_result.
  - destruct Hev as (_ & _ & _ & Hdiff & _). rewrite Hdiff.
    by apply initial_mismatch.
Qed.

(** C10, as amended.  Within the 64-bit range (no cell of the floor
    negative, no cent target negative, the floor and each vector of cent
    targets adding up to less than [2^63]) every entry of the returned
    matrix is a number of cents, divided by 100, that is at least the floor
    of the input cell in cents: the pass only adds cents on top of the
    element-wise floor. *)
Theorem round_matrix_never_decreases X rT cT M (i j : nat) x :
  cents_in_range X rT cT →
  round_matrix_exact_cents X rT cT = Some M →
  X !! i ≫= (.!! j) = Some x →
  ∃ c, M !! i ≫= (.!! j) = Some (dollars c) ∧ 0 ≤ floor_int (to_cents x) ≤ c.
Proof.
  intros (Hnn & _) Hres Hx. unfold round_matrix_exact_cents in Hres.
  destruct (round_matrix_pass X rT cT) as [[st k]|] eqn:Hpass; [|discriminate].
  simpl in Hres. injection Hres as <-.
  assert (conforms X (length rT) (length cT) = true) as Hconf.
  { unfold round_matrix_pass in Hpass. by destruct (conforms X _ _). }
  destruct (pass_evolves X rT cT Hconf) as (st' & k' & Hpass' & _ & Hev & _).
  assert (st = st') as <- by congruence.
  destruct Hev as ((HX & Hrows & _) & _ & _ & _ & Hmono & _).
  destruct (floor_cents_lookup X i j x Hx) as (frow & Hfi & Hfj).
  destruct (floor_cents_shape X _ _ Hconf) as [HlenF HrowsF].
  assert (i < length rT)%nat as Hi by (rewrite <- HlenF; by eapply lookup_lt_Some).
  assert (j < length cT)%nat as Hj.
  { rewrite Forall_lookup in HrowsF. rewrite <- (HrowsF i frow Hfi). by eapply lookup_lt_Some. }
  destruct (lookup_lt_is_Some_2 (Xc st) i) as [row Hrow]; [lia|].
  assert (length row = length cT) as Hlen.
  { rewrite Forall_lookup in Hrows. by apply (Hrows i). }
  destruct (lookup_lt_is_Some_2 row j) as [c Hc]; [lia|].
  exists c. split.
  - rewrite list_lookup_fmap, Hrow. simpl. by rewrite list_lookup_fmap, Hc.
  - specialize (Hmono i j). simpl in Hmono.
    rewrite (cell_total _ _ _ _ _ Hfi Hfj), (cell_total _ _ _ _ _ Hrow Hc) in Hmono.
    rewrite Forall_lookup in Hnn. specialize (Hnn i frow Hfi).
    rewrite Forall_lookup in Hnn. specialize (Hnn j _ Hfj). simpl in Hnn. lia.
Qed.
End RoundingTheorems.

Section RoundingExact.
Context {F : Type} {FO : FloatOps F} {CO : CentOps F}.
Implicit Types (X : list (list F)) (rT cT : list F).
Local Open Scope Z_scope.

Lemma all_zero_from_settled (rd cd : list Z) :
  Forall (λ d, 0 ≤ d) rd → Forall (λ d, 0 ≤ d) cd →
  zsum rd = zsum cd →
  (∀ i j : nat, (i < length rd)%nat → (j < length cd)%nat →
                rd !!! i ≤ 0 ∨ cd !!! j ≤ 0) →
  Forall (λ d, d = 0) rd ∧ Forall (λ d, d = 0) cd.
Proof.
  intros Hrd Hcd Hsum Hset.
  assert (Forall (λ d, d = 0) rd) as Hr0.
  { destruct (decide (Forall (λ d, d = 0) rd)) as [|Hex]; [done|].
    apply not_Forall_Exists in Hex; [|apply _].
    apply Exists_exists in Hex as (d & Hin & Hd).
    apply list_elem_of_lookup in Hin as [i Hi].
    assert (0 < rd !!! i) as Hpos.
    { rewrite (list_lookup_total_correct _ _ _ Hi).
      rewrite Forall_lookup in Hrd. specialize (Hrd i d Hi). simpl in *. lia. }
    assert (Forall (λ d, d = 0) cd) as Hc0.
    { apply Forall_lookup. intros j c Hj.
      assert (j < length cd)%nat as Hlt by (by eapply lookup_lt_Some).
      destruct (Hset i j) as [?|Hle]; [by eapply lookup_lt_Some|done|lia|].
      rewrite (list_lookup_total_correct _ _ _ Hj) in Hle.
      rewrite Forall_lookup in Hcd. specialize (Hcd j c Hj). simpl in *. lia. }
    apply zsum_zero_all; [done|]. rewrite Hsum. by apply zsum_all_zero. }
  split; [done|].
  apply zsum_zero_all; [done|]. rewrite <- Hsum. by apply zsum_all_zero.
Qed.

Lemma Forall_total_nonneg (l : list Z) :
  (∀ i : nat, (i < length l)%nat → 0 ≤ l !!! i) → Forall (λ d, 0 ≤ d) l.
Proof.
  intros H. apply Forall_lookup. intros i d Hi.
  rewrite <- (list_lookup_total_correct _ _ _ Hi). apply H. by eapply lookup_lt_Some.
Qed.

Lemma Forall2_le_lookup (l k : list Z) (i : nat) :
  Forall2 Z.le l k → (i < length l)%nat → l !!! i ≤ k !!! i.
Proof.
  intros H Hi.
  destruct (lookup_lt_is_Some_2 l i Hi) as [x Hx].
  destruct (Forall2_lookup_l _ _ _ _ _ H Hx) as (y & Hy & Hle).
  by rewrite (list_lookup_total_correct _ _ _ Hx), (list_lookup_total_correct _ _ _ Hy).
Qed.

(** C1, as amended.  Within the 64-bit range (no cell of the floor
    negative, no cent target negative, the floor and each vector of cent
    targets adding up to less than [2^63]), when the cent targets of rows
    and of columns have the same total and the floor of no row and of no
    column exceeds its cent target, the returned matrix is made of
    non-negative whole cents, every row of it sums to its row cent target
    and every column to its column cent target. *)
Theorem round_matrix_exact X rT cT :
  conforms X (length rT) (length cT) = true →
  cents_in_range X rT cT →
  zsum (cent_targets rT) = zsum (cent_targets cT) →
  Forall2 Z.le (row_sums (floor_cents X)) (cent_targets rT) →
  Forall2 Z.le (col_sums (length cT) (floor_cents X)) (cent_targets cT) →
  ∃ C, round_matrix_exact_cents X rT cT = Some ((λ row : list Z, dollars <$> row) <$> C) ∧
       Forall (Forall (λ c, 0 ≤ c)) C ∧
       row_sums C = cent_targets rT ∧
       col_sums (length cT) C = cent_targets cT.
Proof.
  intros Hconf (Hnn & _) Hsum Hrfit Hcfit.
  destruct (pass_evolves X rT cT Hconf) as (st & k & Hpass & _ & Hev & Hend).
  destruct (floor_cents_shape X _ _ Hconf) as [HlenF HrowsF].
  pose proof (initial_mismatch X rT cT Hconf) as Hmis.
  pose proof Hev as ((HX & Hrows & Hlrd & Hlcd) & Hr & Hc & Hdiff & Hmono & Hrd & Hcd).
  (* the deficits stay non-negative *)
  assert (Forall (λ d, 0 ≤ d) (row_def st)) as Hrd0.
  { apply Forall_total_nonneg. intros a Ha. apply Hrd.
    pose proof (initial_row_link X rT cT a Hconf ltac:(lia)) as Hl. simpl in Hl.
    pose proof (Forall2_le_lookup _ _ a Hrfit) as Hle.
    rewrite length_row_sums, lookup_row_sums in Hle by lia.
    specialize (Hle ltac:(lia)). simpl. lia. }
  assert (Forall (λ d, 0 ≤ d) (col_def st)) as Hcd0.
  { apply Forall_total_nonneg. intros b Hb. apply Hcd.
    pose proof (initial_col_link X rT cT b Hconf ltac:(lia)) as Hl. simpl in Hl.
    pose proof (Forall2_le_lookup _ _ b Hcfit) as Hle.
    rewrite length_col_sums, lookup_col_sums in Hle by lia.
    specialize (Hle ltac:(lia)). simpl. lia. }
  (* hence every deficit ends at zero *)
  assert (Forall (λ d, d = 0) (row_def st) ∧ Forall (λ d, d = 0) (col_def st)) as [Hr0 Hc0].
  { destruct Hend as [[Hzr Hzc]|Hset].
    - split; by apply zsum_zero_all.
    - apply all_zero_from_settled; [done|done|lia|].
      intros i j Hi Hj. apply (Hset i j); lia. }
  exists (Xc st). split_and!.
  - by eapply exact_result.
  - apply Forall_lookup. intros a row Hrow. apply Forall_lookup. intros b c Hcell.
    assert (a < length rT)%nat as Ha by (rewrite <- HX; by eapply lookup_lt_Some).
    destruct (lookup_lt_is_Some_2 X a) as [xrow Hxrow].
    { apply conforms_spec in Hconf as [-> _]. done. }
    assert (length xrow = length cT) as Hxlen.
    { apply conforms_spec in Hconf as [_ HXrows].
      rewrite Forall_lookup in HXrows. by apply (HXrows a). }
    assert (length row = length cT) as Hlen.
    { rewrite Forall_lookup in Hrows. by apply (Hrows a). }
    destruct (lookup_lt_is_Some_2 xrow b) as [x Hx].
    { rewrite Hxlen, <- Hlen. by eapply lookup_lt_Some. }
    destruct (floor_cents_lookup X a b x) as (frow & Hfa & Hfb).
    { by rewrite Hxrow. }
    specialize (Hmono a b). simpl in Hmono.
    rewrite (cell_total _ _ _ _ _ Hfa Hfb), (cell_total _ _ _ _ _ Hrow Hcell) in Hmono.
    rewrite Forall_lookup in Hnn. specialize (Hnn a frow Hfa).
    rewrite Forall_lookup in Hnn. specialize (Hnn b _ Hfb). simpl in Hnn. lia.
  - apply (list_eq_total _ _ (length rT)).
    + by rewrite length_row_sums.
    + by rewrite length_cent_targets.
    + intros a Ha. rewrite lookup_row_sums by lia.
      specialize (Hr a Ha). rewrite initial_row_link in Hr by done.
      rewrite Forall_lookup in Hr0.
      pose proof (Hr0 a _ (list_lookup_lookup_total_lt (row_def st) a ltac:(lia))) as Hz.
      simpl in Hz. lia.
  - apply (list_eq_total _ _ (length cT)).
    + by rewrite length_col_sums.
    + by rewrite length_cent_targets.
    + intros b Hb. rewrite lookup_col_sums by lia.
      specialize (Hc b Hb). rewrite initial_col_link in Hc by done.
      rewrite Forall_lookup in Hc0.
      pose proof (Hc0 b _ (list_lookup_lookup_total_lt (col_def st) b ltac:(lia))) as Hz.
      simpl in Hz. lia.
Qed.
End RoundingExact.

Section RoundingInstances.
Import PrimFloat.
Local Open Scope Z_scope.

(** The specification's example on the 64-bit floats: cent targets
    [5000, 5000] and [6000, 4000]. *)
Example rounding_5000_5000 :
  round_matrix_exact_cents
    [[30.004; 19.996]; [29.996; 20.004]]%float [50; 50]%float [60; 40]%float
  = Some [[30; 20]; [30; 20]]%float ∧
  floor_cents [[30.004; 19.996]; [29.996; 20.004]]%float = [[3000; 1999]; [2999; 2000]] ∧
  cent_targets [50; 50]%float = [5000; 5000] ∧
  cent_targets [60; 40]%float = [6000; 4000].
Proof. split_and!; vm_compute; reflexivity. Qed.

Lemma round_matrix_exact_witness :
  ∃ C, round_matrix_exact_cents
         [[30.004; 19.996]; [29.996; 20.004]]%float [50; 50]%float [60; 40]%float
       = Some ((λ row : list Z, dollars <$> row) <$> C) ∧
       Forall (Forall (λ c, 0 ≤ c)) C ∧
       row_sums C = cent_targets [50; 50]%float ∧
       col_sums (length [60; 40]%float) C = cent_targets [60; 40]%float.
Proof.
  apply (round_matrix_exact
           [[30.004; 19.996]; [29.996; 20.004]]%float [50; 50]%float [60; 40]%float).
  - reflexivity.
  - split_and!; vm_compute; repeat constructor; discriminate.
  - vm_compute. reflexivity.
  - vm_compute. repeat constructor; discriminate.
  - vm_compute. repeat constructor; discriminate.
Defined.

(** A one-cell matrix holding one dollar against targets of fifty cents:
    the cent targets agree with each other, the floor already exceeds
    them, and the pass, which only ever adds, returns the dollar. *)
Lemma round_matrix_exact_overfull :
  (0 <=? 1)%float = true ∧
  cents_in_range [[1%float]] [0.5%float] [0.5%float] ∧
  zsum (cent_targets [0.5%float]) = zsum (cent_targets [0.5%float]) ∧
  round_matrix_pass [[1%float]] [0.5%float] [0.5%float]
    = Some (RState [[100]] [-50] [-50], 1%nat) ∧
  round_matrix_exact_cents [[1%float]] [0.5%float] [0.5%float] = Some [[1%float]] ∧
  row_sums [[100]] = [100] ∧ col_sums 1 [[100]] = [100] ∧
  cent_targets [0.5%float] = [50].
Proof.
  split_and!; try (vm_compute; reflexivity);
    vm_compute; repeat constructor; discriminate.
Qed.

(** Row targets of 10000 cents against column targets of 9900 cents. *)
Lemma round_matrix_infeasible_total_witness :
  ∃ st k,
    round_matrix_pass [[30; 20]; [30; 20]]%Q [50; 50]%Q [60; 39]%Q = Some (st, k) ∧
    round_matrix_exact_cents [[30; 20]; [30; 20]]%Q [50; 50]%Q [60; 39]%Q
      = Some ((λ row : list Z, dollars <$> row) <$> Xc st) ∧
    (k ≤ length [50; 50]%Q * length [60; 39]%Q)%nat ∧
    row_def st = zip_with Z.sub (cent_targets [50; 50]%Q) (row_sums (Xc st)) ∧
    col_def st = zip_with Z.sub (cent_targets [60; 39]%Q)
                   (col_sums (length [60; 39]%Q) (Xc st)) ∧
    zsum (row_def st) - zsum (col_def st)
      = zsum (cent_targets [50; 50]%Q) - zsum (cent_targets [60; 39]%Q).
Proof.
  apply (round_matrix_infeasible_total [[30; 20]; [30; 20]]%Q [50; 50]%Q [60; 39]%Q).
  reflexivity.
Defined.

(** The same shortfall of 100 cents on the 64-bit floats. *)
Example round_matrix_shortfall_100 :
  zsum (cent_targets [50; 50]%float) - zsum (cent_targets [60; 39]%float) = 100 ∧
  round_matrix_pass [[30; 20]; [30; 20]]%float [50; 50]%float [60; 39]%float
  = Some (RState [[3000; 2000]; [3000; 2000]] [0; 0] [0; -100], 4%nat).
Proof. split; vm_compute; reflexivity. Qed.

Lemma round_matrix_never_decreases_witness :
  ∃ c, [[30; 20]; [30; 20]]%float !! 0%nat ≫= (.!! 1%nat) = Some (dollars c) ∧
       0 ≤ floor_int (to_cents 19.996%float) ≤ c.
Proof.
  apply (round_matrix_never_decreases
           [[30.004; 19.996]; [29.996; 20.004]]%float [50; 50]%float [60; 40]%float
           [[30; 20]; [30; 20]]%float 0 1 19.996%float).
  - split_and!; vm_compute; repeat constructor; discriminate.
  - vm_compute. reflexivity.
  - reflexivity.
Defined.

(** A cell of 1e17 dollars: its cents, 1e19, are outside the 64-bit range,
    [astype(int)] gives [-2^63] for the cell and for the targets alike, no
    deficit is left, and the entry returned is [-2^63 / 100], far below
    the floor of the input cell. *)
Lemma round_matrix_overflow_below_floor :
  b64_floor (to_cents 1e17%float) = Some (10 ^ 19) ∧
  floor_int (to_cents 1e17%float) = int64_min ∧
  cent_targets [1e17%float] = [int64_min] ∧
  round_matrix_pass [[1e17%float]] [1e17%float] [1e17%float]
    = Some (RState [[int64_min]] [0] [0], 1%nat) ∧
  round_matrix_exact_cents [[1e17%float]] [1e17%float] [1e17%float]
    = Some [[dollars int64_min]] ∧
  (dollars int64_min <? dollars (10 ^ 19))%float = true ∧
  dollars (10 ^ 19) = 1e17%float.
Proof. split_and!; vm_compute; reflexivity. Qed.
End RoundingInstances.


(** * Signs of binary64 results *)

Section SpecFloatSigns.
Import SpecFloat.

(** Rounding keeps the sign it is given. *)
Lemma binary_round_aux_sign prec emax s m e l :
  sf_sign_is s (binary_round_aux prec emax s m e l).
Proof.
  unfold binary_round_aux.
  destruct (shr_fexp prec emax m e l) as [mrs' e'].
  destruct (shr_fexp prec emax _ e' loc_Exact) as [mrs'' e''].
  destruct (shr_m mrs''); simpl; [done| |done].
  destruct (_ <=? _)%Z; done.
Qed.

Lemma binary_round_sign prec emax s m e :
  sf_sign_is s (binary_round prec emax s m e).
Proof.
  unfold binary_round. destruct (shl_align m e _) as [mz ez].
  apply binary_round_aux_sign.
Qed.

Lemma sign_is_not_neg x : sf_sign_is false x → sf_not_neg x.
Proof. by destruct x. Qed.

Lemma SFmul_not_neg prec emax x y :
  sf_not_neg x → sf_not_neg y → sf_not_neg (SFmul prec emax x y).
Proof.
  destruct x as [sx|sx| |sx mx ex], y as [sy|sy| |sy my ey]; simpl;
    intros Hx Hy; subst; try done.
  apply sign_is_not_neg, binary_round_aux_sign.
Qed.

Lemma SFadd_not_neg prec emax x y :
  sf_not_neg x → sf_not_neg y → sf_not_neg (SFadd prec emax x y).
Proof.
  destruct x as [sx|sx| |sx mx ex], y as [sy|sy| |sy my ey]; simpl;
    intros Hx Hy; subst; try done.
  - by destruct sx, sy.
  - unfold binary_normalize. simpl.
    destruct (shl_align mx ex _) as [a ?], (shl_align my ey _) as [b ?]; simpl.
    apply sign_is_not_neg, binary_round_sign.
Qed.

(** A quotient of two floats that are not negative is not negative, the
    divisor being no zero. *)
Lemma SFdiv_not_neg prec emax x y :
  sf_not_neg x → sf_not_neg y → (∀ s, y ≠ S754_zero s) →
  sf_not_neg (SFdiv prec emax x y).
Proof.
  destruct x as [sx|sx| |sx mx ex], y as [sy|sy| |sy my ey]; simpl;
    intros Hx Hy Hz; subst; try done; try (by destruct (Hz sy)).
  destruct (SFdiv_core_binary _ _ _ _ _ _) as [[mz ez] lz].
  apply sign_is_not_neg, binary_round_aux_sign.
Qed.

(** A product with a zero, and a quotient of a zero, is a zero or a NaN. *)
Lemma SFmul_zero_l prec emax x y :
  sf_zero_or_nan x → sf_zero_or_nan (SFmul prec emax x y).
Proof. destruct x as [sx|sx| |sx mx ex], y as [sy|sy| |sy my ey]; simpl; done. Qed.

Lemma SFmul_zero_r prec emax x y :
  sf_zero_or_nan y → sf_zero_or_nan (SFmul prec emax x y).
Proof. destruct x as [sx|sx| |sx mx ex], y as [sy|sy| |sy my ey]; simpl; done. Qed.

Lemma SFdiv_zero_l prec emax x y :
  sf_zero_or_nan x → sf_zero_or_nan (SFdiv prec emax x y).
Proof. destruct x as [sx|sx| |sx mx ex], y as [sy|sy| |sy my ey]; simpl; done. Qed.

Lemma SFadd_zero prec emax sx sy :
  ∃ s, SFadd prec emax (S754_zero sx) (S754_zero sy) = S754_zero s.
Proof. destruct sx, sy; simpl; by eexists. Qed.

Lemma SFcompare_refl_finite s m e :
  SFcompare (S754_finite s m e) (S754_finite s m e) = Some Eq.
Proof.
  simpl. rewrite Z.compare_refl, Pos.compare_cont_refl. by destruct s.
Qed.
End SpecFloatSigns.

Section Binary64Signs.
Import PrimFloat SpecFloat FloatOps.
Implicit Types (x y : float).

Lemma b64_zero_spec x : b64_zero x ↔ ∃ s, Prim2SF x = S754_zero s.
Proof.
  unfold b64_zero. rewrite FloatAxioms.eqb_spec.
  change (Prim2SF 0%float) with (S754_zero false). unfold SFeqb.
  destruct (Prim2SF x) as [s|s| |s m e]; simpl.
  - split; [by eexists|done].
  - split; [by destruct s|by intros [? ?]].
  - split; [done|by intros [? ?]].
  - split; [by destruct s|by intros [? ?]].
Qed.

Lemma b64_nan_spec x : b64_nan x ↔ Prim2SF x = S754_nan.
Proof.
  unfold b64_nan. rewrite FloatAxioms.eqb_spec. unfold SFeqb.
  destruct (Prim2SF x) as [s|s| |s m e] eqn:Hx.
  - simpl. split; done.
  - simpl. by destruct s.
  - simpl. split; done.
  - rewrite SFcompare_refl_finite. split; done.
Qed.

Lemma b64_nonneg_spec x :
  b64_nonneg x ↔ sf_not_neg (Prim2SF x) ∧ Prim2SF x ≠ S754_nan.
Proof.
  unfold b64_nonneg. rewrite FloatAxioms.leb_spec.
  change (Prim2SF 0%float) with (S754_zero false). unfold SFleb.
  destruct (Prim2SF x) as [s|s| |s m e]; simpl.
  - split; [done|done].
  - destruct s; split; try done. by intros [? _].
  - split; [done|]. by intros [_ ?].
  - destruct s; split; try done. by intros [? _].
Qed.

(** Not negative: at least zero, or a NaN. *)
Lemma not_neg_spec x : sf_not_neg (Prim2SF x) ↔ b64_nonneg x ∨ b64_nan x.
Proof.
  rewrite b64_nonneg_spec, b64_nan_spec.
  destruct (Prim2SF x) as [s|s| |s m e]; simpl; split; try tauto;
    try (intros; left; by split); try (by intros [[? _]|?]).
Qed.

Lemma zero_or_nan_spec x : sf_zero_or_nan (Prim2SF x) ↔ b64_zero x ∨ b64_nan x.
Proof.
  rewrite b64_zero_spec, b64_nan_spec.
  destruct (Prim2SF x) as [s|s| |s m e]; simpl; split; try tauto;
    try (intros; left; by eexists); try (by intros [[? ?]|?]).
Qed.

Lemma nonneg_not_neg x : b64_nonneg x → sf_not_neg (Prim2SF x).
Proof. intros Hx. apply not_neg_spec. by left. Qed.

Lemma add_not_neg x y :
  sf_not_neg (Prim2SF x) → sf_not_neg (Prim2SF y) → sf_not_neg (Prim2SF (x + y)).
Proof. rewrite FloatAxioms.add_spec. apply SFadd_not_neg. Qed.

Lemma mul_not_neg x y :
  sf_not_neg (Prim2SF x) → sf_not_neg (Prim2SF y) → sf_not_neg (Prim2SF (x * y)).
Proof. rewrite FloatAxioms.mul_spec. apply SFmul_not_neg. Qed.

Lemma div_not_neg x y :
  sf_not_neg (Prim2SF x) → sf_not_neg (Prim2SF y) → (y =? 0)%float = false →
  sf_not_neg (Prim2SF (x / y)).
Proof.
  intros Hx Hy Hz. rewrite FloatAxioms.div_spec. apply SFdiv_not_neg; [done|done|].
  intros s Hs. assert (b64_zero y) as Hy0 by (apply b64_zero_spec; by eexists).
  unfold b64_zero in Hy0. congruence.
Qed.

Lemma mul_zero_l x y : sf_zero_or_nan (Prim2SF x) → sf_zero_or_nan (Prim2SF (x * y)).
Proof. rewrite FloatAxioms.mul_spec. apply SFmul_zero_l. Qed.

Lemma mul_zero_r x y : sf_zero_or_nan (Prim2SF y) → sf_zero_or_nan (Prim2SF (x * y)).
Proof. rewrite FloatAxioms.mul_spec. apply SFmul_zero_r. Qed.

Lemma div_zero_l x y : sf_zero_or_nan (Prim2SF x) → sf_zero_or_nan (Prim2SF (x / y)).
Proof. rewrite FloatAxioms.div_spec. apply SFdiv_zero_l. Qed.

(** A sum of zeros is a zero, which is not above zero. *)
Lemma add_zero x y : b64_zero x → b64_zero y → b64_zero (x + y).
Proof.
  rewrite !b64_zero_spec. intros [sx Hx] [sy Hy].
  rewrite FloatAxioms.add_spec, Hx, Hy. apply SFadd_zero.
Qed.

Lemma zero_le_zero x : b64_zero x → (x <=? 0)%float = true.
Proof.
  intros [s Hx]%b64_zero_spec. rewrite FloatAxioms.leb_spec, Hx. done.
Qed.

(** A float above zero is not at most zero. *)
Lemma pos_not_le_zero x : (0 <? x)%float = true → (x <=? 0)%float = false.
Proof.
  rewrite FloatAxioms.ltb_spec, FloatAxioms.leb_spec.
  change (Prim2SF 0%float) with (S754_zero false). unfold SFltb, SFleb.
  destruct (Prim2SF x) as [s|s| |s m e]; simpl; try done; by destruct s.
Qed.

Lemma fsum_zeros (v : list float) : Forall b64_zero v → b64_zero (fsum v).
Proof.
  induction 1 as [|x v Hx _ IH]; simpl.
  - done.
  - by apply add_zero.
Qed.
End Binary64Signs.


(** * Properties of the apportionment primitive *)

Section ArgsortInstance.
Context {F : Type} {CO : CentOps F}.
Variable key : nat → F.

Lemma insert_asc_perm i l : insert_asc key i l ≡ₚ i :: l.
Proof.
  induction l as [|j l IH]; simpl; [done|].
  destruct (fle (key i) (key j)); [done|].
  rewrite IH. apply Permutation_swap.
Qed.

Lemma foldr_insert_asc_perm l : foldr (insert_asc key) [] l ≡ₚ l.
Proof. induction l as [|i l IH]; simpl; [done|]. by rewrite insert_asc_perm, IH. Qed.
End ArgsortInstance.

(** The insertion sort of the indices as an [np.argsort], over any carrier. *)
#[export] Instance stable_argsort_instance {F : Type} {FO : FloatOps F} {CO : CentOps F}
  : Argsort F :=
  {| argsort := stable_argsort;
     argsort_perm := λ l, foldr_insert_asc_perm _ _ |}.

Section SetOnes.
Local Open Scope Z_scope.

Lemma zsum_insert (a : list Z) (i : nat) (x y : Z) :
  a !! i = Some x → zsum (<[i := y]> a) = zsum a + (y - x).
Proof. intros Hi. rewrite list_insert_alter. by rewrite (zsum_alter _ _ _ _ Hi). Qed.

Lemma zsum_replicate_0 n : zsum (replicate n 0) = 0.
Proof. induction n; simpl; lia. Qed.

Lemma foldl_ones_spec (idxs : list nat) : ∀ a : list Z,
  NoDup idxs → Forall (λ i, a !! i = Some 0) idxs →
  Forall (λ x, x = 0 ∨ x = 1) a →
  let a' := foldl (λ a i, <[i := 1]> a) a idxs in
  length a' = length a ∧ zsum a' = zsum a + Z.of_nat (length idxs) ∧
  Forall (λ x, x = 0 ∨ x = 1) a'.
Proof.
  induction idxs as [|i idxs IH]; intros a Hnd Hz Hbits; simpl.
  - split_and!; [done|lia|done].
  - apply NoDup_cons in Hnd as [Hni Hnd]. apply Forall_cons in Hz as [Hi Hz].
    destruct (IH (<[i := 1]> a)) as (Hlen & Hsum & Hb); [done| |by apply Forall_insert; [|right]|].
    + apply Forall_forall. intros j Hj. rewrite Forall_forall in Hz.
      rewrite list_lookup_insert_ne; [by apply Hz|]. intros ->. done.
    + split_and!; [by rewrite Hlen, length_insert| |done].
      rewrite Hsum, (zsum_insert _ _ _ _ Hi). lia.
Qed.

Lemma set_ones_spec n idxs :
  NoDup idxs → Forall (λ i, (i < n)%nat) idxs →
  length (set_ones n idxs) = n ∧ zsum (set_ones n idxs) = Z.of_nat (length idxs) ∧
  Forall (λ x, x = 0 ∨ x = 1) (set_ones n idxs).
Proof.
  intros Hnd Hlt. unfold set_ones.
  destruct (foldl_ones_spec idxs (replicate n 0)) as (Hlen & Hsum & Hb); [done| | |].
  - eapply Forall_impl; [exact Hlt|]. intros i Hi. simpl in *.
    by apply lookup_replicate_2.
  - apply Forall_replicate. by left.
  - rewrite length_replicate in Hlen. rewrite zsum_replicate_0 in Hsum.
    split_and!; [done|lia|done].
Qed.
End SetOnes.

Section WrapFacts.
Local Open Scope Z_scope.

(** Inside the range the 64-bit result is the integer itself. *)
Lemma wrap64_small z : int64_min ≤ z ≤ int64_max → wrap64 z = z.
Proof.
  unfold wrap64, int64_min, int64_max. intros Hz.
  change (2 ^ 64) with 18446744073709551616.
  change (2 ^ 63) with 9223372036854775808 in *.
  rewrite Z.mod_small; lia.
Qed.

Lemma cast64_small z : int64_min ≤ z ≤ int64_max → cast64 z = z.
Proof.
  unfold cast64. intros [Hl Hu].
  apply Z.leb_le in Hl, Hu. by rewrite Hl, Hu.
Qed.

Lemma int64_max_pos : 0 < int64_max.
Proof. done. Qed.

(** An entry of a list of non-negative integers is at most their sum. *)
Lemma lookup_le_zsum (l : list Z) (i : nat) x :
  Forall (λ y, 0 ≤ y) l → l !! i = Some x → 0 ≤ x ≤ zsum l.
Proof.
  intros Hnn. revert i. induction Hnn as [|y l Hy Hl IH]; intros i Hi; [done|].
  pose proof (zsum_nonneg l Hl) as Hs. destruct i as [|i]; simpl in *.
  - injection Hi as ->. lia.
  - specialize (IH i Hi). lia.
Qed.
End WrapFacts.

Section Apportion.
Context {F : Type} {FO : FloatOps F} {CO : CentOps F} {AS : Argsort F}.
Implicit Types (tivs : list F) (T : Z).
Local Open Scope Z_scope.

Lemma length_weights tivs : length (weights tivs) = length tivs.
Proof.
  unfold weights. destruct (fle _ _).
  - by rewrite length_replicate.
  - by rewrite length_fmap.
Qed.

Lemma length_raw_shares T tivs : length (raw_shares T tivs) = length tivs.
Proof. unfold raw_shares. by rewrite length_fmap, length_weights. Qed.

Lemma length_floor_shares T tivs : length (floor_shares T tivs) = length tivs.
Proof. unfold floor_shares. by rewrite length_fmap, length_raw_shares. Qed.

Lemma argsort_NoDup (l : list F) : NoDup (argsort l).
Proof. rewrite argsort_perm. apply NoDup_seq. Qed.

Lemma argsort_in_range (l : list F) : Forall (λ i, (i < length l)%nat) (argsort l).
Proof.
  rewrite argsort_perm. apply Forall_forall. intros i Hi.
  apply elem_of_seq in Hi. lia.
Qed.

Lemma length_argsort (l : list F) : length (argsort l) = length l.
Proof. by rewrite argsort_perm, length_seq. Qed.

(** The cents added to the floors: zeros and ones, as many ones as cents are
    missing, and no more than there are entities. *)
Lemma add_spec (n : nat) (remain : Z) (order : list nat) :
  NoDup order → Forall (λ i, (i < n)%nat) order → length order = n →
  let add := if bool_decide (0 < remain)
             then set_ones n (take (Z.to_nat (Z.min remain (Z.of_nat n))) order)
             else replicate n 0 in
  length add = n ∧ Forall (λ x, x = 0 ∨ x = 1) add ∧
  zsum add = Z.max 0 (Z.min remain (Z.of_nat n)).
Proof.
  intros Hnd Hin Hlen add. unfold add. case_bool_decide as Hpos.
  - destruct (set_ones_spec n (take (Z.to_nat (Z.min remain (Z.of_nat n))) order))
      as (Hl & Hs & Hb).
    + apply (sublist_NoDup _ order); [done|apply sublist_take].
    + by apply Forall_take.
    + split_and!; [done|done|]. rewrite Hs, length_take, Hlen. lia.
  - rewrite length_replicate, zsum_replicate_0. split_and!; [done| |lia].
    apply Forall_replicate. by left.
Qed.

(** What the array part returns has one entry per entity. *)
Lemma length_apportion T tivs cents :
  apportion T tivs = Some cents → length cents = length tivs.
Proof.
  unfold apportion. cbv zeta. case_bool_decide; [|done]. intros [= <-].
  rewrite length_zip_with, length_floor_shares.
  match goal with |- context [zip_with _ (raw_shares T tivs) ?fl] =>
    set (order := argsort (fneg <$> zip_with (λ r f, fsub r (of_int f)) (raw_shares T tivs) fl))
  end.
  assert (length order = length tivs) as Hlo.
  { unfold order. rewrite length_argsort, length_fmap, length_zip_with,
      length_raw_shares, length_floor_shares. lia. }
  destruct (add_spec (length tivs) (T - wrap64 (zsum (floor_shares T tivs))) order)
    as (Hl & _); [apply argsort_NoDup| |done|].
  - rewrite <- Hlo. unfold order.
    rewrite length_argsort. apply argsort_in_range.
  - cbv zeta in Hl. rewrite Hl. lia.
Qed.

(** Within the range, the array part returns exactly when the floors fall
    short of the cent total by between 0 and [n] cents; the cents it returns
    add up to the cent total, each the floor of its share or one more. *)
Lemma apportion_spec T tivs :
  shares_in_range T tivs →
  (0 ≤ T - zsum (floor_shares T tivs) ≤ Z.of_nat (length tivs) →
   is_Some (apportion T tivs)) ∧
  (∀ cents, apportion T tivs = Some cents →
     0 ≤ T - zsum (floor_shares T tivs) ≤ Z.of_nat (length tivs) ∧
     length cents = length tivs ∧ zsum cents = T ∧
     Forall2 (λ f c, c = f ∨ c = f + 1) (floor_shares T tivs) cents).
Proof.
  intros [Hnn Hmax]. unfold apportion.
  set (fl := floor_shares T tivs) in *.
  set (rema := zip_with _ (raw_shares T tivs) fl).
  set (order := argsort (fneg <$> rema)).
  pose proof (zsum_nonneg fl Hnn) as Hsum0.
  pose proof int64_max_pos as Hmp.
  assert (int64_min ≤ 0) as Hmin by done.
  assert (length fl = length tivs) as Hlfl by apply length_floor_shares.
  assert (length rema = length tivs) as Hlrema.
  { unfold rema. rewrite length_zip_with_l_eq; [apply length_raw_shares|].
    by rewrite length_raw_shares. }
  rewrite (wrap64_small (zsum fl)) by lia.
  set (remain := T - zsum fl).
  destruct (add_spec (length tivs) remain order) as (Hladd & Hbits & Hsadd).
  { apply argsort_NoDup. }
  { pose proof (argsort_in_range (fneg <$> rema)) as Hr.
    by rewrite length_fmap, Hlrema in Hr. }
  { unfold order. by rewrite length_argsort, length_fmap. }
  set (add := if bool_decide (0 < remain) then _ else _) in *.
  assert (zip_with (λ f a, wrap64 (f + a)) fl add = zip_with Z.add fl add) as ->.
  { apply list_eq. intros i. rewrite !lookup_zip_with.
    destruct (fl !! i) as [f|] eqn:Hf; [|done]. simpl.
    destruct (add !! i) as [a|] eqn:Ha; [|done]. simpl. f_equal.
    pose proof (lookup_le_zsum fl i f Hnn Hf) as Hfs.
    rewrite Forall_lookup in Hbits. specialize (Hbits i a Ha). simpl in Hbits.
    assert (0 < length tivs)%nat.
    { rewrite <- Hlfl. apply lookup_lt_Some in Hf. lia. }
    apply wrap64_small. lia. }
  assert (zsum (zip_with Z.add fl add) = zsum fl + zsum add) as Hcents.
  { apply zsum_zip_add. congruence. }
  rewrite (wrap64_small (zsum (zip_with Z.add fl add))) by lia.
  rewrite Hcents, Hsadd. split.
  - intros Hrem. rewrite bool_decide_eq_true_2; [done|]. lia.
  - intros cents Hres. case_bool_decide as Hok; [|done]. injection Hres as <-.
    split_and!; [lia|lia| |lia|].
    + rewrite length_zip_with_l_eq; congruence.
    + apply Forall2_same_length_lookup. split.
      * rewrite length_zip_with_l_eq; congruence.
      * intros i f c Hf Hc. apply lookup_zip_with_Some in Hc as (f' & a & -> & Hf' & Ha).
        rewrite Hf in Hf'. injection Hf' as <-.
        rewrite Forall_lookup in Hbits. specialize (Hbits i a Ha). simpl in Hbits. lia.
Qed.
End Apportion.

Section DictFacts.
Context {V : Type}.
Implicit Types (m : gmap string V) (kvs : list (string * V)).

Lemma foldl_insert_notin kvs : ∀ m l,
  l ∉ kvs.*1 → foldl (λ m lv, <[lv.1 := lv.2]> m) m kvs !! l = m !! l.
Proof.
  induction kvs as [|[k y] kvs IH]; intros m l Hl; simpl; [done|].
  rewrite fmap_cons, not_elem_of_cons in Hl. destruct Hl as [Hne Hl]. simpl in Hne.
  rewrite IH by done. by rewrite lookup_insert_ne.
Qed.

Lemma foldl_insert_lookup kvs : ∀ m l x,
  NoDup kvs.*1 → (l, x) ∈ kvs → foldl (λ m lv, <[lv.1 := lv.2]> m) m kvs !! l = Some x.
Proof.
  induction kvs as [|[k y] kvs IH]; intros m l x Hnd Hin; simpl.
  - by apply elem_of_nil in Hin.
  - rewrite fmap_cons in Hnd. apply NoDup_cons in Hnd as [Hk Hnd]. simpl in Hk.
    apply elem_of_cons in Hin as [Heq|Hin].
    + simplify_eq. rewrite foldl_insert_notin by done. by rewrite lookup_insert_eq.
    + by apply IH.
Qed.

Lemma to_dict_lookup (locs : list string) (v : list V) (i : nat) l x :
  NoDup locs → length v = length locs →
  locs !! i = Some l → v !! i = Some x → to_dict locs v !! l = Some x.
Proof.
  intros Hnd Hlen Hl Hx. unfold to_dict. apply foldl_insert_lookup.
  - rewrite fst_zip by lia. done.
  - apply list_elem_of_lookup. exists i.
    apply lookup_zip_with_Some. by exists l, x.
Qed.

Lemma to_dict_lookup_None (locs : list string) (v : list V) l :
  l ∉ locs → to_dict locs v !! l = None.
Proof.
  intros Hl. unfold to_dict. rewrite foldl_insert_notin; [apply lookup_empty|].
  intros Hin. apply Hl. apply list_elem_of_fmap in Hin as ([k y] & -> & Hin).
  apply elem_of_zip_l in Hin. done.
Qed.
End DictFacts.

Section AllocateTheorems.
Context {F : Type} {FO : FloatOps F} {CO : CentOps F} {AS : Argsort F}.
Implicit Types (total : F) (m : gmap string F) (locs : list string).
Local Open Scope Z_scope.

Lemma length_tivs_of m locs : length (tivs_of m locs) = length locs.
Proof. unfold tivs_of. by rewrite length_fmap. Qed.

Lemma tivs_of_nonempty m locs : locs ≠ [] → tivs_of m locs ≠ [].
Proof. by destruct locs. Qed.

(** How the returned dictionary relates to a vector of cents: the entry of
    the [i]-th location is the [i]-th amount, in dollars. *)
Lemma to_dict_dollars locs (cents : list Z) :
  NoDup locs → length cents = length locs →
  ∀ (i : nat) l, locs !! i = Some l →
    ∃ c, cents !! i = Some c ∧
         to_dict locs (dollars <$> cents) !! l = Some (dollars c).
Proof.
  intros Hnd Hlen i l Hl.
  destruct (lookup_lt_is_Some_2 cents i) as [c Hc].
  { rewrite Hlen. by eapply lookup_lt_Some. }
  exists c. split; [done|].
  apply (to_dict_lookup _ _ i); [done|by rewrite length_fmap|done|].
  by rewrite list_lookup_fmap, Hc.
Qed.

(** The function on a positive premium, in terms of its array part. *)
Lemma allocate_cents_for_coverage_pos total m locs T :
  locs ≠ [] → fle total fzero = false → py_round (to_cents total) = Some T →
  allocate_cents_for_coverage total m locs
  = cents ← apportion T (tivs_of m locs); Some (to_dict locs (dollars <$> cents)).
Proof.
  intros Hne Hpos HT. unfold allocate_cents_for_coverage, allocate_cents.
  rewrite bool_decide_eq_false_2 by (by destruct locs).
  rewrite Hpos, HT. done.
Qed.

(** C2, as amended.  Over [n >= 1] distinct entities, a total that is not
    above zero gives every entity 0.0.  For any other total, let [T] be
    [int(round(total * 100))] and [floor] the 64-bit floors of the shares
    [weights * T] as the floats compute them.  Within the range (no floor
    negative, the floors and [n] adding up to less than [2^63]) the
    function returns exactly when the floors fall short of [T] by between 0
    and [n] cents, its assertion failing otherwise; and what it returns has
    one amount per entity, [c / 100.0] for cents [c] that add up to [T],
    none negative, each the floor of its share or one cent more. *)
Theorem allocate_cents_for_coverage_apportions total m locs :
  locs ≠ [] → NoDup locs →
  (fle total fzero = true →
   allocate_cents_for_coverage total m locs
   = Some (to_dict locs (replicate (length locs) fzero))) ∧
  (fle total fzero = false →
   ∀ T, py_round (to_cents total) = Some T →
        shares_in_range T (tivs_of m locs) →
     (is_Some (allocate_cents_for_coverage total m locs) ↔
      0 ≤ T - zsum (floor_shares T (tivs_of m locs)) ≤ Z.of_nat (length locs)) ∧
     ∀ result, allocate_cents_for_coverage total m locs = Some result →
       ∃ cents,
         length cents = length locs ∧
         (∀ (i : nat) l, locs !! i = Some l →
            ∃ c, cents !! i = Some c ∧ result !! l = Some (dollars c)) ∧
         zsum cents = T ∧
         Forall (λ c, 0 ≤ c) cents ∧
         Forall2 (λ f c, c = f ∨ c = f + 1) (floor_shares T (tivs_of m locs)) cents).
Proof.
  intros Hne Hnd. split.
  - intros Hle. unfold allocate_cents_for_coverage.
    rewrite bool_decide_eq_false_2 by (by destruct locs). by rewrite Hle.
  - intros Hpos T HT Hrange.
    rewrite (allocate_cents_for_coverage_pos total m locs T) by done.
    destruct (apportion_spec T (tivs_of m locs) Hrange) as [Htotal Hres].
    rewrite length_tivs_of in Htotal, Hres. split.
    + split.
      * intros [result Hr]. destruct (apportion T (tivs_of m locs)) as [cents|] eqn:Hap; [|done].
        by destruct (Hres cents eq_refl) as [? _].
      * intros Hrem. destruct (Htotal Hrem) as [cents ->]. by eexists.
    + intros result Hr.
      destruct (apportion T (tivs_of m locs)) as [cents|] eqn:Hap; [|done].
      simpl in Hr. injection Hr as <-.
      destruct (Hres cents eq_refl) as (_ & Hlen & Hsum & Hfl).
      exists cents. split_and!; [done|by apply to_dict_dollars|done| |done].
      destruct Hrange as [Hnn _]. apply Forall_lookup. intros i c Hc.
      destruct (Forall2_lookup_r _ _ _ _ _ Hfl Hc) as (f & Hf & Hfc).
      rewrite Forall_lookup in Hnn. specialize (Hnn i f Hf). simpl in Hnn. lia.
Qed.

(** With a weight total that is not above zero every entity has the weight
    [1 / n], and so the same share and the same floor. *)
Lemma weights_uniform (tivs : list F) :
  fle (fsum tivs) fzero = true →
  weights tivs = replicate (length tivs) (fdiv fone (of_int (Z.of_nat (length tivs)))).
Proof. intros Hle. unfold weights. by rewrite Hle. Qed.

Lemma floor_shares_uniform T (tivs : list F) :
  fle (fsum tivs) fzero = true →
  floor_shares T tivs
  = replicate (length tivs)
      (floor_int (fmul (fdiv fone (of_int (Z.of_nat (length tivs)))) (of_int T))).
Proof.
  intros Hle. unfold floor_shares, raw_shares. rewrite (weights_uniform _ Hle).
  by rewrite !fmap_replicate.
Qed.

Lemma zsum_replicate (n : nat) (q : Z) : zsum (replicate n q) = Z.of_nat n * q.
Proof. induction n as [|n IH]; [done|]. cbn [replicate zsum foldr] in *. unfold zsum in IH. lia. Qed.
End AllocateTheorems.

Section ZeroWeights.
Import PrimFloat.
Context {AS : Argsort float}.
Implicit Types (total : float) (m : gmap string float) (locs : list string).
Local Open Scope Z_scope.

(** On the 64-bit floats, weights that are all zero have a total that is
    not above zero. *)
Lemma zero_weights_total (tivs : list float) :
  Forall b64_zero tivs → fle (fsum tivs) fzero = true.
Proof. intros Hz. by apply zero_le_zero, fsum_zeros. Qed.

(** C6.  A total above zero over [n >= 1] distinct entities whose weights
    are all zero is apportioned with the uniform weights [1 / n]: every
    entity has the same share of the cent total [T = round(total * 100)]
    and the same floor [q] of it, and, [q] not being negative and [n]
    times [q + 1] staying below [2^63], the function returns exactly when
    [0 <= T - n * q <= n], giving each entity [q] cents or one more, [T] in
    all.  In particular 9.00 over three zero-weight entities gives each of
    them 300 cents, 900 in all, for every [np.argsort]. *)
Theorem allocate_zero_weights_uniform total m locs :
  (0 <? total)%float = true → locs ≠ [] → NoDup locs →
  Forall b64_zero (tivs_of m locs) →
  weights (tivs_of m locs)
    = replicate (length locs) (1 / of_int (Z.of_nat (length locs)))%float ∧
  (∀ T, py_round (to_cents total) = Some T →
     floor_shares T (tivs_of m locs)
       = replicate (length locs)
           (floor_int (1 / of_int (Z.of_nat (length locs)) * of_int T)%float) ∧
     (0 ≤ floor_int (1 / of_int (Z.of_nat (length locs)) * of_int T)%float →
      Z.of_nat (length locs)
        * (floor_int (1 / of_int (Z.of_nat (length locs)) * of_int T)%float + 1)
        ≤ int64_max →
      (is_Some (allocate_cents_for_coverage total m locs) ↔
       0 ≤ T - Z.of_nat (length locs)
                * floor_int (1 / of_int (Z.of_nat (length locs)) * of_int T)%float
         ≤ Z.of_nat (length locs)) ∧
      ∀ result, allocate_cents_for_coverage total m locs = Some result →
        ∃ cents,
          length cents = length locs ∧
          (∀ (i : nat) l, locs !! i = Some l →
             ∃ c, cents !! i = Some c ∧ result !! l = Some (dollars c)) ∧
          zsum cents = T ∧
          Forall (λ c,
                    c = floor_int (1 / of_int (Z.of_nat (length locs)) * of_int T)%float ∨
                    c = floor_int (1 / of_int (Z.of_nat (length locs)) * of_int T)%float + 1)
                 cents)) ∧
  (allocate_cents_for_coverage 9%float ∅ ["L1"; "L2"; "L3"]
     = Some (to_dict ["L1"; "L2"; "L3"] [dollars 300; dollars 300; dollars 300]) ∧
   py_round (to_cents 9%float) = Some 900 ∧
   floor_shares 900 (tivs_of (∅ : gmap string float) ["L1"; "L2"; "L3"]) = [300; 300; 300] ∧
   zsum [300; 300; 300] = 900 ∧ dollars 300 = 3%float).
Proof.
  intros Hpos Hne Hnd Hz.
  pose proof (zero_weights_total _ Hz) as Hle.
  pose proof (weights_uniform _ Hle) as Hw. rewrite length_tivs_of in Hw.
  split_and!; [exact Hw| |vm_compute; reflexivity|reflexivity|
               vm_compute; reflexivity|reflexivity|reflexivity].
  intros T HT.
  pose proof (floor_shares_uniform T _ Hle) as Hfl. rewrite length_tivs_of in Hfl.
  change (@of_int float b64_cents) with b64_of_int in *.
  change (@fdiv float b64_ops) with div in *.
  change (@fmul float b64_ops) with mul in *.
  change (@fone float b64_ops) with 1%float in *.
  set (q := floor_int _) in *.
  split; [exact Hfl|]. intros Hq Hmax.
  assert (shares_in_range T (tivs_of m locs)) as Hrange.
  { unfold shares_in_range. rewrite Hfl, zsum_replicate, length_tivs_of. split.
    - by apply Forall_replicate.
    - lia. }
  rewrite (allocate_cents_for_coverage_pos total m locs T); [|done| |done].
  2: { by apply pos_not_le_zero. }
  destruct (apportion_spec T (tivs_of m locs) Hrange) as [Htotal Hres].
  rewrite Hfl, zsum_replicate, length_tivs_of in Htotal, Hres. split.
  - split.
    + intros [result Hr]. destruct (apportion T (tivs_of m locs)) as [cents|] eqn:Hap; [|done].
      by destruct (Hres cents eq_refl) as [? _].
    + intros Hrem. destruct (Htotal Hrem) as [cents ->]. by eexists.
  - intros result Hr.
    destruct (apportion T (tivs_of m locs)) as [cents|] eqn:Hap; [|done].
    simpl in Hr. injection Hr as <-.
    destruct (Hres cents eq_refl) as (_ & Hlen & Hsum & Hfc).
    exists cents. split_and!; [done|by apply to_dict_dollars|done|].
    apply Forall_lookup. intros i c Hc.
    destruct (Forall2_lookup_r _ _ _ _ _ Hfc Hc) as (f & Hf & Hfcc).
    apply lookup_replicate in Hf as [-> _]. done.
Qed.
End ZeroWeights.

Section AllocateInstances.
Import PrimFloat.
Local Open Scope Z_scope.

(** The specification's example on the 64-bit floats: 10.00 over three
    equal weights. *)
Example allocate_10_over_3 :
  allocate_cents 10%float [1; 1; 1]%float = Some [334; 333; 333] ∧
  floor_shares 1000 [1; 1; 1]%float = [333; 333; 333].
Proof. split; vm_compute; reflexivity. Qed.

(** A premium of 1e18: the shares of its 1e20 cents are outside the 64-bit
    range, the floors are [-2^63] and the assertion fails. *)
Example allocate_raises_at_1e18 :
  py_round (to_cents 1e18%float) = Some (10 ^ 20) ∧
  floor_shares (10 ^ 20) [1; 1]%float = [int64_min; int64_min] ∧
  allocate_cents 1e18%float [1; 1]%float = None.
Proof. split_and!; vm_compute; reflexivity. Qed.

(** A cent total of [2^60] over three equal weights: the floors are inside
    the range, and the rounding of [1/3] leaves them 64 cents short of the
    total, more than the three cents that can be added; the assertion
    fails. *)
Example allocate_raises_on_rounded_shares :
  shares_in_range (2 ^ 60) [1; 1; 1]%float ∧
  2 ^ 60 - zsum (floor_shares (2 ^ 60) [1; 1; 1]%float) = 64 ∧
  apportion (2 ^ 60) [1; 1; 1]%float = None.
Proof.
  split_and!; try (vm_compute; reflexivity).
  vm_compute. repeat constructor; discriminate.
Qed.

Lemma allocate_cents_for_coverage_apportions_witness :
  (is_Some (allocate_cents_for_coverage 10%float
              {["A" := 1%float; "B" := 1%float; "C" := 1%float]} ["A"; "B"; "C"]) ↔
   0 ≤ 1000 - zsum (floor_shares 1000
                      (tivs_of {["A" := 1%float; "B" := 1%float; "C" := 1%float]}
                               ["A"; "B"; "C"]))
     ≤ Z.of_nat (length ["A"; "B"; "C"])) ∧
  ∀ result,
    allocate_cents_for_coverage 10%float
      {["A" := 1%float; "B" := 1%float; "C" := 1%float]} ["A"; "B"; "C"] = Some result →
    ∃ cents,
      length cents = length ["A"; "B"; "C"] ∧
      (∀ (i : nat) l, ["A"; "B"; "C"] !! i = Some l →
         ∃ c, cents !! i = Some c ∧ result !! l = Some (dollars c)) ∧
      zsum cents = 1000 ∧
      Forall (λ c, 0 ≤ c) cents ∧
      Forall2 (λ f c, c = f ∨ c = f + 1)
        (floor_shares 1000
           (tivs_of {["A" := 1%float; "B" := 1%float; "C" := 1%float]} ["A"; "B"; "C"]))
        cents.
Proof.
  refine (proj2 (allocate_cents_for_coverage_apportions 10%float
                   {["A" := 1%float; "B" := 1%float; "C" := 1%float]} ["A"; "B"; "C"] _ _)
                _ 1000 _ _).
  - discriminate.
  - apply (bool_decide_unpack _). vm_compute. exact I.
  - reflexivity.
  - vm_compute. reflexivity.
  - split; vm_compute; [repeat constructor|]; discriminate.
Defined.

(** Weights 78 and eight times 9 with a total of 0.154: the cent total is
    [round(15.4) = 15], the first entity's share of 15.4 cents is 8.008, and
    the first entity receives 7 cents, being the floor of its share 7.8 of
    the rounded 15 cents. *)
Lemma allocate_share_of_unrounded_total_fails :
  (0 <? 0.154)%float = true ∧
  NoDup ["L1"; "L2"; "L3"; "L4"; "L5"; "L6"; "L7"; "L8"; "L9"] ∧
  tivs_of (list_to_map [("L1", 78); ("L2", 9); ("L3", 9); ("L4", 9); ("L5", 9);
                        ("L6", 9); ("L7", 9); ("L8", 9); ("L9", 9)]%float)
          ["L1"; "L2"; "L3"; "L4"; "L5"; "L6"; "L7"; "L8"; "L9"]
    = [78; 9; 9; 9; 9; 9; 9; 9; 9]%float ∧
  Forall b64_nonneg [78; 9; 9; 9; 9; 9; 9; 9; 9]%float ∧
  py_round (to_cents 0.154%float) = Some 15 ∧
  floor_shares 15 [78; 9; 9; 9; 9; 9; 9; 9; 9]%float = [7; 0; 0; 0; 0; 0; 0; 0; 0] ∧
  allocate_cents 0.154%float [78; 9; 9; 9; 9; 9; 9; 9; 9]%float
    = Some [7; 1; 1; 1; 1; 1; 1; 1; 1] ∧
  allocate_cents_for_coverage 0.154%float
    (list_to_map [("L1", 78); ("L2", 9); ("L3", 9); ("L4", 9); ("L5", 9);
                  ("L6", 9); ("L7", 9); ("L8", 9); ("L9", 9)]%float)
    ["L1"; "L2"; "L3"; "L4"; "L5"; "L6"; "L7"; "L8"; "L9"] ≫= (.!! "L1")
    = Some (dollars 7) ∧
  floor_int (78 * to_cents 0.154 / fsum [78; 9; 9; 9; 9; 9; 9; 9; 9])%float = 8 ∧
  7 ≠ 8 ∧ 7 ≠ 8 + 1.
Proof.
  split_and!; try (vm_compute; reflexivity); try lia.
  - apply (bool_decide_unpack _). vm_compute. exact I.
  - repeat constructor.
Qed.

Lemma allocate_zero_weights_uniform_witness :
  weights (tivs_of (∅ : gmap string float) ["L1"; "L2"; "L3"])
    = replicate (length ["L1"; "L2"; "L3"])
        (1 / of_int (Z.of_nat (length ["L1"; "L2"; "L3"])))%float ∧
  (∀ T, py_round (to_cents 9%float) = Some T →
     floor_shares T (tivs_of (∅ : gmap string float) ["L1"; "L2"; "L3"])
       = replicate (length ["L1"; "L2"; "L3"])
           (floor_int (1 / of_int (Z.of_nat (length ["L1"; "L2"; "L3"])) * of_int T)%float) ∧
     (0 ≤ floor_int (1 / of_int (Z.of_nat (length ["L1"; "L2"; "L3"])) * of_int T)%float →
      Z.of_nat (length ["L1"; "L2"; "L3"])
        * (floor_int (1 / of_int (Z.of_nat (length ["L1"; "L2"; "L3"])) * of_int T)%float + 1)
        ≤ int64_max →
      (is_Some (allocate_cents_for_coverage 9%float ∅ ["L1"; "L2"; "L3"]) ↔
       0 ≤ T - Z.of_nat (length ["L1"; "L2"; "L3"])
                * floor_int (1 / of_int (Z.of_nat (length ["L1"; "L2"; "L3"])) * of_int T)%float
         ≤ Z.of_nat (length ["L1"; "L2"; "L3"])) ∧
      ∀ result, allocate_cents_for_coverage 9%float ∅ ["L1"; "L2"; "L3"] = Some result →
        ∃ cents,
          length cents = length ["L1"; "L2"; "L3"] ∧
          (∀ (i : nat) l, ["L1"; "L2"; "L3"] !! i = Some l →
             ∃ c, cents !! i = Some c ∧ result !! l = Some (dollars c)) ∧
          zsum cents = T ∧
          Forall (λ c,
                    c = floor_int (1 / of_int (Z.of_nat (length ["L1"; "L2"; "L3"])) * of_int T)%float ∨
                    c = floor_int (1 / of_int (Z.of_nat (length ["L1"; "L2"; "L3"])) * of_int T)%float + 1)
                 cents)) ∧
  (allocate_cents_for_coverage 9%float ∅ ["L1"; "L2"; "L3"]
     = Some (to_dict ["L1"; "L2"; "L3"] [dollars 300; dollars 300; dollars 300]) ∧
   py_round (to_cents 9%float) = Some 900 ∧
   floor_shares 900 (tivs_of (∅ : gmap string float) ["L1"; "L2"; "L3"]) = [300; 300; 300] ∧
   zsum [300; 300; 300] = 900 ∧ dollars 300 = 3%float).
Proof.
  apply (allocate_zero_weights_uniform 9%float ∅ ["L1"; "L2"; "L3"]).
  - reflexivity.
  - discriminate.
  - apply (bool_decide_unpack _). vm_compute. exact I.
  - vm_compute. repeat constructor.
Defined.
End AllocateInstances.


(** * Properties of iterative proportional fitting *)

Section IPFControl.
Context {F : Type} `{FloatOps F}.
Implicit Types (rT cT : list F) (X : list (list F)).

Lemma indicator_length (v : list F) : length (indicator v) = length v.
Proof. unfold indicator. by rewrite length_fmap. Qed.

Lemma outer_conforms (u v : list F) : conforms (outer u v) (length u) (length v) = true.
Proof.
  apply conforms_spec. unfold outer. split; [by rewrite length_fmap|].
  apply Forall_fmap, Forall_forall. intros a _. simpl. by rewrite length_fmap.
Qed.

(** The seed built by default always has the shape of the targets. *)
Lemma default_seed_conforms rT cT :
  conforms (default_seed rT cT) (length rT) (length cT) = true.
Proof.
  unfold default_seed. destruct (is_zero _).
  - apply conforms_spec. rewrite length_replicate. split; [done|].
    apply Forall_replicate. by rewrite length_replicate.
  - rewrite <- (indicator_length rT), <- (indicator_length cT). apply outer_conforms.
Qed.

(** The loop runs at most [max_iter] sweeps, returns the iterate of the
    last sweep it ran, and stops early only on a converged iterate. *)
Lemma ipf_loop_spec max_iter tol rT cT : ∀ X,
  ∃ Y k, ipf_loop max_iter tol rT cT X = (Y, k) ∧ k ≤ max_iter ∧
         Y = Nat.iter k (sweep rT cT) X ∧
         (k = max_iter ∨ converged tol rT cT Y = true).
Proof.
  induction max_iter as [|n IH]; intros X; simpl.
  - exists X, 0. split_and!; [done|lia|done|by left].
  - destruct (converged tol rT cT (sweep rT cT X)) eqn:Hconv.
    + exists (sweep rT cT X), 1. split_and!; [done|lia|done|by right].
    + destruct (IH (sweep rT cT X)) as (Y & k & Hloop & Hk & HY & Hend).
      rewrite Hloop. exists Y, (S k). split_and!; [done|lia| |].
      * by rewrite Nat.iter_succ_r.
      * destruct Hend as [->|?]; [by left|by right].
Qed.

(** C3.  Whatever the targets and whatever the seed (of the shape of the
    targets, or none), [ipf] returns a matrix without error after at most
    [max_iter] iterations of the loop; the matrix is the last iterate,
    converged or not. *)
Theorem ipf_capped rT cT seed max_iter tol :
  seed_fits rT cT seed →
  ∃ X k, ipf rT cT seed max_iter tol = Some (X, k) ∧
         k ≤ max_iter ∧
         X = Nat.iter (S k) (sweep rT cT) (default (default_seed rT cT) seed) ∧
         (k = max_iter ∨ converged tol rT cT X = true).
Proof.
  intros Hfit. unfold ipf.
  assert (conforms (default (default_seed rT cT) seed) (length rT) (length cT) = true) as ->.
  { destruct seed as [s|]; simpl; [exact Hfit|apply default_seed_conforms]. }
  destruct (ipf_loop_spec max_iter tol rT cT
              (sweep rT cT (default (default_seed rT cT) seed)))
    as (Y & k & Hloop & Hk & HY & Hend).
  exists Y, k. rewrite Hloop. split_and!; [done|done| |done].
  by rewrite Nat.iter_succ_r.
Qed.
End IPFControl.

Section IPFClosure.
Context {F : Type} {FO : FloatOps F}.
Implicit Types (rT cT : list F) (X : list (list F)).

(** A property of floats that zero and one have and that sums, products
    and quotients by a divisor other than zero keep. *)
Variable P : F → Prop.
Hypothesis P_zero : P fzero.
Hypothesis P_one : P fone.
Hypothesis P_add : ∀ x y, P x → P y → P (fadd x y).
Hypothesis P_mul : ∀ x y, P x → P y → P (fmul x y).
Hypothesis P_div : ∀ x y, P x → P y → is_zero y = false → P (fdiv x y).

Lemma fsum_keeps (v : list F) : Forall P v → P (fsum v).
Proof. induction 1 as [|x v Hx _ IH]; simpl; [done|]. by apply P_add. Qed.

(** The factor of a rescaling: a target over a guarded sum.  The guard
    replaces a sum that equals zero by one, which does not equal zero. *)
Lemma factor_keeps (one_nonzero : is_zero fone = false) t s :
  P t → P s → P (fdiv t (guard s)).
Proof.
  intros Ht Hs. unfold guard. destruct (is_zero s) eqn:Hz.
  - by apply P_div.
  - by apply P_div.
Qed.

Section WithGuard.
Hypothesis one_nonzero : is_zero fone = false.

Lemma scale_rows_keeps rT X :
  Forall P rT → Forall (Forall P) X → Forall (Forall P) (scale_rows rT X).
Proof.
  intros HrT HX. unfold scale_rows.
  apply Forall_lookup. intros i row' Hrow'.
  apply lookup_zip_with_Some in Hrow' as (t & row & -> & Ht & Hrow).
  rewrite Forall_lookup in HrT. specialize (HrT i t Ht).
  rewrite Forall_lookup in HX. specialize (HX i row Hrow). simpl in HrT, HX.
  apply Forall_fmap. eapply Forall_impl; [exact HX|]. intros x Hx. simpl.
  apply P_mul; [done|]. apply factor_keeps; [done|done|]. by apply fsum_keeps.
Qed.

Lemma fcol_sums_keeps nC X : Forall (Forall P) X → Forall P (fcol_sums nC X).
Proof.
  intros HX. unfold fcol_sums. apply Forall_fmap, Forall_forall. intros j _. simpl.
  apply fsum_keeps, Forall_fmap.
  eapply Forall_impl; [exact HX|]. intros row Hrow. simpl.
  destruct (row !! j) as [x|] eqn:Hx; simpl; [|done].
  rewrite Forall_lookup in Hrow. by apply (Hrow j).
Qed.

Lemma scale_cols_keeps cT X :
  Forall P cT → Forall (Forall P) X → Forall (Forall P) (scale_cols cT X).
Proof.
  intros HcT HX. unfold scale_cols.
  assert (Forall P (zip_with fdiv cT (guard <$> fcol_sums (length cT) X))) as Hfac.
  { apply Forall_lookup. intros j f Hf.
    apply lookup_zip_with_Some in Hf as (t & g & -> & Ht & Hg).
    rewrite Forall_lookup in HcT. specialize (HcT j t Ht).
    apply list_lookup_fmap_Some in Hg as (s & -> & Hs).
    pose proof (fcol_sums_keeps (length cT) X HX) as Hcs.
    rewrite Forall_lookup in Hcs. specialize (Hcs j s Hs). simpl in *.
    by apply factor_keeps. }
  apply Forall_fmap.
  eapply Forall_impl; [exact HX|]. intros row Hrow. simpl.
  apply Forall_lookup. intros j y Hy.
  apply lookup_zip_with_Some in Hy as (x & f & -> & Hx & Hf).
  rewrite Forall_lookup in Hrow, Hfac.
  apply P_mul; [by apply (Hrow j)|by apply (Hfac j)].
Qed.

Lemma sweep_keeps rT cT X :
  Forall P rT → Forall P cT → Forall (Forall P) X → Forall (Forall P) (sweep rT cT X).
Proof. intros. unfold sweep. by apply scale_cols_keeps, scale_rows_keeps. Qed.

Lemma indicator_keeps (v : list F) : Forall P (indicator v).
Proof.
  unfold indicator. apply Forall_fmap, Forall_forall. intros t _. simpl.
  by destruct (is_pos t).
Qed.

Lemma default_seed_keeps rT cT : Forall (Forall P) (default_seed rT cT).
Proof.
  unfold default_seed. destruct (is_zero (fsum _)).
  - by apply Forall_replicate, Forall_replicate.
  - unfold outer. apply Forall_fmap.
    eapply Forall_impl; [apply (indicator_keeps rT)|]. intros a Ha. simpl.
    apply Forall_fmap. eapply Forall_impl; [apply (indicator_keeps cT)|].
    intros b Hb. simpl. by apply P_mul.
Qed.

Lemma ipf_loop_keeps max_iter tol rT cT : ∀ X,
  Forall P rT → Forall P cT →
  Forall (Forall P) X → Forall (Forall P) (ipf_loop max_iter tol rT cT X).1.
Proof.
  induction max_iter as [|n IH]; intros X HrT HcT HX; simpl; [done|].
  destruct (converged tol rT cT (sweep rT cT X)); simpl; [by apply sweep_keeps|].
  specialize (IH (sweep rT cT X) HrT HcT (sweep_keeps _ _ _ HrT HcT HX)).
  by destruct (ipf_loop n tol rT cT (sweep rT cT X)).
Qed.

Lemma ipf_keeps rT cT seed max_iter tol X k :
  Forall P rT → Forall P cT →
  (∀ s, seed = Some s → Forall (Forall P) s) →
  ipf rT cT seed max_iter tol = Some (X, k) → Forall (Forall P) X.
Proof.
  intros HrT HcT Hseed Hipf.
  unfold ipf in Hipf. destruct (conforms _ _ _); [|discriminate].
  injection Hipf as Hloop.
  assert (Forall (Forall P) (default (default_seed rT cT) seed)) as H0.
  { destruct seed as [s|]; simpl; [by apply Hseed|apply default_seed_keeps]. }
  pose proof (ipf_loop_keeps max_iter tol rT cT _ HrT HcT
                (sweep_keeps _ _ _ HrT HcT H0)) as Hnn.
  by rewrite Hloop in Hnn.
Qed.
End WithGuard.
End IPFClosure.

Section IPFNonneg.
Import PrimFloat.
Implicit Types (rT cT : list float) (X : list (list float)).

Lemma b64_not_neg_zero : b64_not_neg 0%float.
Proof. by left. Qed.

Lemma b64_not_neg_one : b64_not_neg 1%float.
Proof. by left. Qed.

Lemma b64_not_neg_add x y : b64_not_neg x → b64_not_neg y → b64_not_neg (x + y)%float.
Proof. unfold b64_not_neg. rewrite <- !not_neg_spec. apply add_not_neg. Qed.

Lemma b64_not_neg_mul x y : b64_not_neg x → b64_not_neg y → b64_not_neg (x * y)%float.
Proof. unfold b64_not_neg. rewrite <- !not_neg_spec. apply mul_not_neg. Qed.

Lemma b64_not_neg_div x y :
  b64_not_neg x → b64_not_neg y → (y =? 0)%float = false → b64_not_neg (x / y)%float.
Proof. unfold b64_not_neg. rewrite <- !not_neg_spec. apply div_not_neg. Qed.

Lemma nonneg_is_not_neg (v : list float) : Forall b64_nonneg v → Forall b64_not_neg v.
Proof. intros Hv. eapply Forall_impl; [exact Hv|]. intros x Hx. by left. Qed.

(** C9, as amended.  With row targets, column targets and seed that are at
    least zero, no entry of the matrix [ipf] returns is negative: each is
    at least zero or is a NaN.  A row rescaling and a column rescaling each
    keep a matrix without negative entries so; they do not keep it free of
    NaN, which the product of an infinity and a zero is. *)
Theorem ipf_nonneg rT cT seed max_iter tol X k :
  Forall b64_nonneg rT → Forall b64_nonneg cT →
  (∀ s, seed = Some s → Forall (Forall b64_nonneg) s) →
  ipf rT cT seed max_iter tol = Some (X, k) →
  Forall (Forall b64_not_neg) X ∧
  Forall (Forall b64_not_neg) (default_seed rT cT) ∧
  (∀ Y, Forall (Forall b64_not_neg) Y → Forall (Forall b64_not_neg) (scale_rows rT Y)) ∧
  (∀ Y, Forall (Forall b64_not_neg) Y → Forall (Forall b64_not_neg) (scale_cols cT Y)).
Proof.
  intros HrT%nonneg_is_not_neg HcT%nonneg_is_not_neg Hseed Hipf.
  pose proof b64_not_neg_zero as H0. pose proof b64_not_neg_one as H1.
  pose proof b64_not_neg_add as Ha. pose proof b64_not_neg_mul as Hm.
  pose proof b64_not_neg_div as Hd.
  split_and!.
  - apply (ipf_keeps (FO:=b64_ops) b64_not_neg H0 H1 Ha Hm Hd eq_refl
             rT cT seed max_iter tol X k);
      [done|done| |done].
    intros s Hs. specialize (Hseed s Hs).
    eapply Forall_impl; [exact Hseed|]. intros row. apply nonneg_is_not_neg.
  - by apply (default_seed_keeps (FO:=b64_ops) b64_not_neg).
  - intros Y. by apply (scale_rows_keeps (FO:=b64_ops) b64_not_neg).
  - intros Y. by apply (scale_cols_keeps (FO:=b64_ops) b64_not_neg).
Qed.
End IPFNonneg.

Section IPFInstances.
Import PrimFloat.

(** Row targets [50, 50] and column targets [60, 40] with the defaults, on
    the rationals and on the 64-bit floats: one sweep before the loop and
    one iteration of the loop reach the targets. *)
Example ipf_50_50_60_40 :
  (∃ X, ipf [50; 50]%Q [60; 40]%Q None default_max_iter default_tol = Some (X, 1%nat) ∧
        Forall2 (Forall2 Qeq) X [[30; 20]; [30; 20]]%Q) ∧
  ipf [50; 50]%float [60; 40]%float None default_max_iter b64_default_tol
  = Some ([[30; 20]; [30; 20]]%float, 1%nat).
Proof.
  split; [|vm_compute; reflexivity].
  eexists. split; [vm_compute; reflexivity|].
  repeat constructor; reflexivity.
Qed.

Lemma ipf_capped_witness :
  ∃ X k, ipf [50; 50]%Q [60; 40]%Q None default_max_iter default_tol = Some (X, k) ∧
         (k ≤ default_max_iter)%nat ∧
         X = Nat.iter (S k) (sweep [50; 50]%Q [60; 40]%Q)
               (default (default_seed [50; 50]%Q [60; 40]%Q) None) ∧
         (k = default_max_iter ∨ converged default_tol [50; 50]%Q [60; 40]%Q X = true).
Proof.
  apply (ipf_capped [50; 50]%Q [60; 40]%Q None default_max_iter default_tol).
  exact I.
Defined.

Lemma ipf_nonneg_witness :
  Forall (Forall b64_not_neg) [[30; 20]; [30; 20]]%float ∧
  Forall (Forall b64_not_neg) (default_seed [50; 50]%float [60; 40]%float) ∧
  (∀ Y, Forall (Forall b64_not_neg) Y →
        Forall (Forall b64_not_neg) (scale_rows [50; 50]%float Y)) ∧
  (∀ Y, Forall (Forall b64_not_neg) Y →
        Forall (Forall b64_not_neg) (scale_cols [60; 40]%float Y)).
Proof.
  apply (ipf_nonneg [50; 50]%float [60; 40]%float None default_max_iter b64_default_tol
           [[30; 20]; [30; 20]]%float 1).
  - repeat constructor.
  - repeat constructor.
  - intros s Hs. discriminate.
  - vm_compute. reflexivity.
Defined.

(** Row target 1e-200 against column target 1e200, both positive: the
    column factor of the first sweep overflows to infinity, the row factor
    of the next sweep is zero, and their product, a NaN, is what [ipf]
    returns after its 5000 iterations.  A NaN is not at least zero. *)
Lemma ipf_overflow_nan :
  Forall b64_nonneg [1e-200]%float ∧ Forall b64_nonneg [1e200]%float ∧
  sweep [1e-200]%float [1e200]%float (default_seed [1e-200]%float [1e200]%float)
    = [[infinity]] ∧
  sweep [1e-200]%float [1e200]%float [[infinity]] = [[nan]] ∧
  ipf [1e-200]%float [1e200]%float None default_max_iter b64_default_tol
    = Some ([[nan]], default_max_iter) ∧
  (0 <=? nan)%float = false ∧ b64_nan nan.
Proof. split_and!; try (vm_compute; reflexivity); repeat constructor. Qed.
End IPFInstances.


(** * Properties of the ordered de-duplication of labels *)

Section FirstSeen.
Implicit Types l : list string.

Lemma elem_of_first_seen l x : x ∈ first_seen l ↔ x ∈ l.
Proof.
  induction l as [|y l IH]; simpl; [done|].
  rewrite !elem_of_cons, list_elem_of_filter, IH.
  destruct (decide (x = y)); tauto.
Qed.

Lemma NoDup_first_seen l : NoDup (first_seen l).
Proof.
  induction l as [|y l IH]; simpl; [constructor|].
  apply NoDup_cons. split; [|by apply NoDup_filter].
  rewrite list_elem_of_filter. intros [Hne _]. by apply Hne.
Qed.

(** What remains keeps the order of the list it came from. *)
Lemma first_seen_sublist l : first_seen l `sublist_of` l.
Proof.
  induction l as [|y l IH]; simpl; [done|].
  apply sublist_skip. etrans; [apply sublist_filter|done].
Qed.

Lemma kept_labels_cons keep x series :
  kept_labels keep (x :: series)
  = if keep (strip x) then strip x :: kept_labels keep series else kept_labels keep series.
Proof.
  unfold kept_labels. rewrite fmap_cons. destruct (keep (strip x)) eqn:Hk.
  - by rewrite filter_cons_True.
  - rewrite filter_cons_False; [done|]. cbv beta. congruence.
Qed.

(** The loop, started with a set [seen] that holds the labels of [out],
    appends to [out] the first occurrences of the kept labels not yet in it. *)
Lemma uo_fold keep series : ∀ (seen : gset string) (out : list string),
  (∀ v, v ∈ seen ↔ v ∈ out) →
  (foldl (uo_step keep) (seen, out) series).2
  = out ++ filter (λ v, v ∉ out) (first_seen (kept_labels keep series)).
Proof.
  induction series as [|x series IH]; intros seen out Hseen.
  - simpl. by rewrite app_nil_r.
  - rewrite kept_labels_cons. simpl foldl. unfold uo_step at 2. simpl fst; simpl snd.
    destruct (keep (strip x)) eqn:Hk; simpl andb.
    + case_bool_decide as Hin.
      * (* a new label *)
        assert (strip x ∉ out) as Hout by (by rewrite <- Hseen).
        rewrite IH.
        -- simpl first_seen. rewrite filter_cons_True by done.
           rewrite <- app_assoc. simpl. do 2 f_equal.
           rewrite list_filter_filter. apply list_filter_iff. intros y.
           rewrite elem_of_app, list_elem_of_singleton. naive_solver.
        -- intros v. rewrite elem_of_union, elem_of_singleton, elem_of_app,
             list_elem_of_singleton, Hseen. naive_solver.
      * (* a label seen before *)
        assert (strip x ∈ out) as Hout.
        { rewrite <- Hseen. by destruct (decide (strip x ∈ seen)). }
        rewrite IH by done. simpl first_seen.
        rewrite filter_cons_False by naive_solver.
        f_equal. symmetry. apply list_filter_filter_l. intros y Hy ->. done.
    + by apply IH.
Qed.

Lemma filter_not_in_nil (l : list string) : filter (λ v, v ∉ @nil string) l = l.
Proof.
  induction l as [|x l IH]; [done|].
  rewrite filter_cons_True by apply not_elem_of_nil. by rewrite IH.
Qed.

(** The loop computes the first occurrences of the kept labels. *)
Lemma uo_loop_first_seen keep series :
  uo_loop keep series = first_seen (kept_labels keep series).
Proof.
  unfold uo_loop. rewrite (uo_fold keep series ∅ []); [|set_solver].
  simpl. apply filter_not_in_nil.
Qed.

Lemma elem_of_kept_labels keep series v :
  v ∈ kept_labels keep series ↔ (∃ x, x ∈ series ∧ v = strip x) ∧ keep v = true.
Proof.
  unfold kept_labels. rewrite list_elem_of_filter, list_elem_of_fmap. naive_solver.
Qed.

Lemma nonempty_true v : nonempty v = true ↔ v ≠ ""%string.
Proof.
  unfold nonempty. rewrite negb_true_iff. split.
  - intros Hf ->. by rewrite String.eqb_refl in Hf.
  - intros Hne. by apply String.eqb_neq.
Qed.

Lemma not_nan_true v :
  not_nan v = true ↔ lower v ≠ "nan"%string ∧ lower v ≠ "none"%string.
Proof.
  unfold not_nan. rewrite negb_true_iff, orb_false_iff, !String.eqb_neq. done.
Qed.
End FirstSeen.

(** C8, as amended.  Both [unique_ordered] functions return the trimmed
    labels that pass their test, each once, in the order of first
    occurrence.  The test of [tiv_module] rejects the empty label and the
    labels that read "nan" or "none" in lower case; the test of
    [ras_module] rejects the empty label only.  The labels
    ["L2", "L1", "L2", "", "L1"] give ["L2", "L1"] under both. *)
Theorem unique_ordered_first_seen (series : list string) :
  unique_ordered_tiv series
    = first_seen (kept_labels (λ v, nonempty v && not_nan v) series) ∧
  unique_ordered_ras series = first_seen (kept_labels nonempty series) ∧
  NoDup (unique_ordered_tiv series) ∧ NoDup (unique_ordered_ras series) ∧
  unique_ordered_tiv series `sublist_of` (strip <$> series) ∧
  unique_ordered_ras series `sublist_of` (strip <$> series) ∧
  (∀ v, v ∈ unique_ordered_tiv series ↔
        (∃ x, x ∈ series ∧ v = strip x) ∧
        v ≠ ""%string ∧ lower v ≠ "nan"%string ∧ lower v ≠ "none"%string) ∧
  (∀ v, v ∈ unique_ordered_ras series ↔
        (∃ x, x ∈ series ∧ v = strip x) ∧ v ≠ ""%string) ∧
  unique_ordered_tiv ["L2"; "L1"; "L2"; ""; "L1"]%string = ["L2"; "L1"]%string ∧
  unique_ordered_ras ["L2"; "L1"; "L2"; ""; "L1"]%string = ["L2"; "L1"]%string.
Proof.
  unfold unique_ordered_tiv, unique_ordered_ras. rewrite !uo_loop_first_seen.
  split_and!; try done.
  - apply NoDup_first_seen.
  - apply NoDup_first_seen.
  - etrans; [apply first_seen_sublist|apply sublist_filter].
  - etrans; [apply first_seen_sublist|apply sublist_filter].
  - intros v. rewrite elem_of_first_seen, elem_of_kept_labels, andb_true_iff,
      nonempty_true, not_nan_true. naive_solver.
  - intros v. rewrite elem_of_first_seen, elem_of_kept_labels, nonempty_true. done.
Qed.

(** The label "nan" passes the test of [ras_module.unique_ordered]: there
    it is [load_ras_sheet] that blanks such labels beforehand. *)
Lemma unique_ordered_ras_keeps_nan :
  unique_ordered_ras ["nan"; "L1"; "NaN"]%string = ["nan"; "L1"; "NaN"]%string ∧
  lower "nan" = "nan"%string ∧ lower "NaN" = "nan"%string ∧
  unique_ordered_tiv ["nan"; "L1"; "NaN"]%string = ["L1"]%string.
Proof. split_and!; vm_compute; reflexivity. Qed.


(** * Properties of the loaders *)

Section PickCol.
Implicit Types (d : list (string * string)) (k v : string).

Lemma prefix_refl (s : string) : String.prefix s s = true.
Proof.
  induction s as [|c s IH]; simpl; [done|].
  destruct (ascii_dec c c); [done|congruence].
Qed.

Lemma contains_refl (s : string) : contains s s = true.
Proof.
  destruct s as [|c s]; [done|]. unfold contains; fold contains.
  by rewrite prefix_refl.
Qed.

Lemma first_some_None {A B} (f : A → option B) (l : list A) :
  first_some f l = None ↔ ∀ x, x ∈ l → f x = None.
Proof.
  induction l as [|x l IH]; simpl.
  - split; [|done]. intros _ y Hy. by apply elem_of_nil in Hy.
  - destruct (f x) eqn:Hfx.
    + split; [done|]. intros Hall. rewrite Hall in Hfx; [done|]. by left.
    + rewrite IH. split.
      * intros Hall y [->|Hy]%elem_of_cons; [done|by apply Hall].
      * intros Hall y Hy. apply Hall. by right.
Qed.

Lemma dict_put_keys k v d key :
  key ∈ (dict_put k v d).*1 ↔ key = k ∨ key ∈ d.*1.
Proof.
  induction d as [|[k' v'] d IH]; simpl.
  - rewrite list_elem_of_singleton. split; [by left|]. intros [?|Hn]; [done|].
    by apply elem_of_nil in Hn.
  - destruct (String.eqb k k') eqn:Hk; simpl.
    + apply String.eqb_eq in Hk as ->. rewrite !elem_of_cons. tauto.
    + rewrite !elem_of_cons, IH. tauto.
Qed.

Lemma dict_get_Some_key k v d : dict_get k d = Some v → k ∈ d.*1.
Proof.
  induction d as [|[k' v'] d IH]; simpl; [done|].
  destruct (String.eqb k k') eqn:Hk.
  - apply String.eqb_eq in Hk as ->. intros _. by left.
  - intros Hg. right. by apply IH.
Qed.

Lemma norm_map_keys (headers : list string) key :
  key ∈ (norm_map headers).*1 ↔ ∃ c, c ∈ headers ∧ key = norm c.
Proof.
  unfold norm_map.
  assert (∀ d, key ∈ (foldl (λ d c, dict_put (norm c) c d) d headers).*1
               ↔ key ∈ d.*1 ∨ ∃ c, c ∈ headers ∧ key = norm c) as Hgen.
  { induction headers as [|h headers IH]; intros d; simpl.
    - split; [by left|]. intros [?|(c & Hc & _)]; [done|]. by apply elem_of_nil in Hc.
    - rewrite IH, dict_put_keys. split.
      + intros [[->|?]|(c & Hc & ->)]; [right|by left|right].
        * exists h. split; [by left|done].
        * exists c. split; [by right|done].
      + intros [?|(c & [->|Hc]%elem_of_cons & ->)].
        * left. by right.
        * left. by left.
        * right. by exists c. }
  rewrite Hgen. split; [|by right]. intros [Hn|?]; [|done]. by apply elem_of_nil in Hn.
Qed.

(** [pick_col] resolves to no header exactly when no header contains, in
    normal form, the normal form of any of the candidates. *)
Lemma pick_col_None_iff (headers candidates : list string) :
  pick_col headers candidates = None ↔
  ∀ cand c, cand ∈ candidates → c ∈ headers →
            contains (norm (clean_header c)) (norm cand) = false.
Proof.
  unfold pick_col. set (nm := norm_map (clean_header <$> headers)).
  assert (∀ key, key ∈ nm.*1 ↔ ∃ c, c ∈ headers ∧ key = norm (clean_header c)) as Hkeys.
  { intros key. unfold nm. rewrite norm_map_keys. split.
    - intros (c' & Hc' & ->). apply list_elem_of_fmap in Hc' as (c & -> & Hc). by exists c.
    - intros (c & Hc & ->). exists (clean_header c). split; [|done].
      apply list_elem_of_fmap. by exists c. }
  split.
  - intros Hpick cand c Hcand Hc.
    destruct (first_some (λ cand, dict_get (norm cand) nm) candidates) eqn:H1; [done|].
    rewrite first_some_None in Hpick. specialize (Hpick cand Hcand). simpl in Hpick.
    rewrite first_some_None in Hpick.
    assert (norm (clean_header c) ∈ nm.*1) as Hin by (apply Hkeys; by exists c).
    apply list_elem_of_fmap in Hin as ([k v] & Hk & Hkv). simpl in Hk.
    specialize (Hpick (k, v) Hkv). simpl in Hpick. rewrite Hk.
    by destruct (contains k (norm cand)).
  - intros Habs.
    assert (first_some (λ cand, dict_get (norm cand) nm) candidates = None) as ->.
    { apply first_some_None. intros cand Hcand.
      destruct (dict_get (norm cand) nm) as [v|] eqn:Hg; [|done].
      apply dict_get_Some_key, Hkeys in Hg as (c & Hc & Heq).
      specialize (Habs cand c Hcand Hc). rewrite <- Heq, contains_refl in Habs. done. }
    apply first_some_None. intros cand Hcand. apply first_some_None. intros [k v] Hkv.
    simpl. assert (k ∈ nm.*1) as Hk.
    { apply list_elem_of_fmap. by exists (k, v). }
    apply Hkeys in Hk as (c & Hc & ->). by rewrite (Habs cand c Hcand Hc).
Qed.
End PickCol.

Section LoaderTheorems.

Lemma elem_of_missing_fields (headers : list string) (n : string) :
  n ∈ missing_fields headers ↔
  ∃ cands, (n, cands) ∈ required_aliases ∧ pick_col headers cands = None.
Proof.
  unfold missing_fields, required_fields. rewrite list_elem_of_omap. split.
  - intros ([n' pick] & Hin & Hn). apply list_elem_of_fmap in Hin as ([m cands] & Heq & Hin).
    simpl in *. simplify_eq. destruct (pick_col headers cands) eqn:Hp; simplify_eq.
    by exists cands.
  - intros (cands & Hin & Hp). exists (n, None). split; [|done].
    apply list_elem_of_fmap. exists (n, cands). simpl. by rewrite Hp.
Qed.

(** When a required field resolves to no header, [load_tiv_sheet] raises
    the [ValueError] that lists the fields that resolved to none and the
    headers found. *)
Lemma load_tiv_sheet_missing (xls : workbook) (df : frame) n cands :
  read_sheet_any xls [SHEET_TIV] [SHEET_TIV] = inr df →
  (n, cands) ∈ required_aliases →
  pick_col (tiv_headers df) cands = None →
  load_tiv_sheet xls
  = inl (missing_message (missing_fields (tiv_headers df)) (tiv_headers df)).
Proof.
  intros Hread Hin Hp. unfold load_tiv_sheet. rewrite Hread.
  unfold required_aliases in Hin.
  repeat (apply elem_of_cons in Hin as [Heq|Hin]; [simplify_eq; rewrite Hp;
    repeat (destruct (pick_col _ _); try done)|]).
  by apply elem_of_nil in Hin.
Qed.

(** The six names each trim at most one header. *)
Lemma no_duplicates_spec (headers : list string) :
  Forall (λ c, occurrences c headers ≤ 1) (RAS_TEXT_COLUMNS ++ RAS_NUMERIC_COLUMNS) ↔
  existsb (duplicated headers) RAS_TEXT_COLUMNS = false ∧
  existsb (duplicated headers) RAS_NUMERIC_COLUMNS = false.
Proof.
  rewrite Forall_app. unfold duplicated.
  assert (∀ cs, Forall (λ c, occurrences c headers ≤ 1) cs ↔
                existsb (λ c, bool_decide (2 ≤ occurrences c headers)) cs = false) as Hcs.
  { induction cs as [|c cs IH]; simpl.
    - split; [done|constructor].
    - rewrite Forall_cons, IH, orb_false_iff, bool_decide_eq_false.
      split; intros [? ?]; (split; [lia|done]). }
  by rewrite !Hcs.
Qed.

(** On a sheet where each of the six names trims at most one header,
    [load_ras_sheet] returns the frame, a header that is missing read as
    NaN in every row; on any other sheet a conversion raises. *)
Lemma load_ras_sheet_fills (xls : workbook) (df : frame) :
  read_sheet_any xls RAS_SHEETS RAS_SHEETS = inr df →
  (Forall (λ c, occurrences c (ras_headers df) ≤ 1)
          (RAS_TEXT_COLUMNS ++ RAS_NUMERIC_COLUMNS) →
   ∃ rows, load_ras_sheet xls = inr rows ∧ length rows = length (body df) ∧
     (COL_LOC ∉ ras_headers df → Forall (λ r, r_loc r = ""%string) rows) ∧
     (COL_COV ∉ ras_headers df → Forall (λ r, r_cov r = ""%string) rows) ∧
     (COL_ENT ∉ ras_headers df → Forall (λ r, r_ent r = ""%string) rows) ∧
     (COL_ADDR ∉ ras_headers df → Forall (λ r, r_addr r = ""%string) rows) ∧
     (COL_ROW ∉ ras_headers df → Forall (λ r, r_row r = 0%Q) rows) ∧
     (COL_COL ∉ ras_headers df → Forall (λ r, r_col r = 0%Q) rows)) ∧
  (¬ Forall (λ c, occurrences c (ras_headers df) ≤ 1)
            (RAS_TEXT_COLUMNS ++ RAS_NUMERIC_COLUMNS) →
   load_ras_sheet xls = inl ATTRIBUTE_ERROR ∨ load_ras_sheet xls = inl TYPE_ERROR).
Proof.
  intros Hread. unfold load_ras_sheet. rewrite Hread. cbv zeta.
  rewrite no_duplicates_spec. unfold ras_headers.
  destruct (existsb _ RAS_TEXT_COLUMNS) eqn:Htext.
  - split; [by intros [? _]|]. intros _. by left.
  - destruct (existsb _ RAS_NUMERIC_COLUMNS) eqn:Hnum.
    + split; [by intros [_ ?]|]. intros _. by right.
    + split; [|by intros []]. intros _.
      eexists. split; [done|]. split; [by rewrite length_fmap|].
      split_and!; intros Hno; apply Forall_fmap, Forall_forall; intros row _; simpl;
        by rewrite (bool_decide_eq_false_2 _ Hno).
Qed.

(** C7, as amended.  When a required field of [load_tiv_sheet] is absent
    (no header contains, in normal form, any of the field's aliases), the
    loader raises at once a [ValueError] whose message names the missing
    fields and the headers found, and returns no frame.  [load_ras_sheet]
    does not raise for a missing column: on a sheet where each of its six
    column names is the trimmed form of at most one header it returns the
    frame, the missing column read as blank text or as zero; where two
    headers have the same trimmed form among the six, a conversion
    raises. *)
Theorem loaders_on_missing_column (xls : workbook) (df : frame) n cands :
  read_sheet_any xls [SHEET_TIV] [SHEET_TIV] = inr df →
  (n, cands) ∈ required_aliases →
  (∀ cand c, cand ∈ cands → c ∈ tiv_headers df →
             contains (norm (clean_header c)) (norm cand) = false) →
  (load_tiv_sheet xls
     = inl (missing_message (missing_fields (tiv_headers df)) (tiv_headers df)) ∧
   n ∈ missing_fields (tiv_headers df) ∧
   (∀ m, m ∈ missing_fields (tiv_headers df) ↔
         ∃ cs, (m, cs) ∈ required_aliases ∧ pick_col (tiv_headers df) cs = None) ∧
   missing_message (missing_fields (tiv_headers df)) (tiv_headers df)
     = ("Missing required column(s) on 'TIV Weighted Dist. - INPUT': "
        ++ join ", " (missing_fields (tiv_headers df))
        ++ newline ++ "Headers found: " ++ join ", " (tiv_headers df))%string) ∧
  (∀ (xls' : workbook) (df' : frame),
     read_sheet_any xls' RAS_SHEETS RAS_SHEETS = inr df' →
     (Forall (λ c, occurrences c (ras_headers df') ≤ 1)
             (RAS_TEXT_COLUMNS ++ RAS_NUMERIC_COLUMNS) →
      ∃ rows, load_ras_sheet xls' = inr rows ∧ length rows = length (body df') ∧
        (COL_LOC ∉ ras_headers df' → Forall (λ r, r_loc r = ""%string) rows) ∧
        (COL_COV ∉ ras_headers df' → Forall (λ r, r_cov r = ""%string) rows) ∧
        (COL_ENT ∉ ras_headers df' → Forall (λ r, r_ent r = ""%string) rows) ∧
        (COL_ADDR ∉ ras_headers df' → Forall (λ r, r_addr r = ""%string) rows) ∧
        (COL_ROW ∉ ras_headers df' → Forall (λ r, r_row r = 0%Q) rows) ∧
        (COL_COL ∉ ras_headers df' → Forall (λ r, r_col r = 0%Q) rows)) ∧
     (¬ Forall (λ c, occurrences c (ras_headers df') ≤ 1)
               (RAS_TEXT_COLUMNS ++ RAS_NUMERIC_COLUMNS) →
      load_ras_sheet xls' = inl ATTRIBUTE_ERROR ∨ load_ras_sheet xls' = inl TYPE_ERROR)).
Proof.
  intros Hread Hin Habs.
  assert (pick_col (tiv_headers df) cands = None) as Hp by (by apply pick_col_None_iff).
  split; [split_and!|].
  - by eapply load_tiv_sheet_missing.
  - apply elem_of_missing_fields. by exists cands.
  - apply elem_of_missing_fields.
  - reflexivity.
  - apply load_ras_sheet_fills.
Qed.
End LoaderTheorems.

Section LoaderInstances.
Local Open Scope string_scope.

Example load_tiv_sheet_message :
  load_tiv_sheet [(SHEET_TIV, tiv_sheet_without_tiv)]
  = inl ("Missing required column(s) on 'TIV Weighted Dist. - INPUT': TIV/Insurable Value"
         ++ newline ++ "Headers found: Coverage, Premium, Location Number").
Proof. vm_compute. reflexivity. Qed.

Lemma loaders_on_missing_column_witness :
  (load_tiv_sheet [(SHEET_TIV, tiv_sheet_without_tiv)]
     = inl (missing_message (missing_fields (tiv_headers tiv_sheet_without_tiv))
              (tiv_headers tiv_sheet_without_tiv)) ∧
   "TIV/Insurable Value" ∈ missing_fields (tiv_headers tiv_sheet_without_tiv) ∧
   (∀ m, m ∈ missing_fields (tiv_headers tiv_sheet_without_tiv) ↔
         ∃ cs, (m, cs) ∈ required_aliases ∧
               pick_col (tiv_headers tiv_sheet_without_tiv) cs = None) ∧
   missing_message (missing_fields (tiv_headers tiv_sheet_without_tiv))
       (tiv_headers tiv_sheet_without_tiv)
     = ("Missing required column(s) on 'TIV Weighted Dist. - INPUT': "
        ++ join ", " (missing_fields (tiv_headers tiv_sheet_without_tiv))
        ++ newline ++ "Headers found: "
        ++ join ", " (tiv_headers tiv_sheet_without_tiv))) ∧
  (∀ (xls' : workbook) (df' : frame),
     read_sheet_any xls' RAS_SHEETS RAS_SHEETS = inr df' →
     (Forall (λ c, (occurrences c (ras_headers df') ≤ 1)%nat)
             (RAS_TEXT_COLUMNS ++ RAS_NUMERIC_COLUMNS) →
      ∃ rows, load_ras_sheet xls' = inr rows ∧ length rows = length (body df') ∧
        (COL_LOC ∉ ras_headers df' → Forall (λ r, r_loc r = "") rows) ∧
        (COL_COV ∉ ras_headers df' → Forall (λ r, r_cov r = "") rows) ∧
        (COL_ENT ∉ ras_headers df' → Forall (λ r, r_ent r = "") rows) ∧
        (COL_ADDR ∉ ras_headers df' → Forall (λ r, r_addr r = "") rows) ∧
        (COL_ROW ∉ ras_headers df' → Forall (λ r, r_row r = 0%Q) rows) ∧
        (COL_COL ∉ ras_headers df' → Forall (λ r, r_col r = 0%Q) rows)) ∧
     (¬ Forall (λ c, (occurrences c (ras_headers df') ≤ 1)%nat)
               (RAS_TEXT_COLUMNS ++ RAS_NUMERIC_COLUMNS) →
      load_ras_sheet xls' = inl ATTRIBUTE_ERROR ∨ load_ras_sheet xls' = inl TYPE_ERROR)).
Proof.
  apply (loaders_on_missing_column [(SHEET_TIV, tiv_sheet_without_tiv)]
           tiv_sheet_without_tiv "TIV/Insurable Value" TIV_NAMES).
  - reflexivity.
  - unfold required_aliases. do 3 apply list_elem_of_further. apply list_elem_of_here.
  - apply pick_col_None_iff. vm_compute. reflexivity.
Defined.

(** Two sheets on which a required column is absent and the loader does not
    raise.  The sheet "INPUT" has no "Loc #" column, and [load_ras_sheet]
    returns its row, the location blank.  The TIV sheet has no column of
    insured values; the header "Activity" contains the alias "TIV", the
    field resolves to it, and [load_tiv_sheet] returns the row, its text
    read as an insured value of zero. *)
Lemma load_ras_sheet_does_not_raise :
  (read_sheet_any [("INPUT", ras_sheet_without_loc)] RAS_SHEETS RAS_SHEETS
     = inr ras_sheet_without_loc ∧
   bool_decide (COL_LOC ∈ ras_headers ras_sheet_without_loc) = false ∧
   load_ras_sheet [("INPUT", ras_sheet_without_loc)]
     = inr [RasRow "" "Fire" "" "" 100 100]) ∧
  (Forall (λ h, h ∉ TIV_NAMES) (tiv_headers tiv_sheet_activity) ∧
   pick_col (tiv_headers tiv_sheet_activity) TIV_NAMES = Some "Activity" ∧
   contains (norm "Activity") (norm "TIV") = true ∧
   load_tiv_sheet [(SHEET_TIV, tiv_sheet_activity)]
     = inr ([TivRow "Fire" (Some "1") 100%Q 0%Q "" "" "" "" ""],
            TivCols "Coverage" "Premium" "Loc #" "Activity" None None None None None)).
Proof.
  split_and!; try (vm_compute; reflexivity).
  apply (bool_decide_unpack _). vm_compute. exact I.
Qed.

(** Two headers that read "Loc #" once trimmed: the loader raises. *)
Example load_ras_sheet_two_locs :
  occurrences COL_LOC (ras_headers ras_sheet_two_locs) = 2 ∧
  load_ras_sheet [("INPUT", ras_sheet_two_locs)] = inl ATTRIBUTE_ERROR.
Proof. split; vm_compute; reflexivity. Qed.
End LoaderInstances.


(** * Properties of the weighted allocator over a frame *)

Section MatrixCells.
Context {F : Type} {FO : FloatOps F}.
Implicit Types (mat : gmap string (gmap string F)) (l c cov : string).

Lemma zero_matrix_row (locs covs : list string) l :
  l ∈ locs →
  zero_matrix locs covs !! l = Some (list_to_map ((λ c, (c, fzero)) <$> covs)).
Proof.
  intros Hl. unfold zero_matrix.
  destruct (list_to_map _ !! l) as [inner|] eqn:Hrow.
  - apply elem_of_list_to_map_2, list_elem_of_fmap in Hrow as (l' & Heq & _).
    by simplify_eq.
  - apply not_elem_of_list_to_map in Hrow. exfalso. apply Hrow.
    rewrite <- list_fmap_compose. apply list_elem_of_fmap. by exists l.
Qed.

Lemma zero_matrix_cell (locs covs : list string) l c :
  l ∈ locs → c ∈ covs → mat_cell (zero_matrix locs covs) l c = Some fzero.
Proof.
  intros Hl Hc. unfold mat_cell. rewrite zero_matrix_row by done. simpl.
  destruct (list_to_map _ !! c) as [q|] eqn:Hcell.
  - apply elem_of_list_to_map_2, list_elem_of_fmap in Hcell as (c' & Heq & _).
    by simplify_eq.
  - apply not_elem_of_list_to_map in Hcell. exfalso. apply Hcell.
    rewrite <- list_fmap_compose. apply list_elem_of_fmap. by exists c.
Qed.

Lemma zero_matrix_rows (locs covs : list string) l :
  l ∈ locs → is_Some (zero_matrix locs covs !! l).
Proof. intros Hl. by rewrite zero_matrix_row. Qed.

(** Writing one cell changes that cell and no other. *)
Lemma set_cell_spec mat l cov v :
  is_Some (mat !! l) →
  ∃ mat', set_cell mat l cov v = Some mat' ∧
          (∀ l', is_Some (mat' !! l') ↔ is_Some (mat !! l')) ∧
          ∀ l' c', mat_cell mat' l' c'
                   = if decide (l' = l ∧ c' = cov) then Some v else mat_cell mat l' c'.
Proof.
  intros [inner Hinner]. unfold set_cell. rewrite Hinner. simpl.
  eexists. split; [done|]. split.
  - intros l'. destruct (decide (l' = l)) as [->|Hne].
    + rewrite lookup_insert_eq, Hinner. split; eauto.
    + by rewrite lookup_insert_ne.
  - intros l' c'. unfold mat_cell. destruct (decide (l' = l)) as [->|Hne].
    + rewrite lookup_insert_eq, Hinner. simpl.
      destruct (decide (c' = cov)) as [->|Hc].
      * rewrite lookup_insert_eq. by rewrite decide_True.
      * rewrite lookup_insert_ne by done. rewrite decide_False; [done|]. by intros [_ ?].
    + rewrite lookup_insert_ne by done. rewrite decide_False; [done|]. by intros [? _].
Qed.

(** Filling a column writes the allocated amounts in that column, at the
    locations allocated over, and nothing else. *)
Lemma fill_column_spec cov (alloc : gmap string F) (alloc_locs : list string) : ∀ mat,
  (∀ l, l ∈ alloc_locs → is_Some (mat !! l)) →
  ∃ mat', fill_column mat cov alloc alloc_locs = Some mat' ∧
          (∀ l, is_Some (mat' !! l) ↔ is_Some (mat !! l)) ∧
          ∀ l c, mat_cell mat' l c
                 = if decide (c = cov ∧ l ∈ alloc_locs)
                   then Some (default fzero (alloc !! l)) else mat_cell mat l c.
Proof.
  induction alloc_locs as [|a rest IH]; intros mat Hrows; simpl.
  - exists mat. split_and!; [done|done|]. intros l c.
    rewrite decide_False; [done|]. intros [_ Hl]. by apply elem_of_nil in Hl.
  - destruct (set_cell_spec mat a cov (default fzero (alloc !! a))) as (mat1 & Hset & Hr1 & Hc1).
    { apply Hrows. by left. }
    rewrite Hset. simpl.
    destruct (IH mat1) as (mat' & Hfill & Hr & Hc).
    { intros l Hl. apply Hr1, Hrows. by right. }
    exists mat'. split_and!; [done| |].
    + intros l. by rewrite Hr, Hr1.
    + intros l c. rewrite Hc, Hc1.
      destruct (decide (c = cov ∧ l ∈ rest)) as [[-> Hin]|Hn1].
      * rewrite decide_True; [done|]. split; [done|by right].
      * destruct (decide (l = a ∧ c = cov)) as [[-> ->]|Hn2].
        -- rewrite decide_True; [done|]. split; [done|by left].
        -- rewrite decide_False; [done|]. intros [-> [->|Hin]%elem_of_cons]; tauto.
Qed.
End MatrixCells.

Section CoverageLoop.
Context {F : Type} {FO : FloatOps F} {CO : CentOps F} {AS : Argsort F}.
Implicit Types (mat : gmap string (gmap string F)) (l c cov : string).

Lemma weights_for_subset tbcl (tg : gmap string F) (locs : list string) cov l :
  l ∈ (weights_for tbcl tg locs cov).2 → l ∈ locs.
Proof.
  unfold weights_for. case_bool_decide; simpl; [|done].
  unfold cov_locs_of. rewrite list_elem_of_filter. tauto.
Qed.

(** One coverage: when the body of the loop returns, the allocation of the
    coverage returned, and its column holds the allocation at the
    locations allocated over. *)
Lemma allocate_coverage_spec pbc tbcl (tg : gmap string F) (locs : list string) mat cov mat' :
  (∀ l, l ∈ locs → is_Some (mat !! l)) →
  allocate_coverage pbc tbcl tg locs mat cov = Some mat' →
  ∃ alloc,
    allocate_cents_for_coverage (default fzero (pbc !! cov))
      (weights_for tbcl tg locs cov).1 (weights_for tbcl tg locs cov).2 = Some alloc ∧
    (∀ l, is_Some (mat' !! l) ↔ is_Some (mat !! l)) ∧
    ∀ l c, mat_cell mat' l c
           = if decide (c = cov ∧ l ∈ (weights_for tbcl tg locs cov).2)
             then Some (default fzero (alloc !! l)) else mat_cell mat l c.
Proof.
  intros Hrows. unfold allocate_coverage.
  pose proof (weights_for_subset tbcl tg locs cov) as Hsub.
  destruct (weights_for tbcl tg locs cov) as [tm al]. simpl in *.
  destruct (allocate_cents_for_coverage (default fzero (pbc !! cov)) tm al)
    as [alloc|] eqn:Halloc; [|done].
  simpl. intros Hfill'.
  destruct (fill_column_spec cov alloc al mat) as (mat'' & Hfill & Hr & Hc).
  { intros l Hl. by apply Hrows, Hsub. }
  assert (mat'' = mat') as -> by congruence.
  by exists alloc.
Qed.

(** After the loop over the coverages, the allocation of every coverage
    has returned, the column of each coverage holds its allocation at the
    locations allocated over, and what was there before elsewhere. *)
Lemma allocate_coverages_spec pbc tbcl (tg : gmap string F) (locs covs : list string) :
  ∀ mat mat',
  (∀ l, l ∈ locs → is_Some (mat !! l)) →
  allocate_coverages pbc tbcl tg locs mat covs = Some mat' →
  (∀ l, is_Some (mat' !! l) ↔ is_Some (mat !! l)) ∧
  (∀ c, c ∈ covs →
     is_Some (allocate_cents_for_coverage (default fzero (pbc !! c))
                (weights_for tbcl tg locs c).1 (weights_for tbcl tg locs c).2)) ∧
  ∀ l c, mat_cell mat' l c
         = if decide (c ∈ covs ∧ l ∈ (weights_for tbcl tg locs c).2)
           then Some (default fzero
                        (default ∅ (allocate_cents_for_coverage (default fzero (pbc !! c))
                                      (weights_for tbcl tg locs c).1
                                      (weights_for tbcl tg locs c).2) !! l))
           else mat_cell mat l c.
Proof.
  induction covs as [|cov rest IH]; intros mat mat' Hrows Hloop.
  - injection Hloop as <-. split_and!; [done| |].
    + intros c Hc. by apply elem_of_nil in Hc.
    + intros l c. rewrite decide_False; [done|]. intros [Hc _]. by apply elem_of_nil in Hc.
  - cbn [allocate_coverages] in Hloop.
    destruct (allocate_coverage pbc tbcl tg locs mat cov) as [mat1|] eqn:Hstep; [|done].
    simpl in Hloop.
    destruct (allocate_coverage_spec pbc tbcl tg locs mat cov mat1 Hrows Hstep)
      as (alloc & Halloc & Hr1 & Hc1).
    destruct (IH mat1 mat') as (Hr & Hall & Hc); [|done|].
    { intros l Hl. by apply Hr1, Hrows. }
    split_and!.
    + intros l. by rewrite Hr, Hr1.
    + intros c [->|Hin]%elem_of_cons; [by rewrite Halloc|by apply Hall].
    + intros l c. rewrite Hc, Hc1.
      destruct (decide (c ∈ rest ∧ l ∈ (weights_for tbcl tg locs c).2)) as [[Hin Hl]|Hn1].
      * rewrite decide_True; [done|]. split; [by right|done].
      * destruct (decide (c = cov ∧ l ∈ (weights_for tbcl tg locs cov).2)) as [[-> Hl]|Hn2].
        -- rewrite decide_True by (split; [by left|done]). by rewrite Halloc.
        -- rewrite decide_False; [done|].
           intros [[->|Hin]%elem_of_cons Hl]; tauto.
Qed.
End CoverageLoop.

Section BuildTivMatrix.
Context {F : Type} {FO : FloatOps F} {CO : CentOps F} {AS : Argsort F}.
Implicit Types (rows : list (tiv_row F)) (l c cov : string).
Local Open Scope Z_scope.

Lemma NoDup_tiv_locs rows : NoDup (tiv_locs rows).
Proof.
  unfold tiv_locs, unique_ordered_tiv. rewrite uo_loop_first_seen.
  apply NoDup_first_seen.
Qed.

(** What [build_tiv_matrix] has done when it returns: every coverage has
    its allocation, and the cell of a location and a coverage holds the
    allocation at the locations allocated over and 0.0 elsewhere. *)
Lemma build_tiv_matrix_cells rows res :
  build_tiv_matrix rows = Some res →
  res_locs res = tiv_locs rows ∧ res_covs res = tiv_covs rows ∧
  (∀ c, c ∈ tiv_covs rows → is_Some (coverage_alloc rows c)) ∧
  ∀ l c, l ∈ tiv_locs rows → c ∈ tiv_covs rows →
    mat_cell (res_mat res) l c
    = Some (if bool_decide (l ∈ (coverage_weights rows c).2)
            then default fzero (default ∅ (coverage_alloc rows c) !! l)
            else fzero).
Proof.
  unfold build_tiv_matrix. cbv zeta. intros Hres.
  destruct (allocate_coverages _ _ _ _ _ _) as [mat|] eqn:Hloop; [|done].
  cbn [mbind option_bind] in Hres.
  destruct (mapM _ (tiv_locs rows)) as [row_vec|]; [|done].
  injection Hres as <-. cbn [res_locs res_covs res_mat].
  destruct (allocate_coverages_spec _ _ _ _ _ _ _
              (λ l Hl, zero_matrix_rows (tiv_locs rows) (tiv_covs rows) l Hl) Hloop)
    as (Hr & Hall & Hc).
  split_and!; [done|done|exact Hall|].
  intros l c Hl Hcin. rewrite Hc.
  unfold coverage_alloc, coverage_weights, coverage_premium.
  destruct (decide (c ∈ tiv_covs rows ∧ _)) as [[_ Hin]|Hn].
  - by rewrite bool_decide_eq_true_2.
  - rewrite bool_decide_eq_false_2 by tauto. by apply zero_matrix_cell.
Qed.

(** Under a premium above zero, a location whose floor share is a cent or
    more is given one cent at least, within the range. *)
Lemma positive_share (P : F) (m : gmap string F) (locs : list string) T alloc (i : nat) l f :
  NoDup locs → fle P fzero = false → py_round (to_cents P) = Some T →
  shares_in_range T (tivs_of m locs) →
  allocate_cents_for_coverage P m locs = Some alloc →
  locs !! i = Some l → floor_shares T (tivs_of m locs) !! i = Some f → 1 ≤ f →
  ∃ z : Z, alloc !! l = Some (dollars z) ∧ 1 ≤ z.
Proof.
  intros Hnd HP HT Hrange Halloc Hl Hf Hone.
  assert (locs ≠ []) as Hne by (intros ->; done).
  rewrite (allocate_cents_for_coverage_pos P m locs T Hne HP HT) in Halloc.
  destruct (apportion T (tivs_of m locs)) as [cents|] eqn:Hap; [|done].
  simpl in Halloc. injection Halloc as <-.
  destruct (apportion_spec T (tivs_of m locs) Hrange) as [_ Hres].
  destruct (Hres cents Hap) as (_ & Hlen & _ & Hfl). rewrite length_tivs_of in Hlen.
  destruct (to_dict_dollars locs cents Hnd Hlen i l Hl) as (c & Hc & Hq).
  exists c. split; [done|].
  pose proof (Forall2_lookup_lr _ _ _ _ _ _ Hfl Hf Hc) as Hcs. simpl in Hcs. lia.
Qed.

(** C5, as amended.  When [build_tiv_matrix] returns, for each coverage the
    weights are those of the coverage, over the locations with a positive
    weight under it, when there are at least two such locations, and the
    global weights over all locations otherwise; the column of the
    coverage holds the allocation of its premium at the locations allocated
    over and 0.0 at the others; and under the global weights and a premium
    above zero every location whose floor share of the rounded premium is
    a cent or more receives one cent at least, within the 64-bit range. *)
Theorem build_tiv_matrix_weight_policy rows res :
  build_tiv_matrix rows = Some res →
  res_locs res = tiv_locs rows ∧ res_covs res = tiv_covs rows ∧
  ∀ cov, cov ∈ tiv_covs rows →
    let cov_locs := cov_locs_of (tiv_by_coverage rows) (tiv_locs rows) cov in
    coverage_weights rows cov
      = (if bool_decide (2 ≤ length cov_locs)%nat
         then (list_to_map
                 ((λ l, (l, default fzero (tiv_by_coverage rows !! (cov, l)))) <$> cov_locs),
               cov_locs)
         else (tiv_global rows, tiv_locs rows)) ∧
    ∃ alloc, coverage_alloc rows cov = Some alloc ∧
      (∀ l, l ∈ tiv_locs rows →
         mat_cell (res_mat res) l cov
         = Some (if bool_decide (l ∈ (coverage_weights rows cov).2)
                 then default fzero (alloc !! l) else fzero)) ∧
      ((length cov_locs < 2)%nat → fle (coverage_premium rows cov) fzero = false →
       ∀ T, py_round (to_cents (coverage_premium rows cov)) = Some T →
            shares_in_range T (tivs_of (tiv_global rows) (tiv_locs rows)) →
       ∀ (i : nat) l f,
         tiv_locs rows !! i = Some l →
         floor_shares T (tivs_of (tiv_global rows) (tiv_locs rows)) !! i = Some f →
         1 ≤ f →
         ∃ z : Z, mat_cell (res_mat res) l cov = Some (dollars z) ∧ 1 ≤ z).
Proof.
  intros Hres.
  destruct (build_tiv_matrix_cells rows res Hres) as (Hlocs & Hcovs & Hall & Hcell).
  split_and!; [done|done|]. intros cov Hcov.
  set (cov_locs := cov_locs_of (tiv_by_coverage rows) (tiv_locs rows) cov).
  split.
  { unfold coverage_weights, weights_for. reflexivity. }
  destruct (Hall cov Hcov) as [alloc Halloc].
  exists alloc. split; [exact Halloc|]. split.
  - intros l Hl. rewrite Hcell by done. by rewrite Halloc.
  - intros Hfew HP T HT Hrange i l f Hl Hf Hone.
    assert (coverage_weights rows cov = (tiv_global rows, tiv_locs rows)) as Hcw.
    { unfold coverage_weights, weights_for. fold cov_locs.
      rewrite bool_decide_eq_false_2 by lia. done. }
    unfold coverage_alloc in Halloc. rewrite Hcw in Halloc. cbn [fst snd] in Halloc.
    destruct (positive_share (coverage_premium rows cov) (tiv_global rows) (tiv_locs rows)
                T alloc i l f (NoDup_tiv_locs rows) HP HT Hrange Halloc Hl Hf Hone)
      as (c & Hq & Hc).
    exists c. split; [|done].
    rewrite Hcell by (done || by eapply list_elem_of_lookup_2).
    unfold coverage_alloc. rewrite Hcw. cbn [fst snd]. rewrite Halloc. simpl.
    rewrite bool_decide_eq_true_2 by (by eapply list_elem_of_lookup_2).
    by rewrite Hq.
Qed.
End BuildTivMatrix.

Section TivMatrixInstances.
Import PrimFloat.
Local Open Scope string_scope.

(** The column of coverage "A" when location "2" has no weight: the whole
    premium is at location "1", the only location with a weight under "A";
    and with weights 75 and 25 and a premium of one cent, the cent is at
    location "1". *)
Lemma build_tiv_matrix_single_location_split :
  (∃ res, build_tiv_matrix tiv_rows_single_weight = Some res ∧
     res_locs res = ["1"; "2"] ∧
     cov_locs_of (tiv_by_coverage tiv_rows_single_weight)
       (tiv_locs tiv_rows_single_weight) "A" = ["1"] ∧
     (coverage_weights tiv_rows_single_weight "A").2 = ["1"; "2"] ∧
     mat_cell (res_mat res) "1" "A" = Some 100%float ∧
     mat_cell (res_mat res) "2" "A" = Some 0%float) ∧
  (∃ res, build_tiv_matrix tiv_rows_one_cent = Some res ∧
     res_locs res = ["1"; "2"] ∧
     cov_locs_of (tiv_by_coverage tiv_rows_one_cent)
       (tiv_locs tiv_rows_one_cent) "A" = ["1"] ∧
     tivs_of (tiv_global tiv_rows_one_cent) (tiv_locs tiv_rows_one_cent)
       = [75; 25]%float ∧
     (coverage_weights tiv_rows_one_cent "A").2 = ["1"; "2"] ∧
     mat_cell (res_mat res) "1" "A" = Some 0.01%float ∧
     mat_cell (res_mat res) "2" "A" = Some 0%float).
Proof.
  split; (eexists; split; [vm_compute; reflexivity|]); vm_compute; done.
Qed.

(** Scenario: one location with a weight under "A", two with a positive
    global weight: the premium of 100.00 is split 50.00 / 50.00. *)
Example build_tiv_matrix_fallback_split :
  ∃ res, build_tiv_matrix tiv_rows_equal_weights = Some res ∧
    mat_cell (res_mat res) "1" "A" = Some 50%float ∧
    mat_cell (res_mat res) "2" "A" = Some 50%float ∧
    res_row_vec res = [50; 50]%float ∧
    res_col_vec res = [100; 0]%float.
Proof.
  eexists. split; [vm_compute; reflexivity|]. vm_compute. done.
Qed.

Lemma build_tiv_matrix_weight_policy_witness :
  let rows := tiv_rows_equal_weights in
  let res := default (TivResult [] [] ∅ [] []) (build_tiv_matrix rows) in
  res_locs res = tiv_locs rows ∧ res_covs res = tiv_covs rows ∧
  ∀ cov, cov ∈ tiv_covs rows →
    ∃ alloc, coverage_alloc rows cov = Some alloc ∧
      ∀ l, l ∈ tiv_locs rows →
        mat_cell (res_mat res) l cov
        = Some (if bool_decide (l ∈ (coverage_weights rows cov).2)
                then default 0%float (alloc !! l) else 0%float).
Proof.
  intros rows res.
  destruct (build_tiv_matrix_weight_policy rows res) as (Hlocs & Hcovs & Hcov).
  { vm_compute. reflexivity. }
  split_and!; [exact Hlocs|exact Hcovs|].
  intros cov Hin. destruct (Hcov cov Hin) as (_ & alloc & Halloc & Hcells & _).
  exists alloc. split; [exact Halloc|exact Hcells].
Defined.
End TivMatrixInstances.


(** * Conservation of the premium in the weighted matrix *)

Section ColumnTotals.
Context {F : Type} {FO : FloatOps F} {CO : CentOps F} {AS : Argsort F}.
Implicit Types (rows : list (tiv_row F)) (l cov : string).
Local Open Scope Z_scope.

(** Within the range, what the allocator returns for a premium above zero:
    cents that are not negative and add up to the rounded premium, read
    through the dictionary location by location. *)
Lemma allocate_cents_for_coverage_cents (P : F) (m : gmap string F)
    (locs : list string) T alloc :
  locs ≠ [] → NoDup locs → fle P fzero = false →
  py_round (to_cents P) = Some T → shares_in_range T (tivs_of m locs) →
  allocate_cents_for_coverage P m locs = Some alloc →
  ∃ cents, length cents = length locs ∧ Forall (λ c, 0 ≤ c) cents ∧ zsum cents = T ∧
    ∀ (i : nat) l, locs !! i = Some l →
      ∃ c, cents !! i = Some c ∧ alloc !! l = Some (dollars c).
Proof.
  intros Hne Hnd HP HT Hrange Halloc.
  rewrite (allocate_cents_for_coverage_pos P m locs T Hne HP HT) in Halloc.
  destruct (apportion T (tivs_of m locs)) as [cents|] eqn:Hap; [|done].
  simpl in Halloc. injection Halloc as <-.
  destruct (apportion_spec T (tivs_of m locs) Hrange) as [_ Hres].
  destruct (Hres cents Hap) as (_ & Hlen & Hsum & Hfl). rewrite length_tivs_of in Hlen.
  exists cents. split_and!; [done| |done|by apply to_dict_dollars].
  destruct Hrange as [Hnn _]. apply Forall_lookup. intros i c Hc.
  destruct (Forall2_lookup_r _ _ _ _ _ Hfl Hc) as (f & Hf & Hfc).
  rewrite Forall_lookup in Hnn. specialize (Hnn i f Hf). simpl in Hnn. lia.
Qed.

Lemma foldl_insert_all_zero (kvs : list (string * F)) : ∀ (m0 : gmap string F),
  Forall (λ kv, kv.2 = fzero) kvs → (∀ k x, m0 !! k = Some x → x = fzero) →
  ∀ k x, foldl (λ m lv, <[lv.1 := lv.2]> m) m0 kvs !! k = Some x → x = fzero.
Proof.
  induction kvs as [|[k0 v0] kvs IH]; intros m0 Hall Hm0 k x; simpl; [apply Hm0|].
  apply IH; [by inversion Hall|]. intros k' x'.
  destruct (decide (k' = k0)) as [->|Hne].
  - rewrite lookup_insert_eq. intros [= <-]. by inversion Hall.
  - rewrite lookup_insert_ne by done. apply Hm0.
Qed.

(** A premium that is not above zero hands out nothing. *)
Lemma allocate_cents_for_coverage_nonpos (P : F) (m : gmap string F)
    (locs : list string) l :
  fle P fzero = true →
  ∃ alloc, allocate_cents_for_coverage P m locs = Some alloc ∧
           default fzero (alloc !! l) = fzero.
Proof.
  intros HP. unfold allocate_cents_for_coverage. case_bool_decide as Hn.
  - eexists. split; [reflexivity|]. by rewrite lookup_empty.
  - rewrite HP. eexists. split; [reflexivity|].
    destruct (to_dict locs (replicate (length locs) fzero) !! l) as [q|] eqn:Hq;
      [|reflexivity].
    simpl. unfold to_dict in Hq.
    apply (foldl_insert_all_zero _ ∅) in Hq; [done| |].
    + apply Forall_forall. intros [k x] Hin. apply elem_of_zip_r in Hin.
      simpl in *. by apply elem_of_replicate in Hin as [-> _].
    + intros k x. by rewrite lookup_empty.
Qed.

Lemma coverage_weights_locs rows cov :
  (coverage_weights rows cov).2
  = (if bool_decide (2 ≤ length (cov_locs_of (tiv_by_coverage rows) (tiv_locs rows) cov))%nat
     then cov_locs_of (tiv_by_coverage rows) (tiv_locs rows) cov else tiv_locs rows).
Proof. unfold coverage_weights, weights_for. by case_bool_decide. Qed.

(** The locations a coverage is allocated over are distinct locations of
    the frame, and there is one when the frame has a location. *)
Lemma coverage_weights_NoDup rows cov : NoDup (coverage_weights rows cov).2.
Proof.
  rewrite coverage_weights_locs. case_bool_decide.
  - unfold cov_locs_of. apply NoDup_filter, NoDup_tiv_locs.
  - apply NoDup_tiv_locs.
Qed.

Lemma coverage_weights_nonempty rows cov :
  tiv_locs rows ≠ [] → (coverage_weights rows cov).2 ≠ [].
Proof.
  intros Hne. rewrite coverage_weights_locs. case_bool_decide as Hlen; [|done].
  intros Hnil. rewrite Hnil in Hlen. simpl in Hlen. lia.
Qed.

Lemma coverage_weights_sub rows cov l :
  l ∈ (coverage_weights rows cov).2 → l ∈ tiv_locs rows.
Proof. apply weights_for_subset. Qed.

(** The cell of a coverage whose premium is not above zero. *)
Lemma column_cell_nonpos rows cov l :
  fle (coverage_premium rows cov) fzero = true →
  (if bool_decide (l ∈ (coverage_weights rows cov).2)
   then default fzero (default ∅ (coverage_alloc rows cov) !! l) else fzero) = fzero.
Proof.
  intros HP. case_bool_decide; [|reflexivity].
  destruct (allocate_cents_for_coverage_nonpos (coverage_premium rows cov)
              (coverage_weights rows cov).1 (coverage_weights rows cov).2 l HP)
    as (alloc & Halloc & Hz).
  unfold coverage_alloc. by rewrite Halloc.
Qed.

Lemma column_zero rows res cov l :
  build_tiv_matrix rows = Some res → cov ∈ tiv_covs rows → l ∈ tiv_locs rows →
  fle (coverage_premium rows cov) fzero = true →
  mat_cell (res_mat res) l cov = Some fzero.
Proof.
  intros Hres Hcov Hl HP.
  destruct (build_tiv_matrix_cells rows res Hres) as (_ & _ & _ & Hcell).
  rewrite Hcell by done. f_equal. by apply column_cell_nonpos.
Qed.

(** X1.  A coverage with a premium above zero is handed out to the cent
    down its column, within the 64-bit range: when [build_tiv_matrix]
    returns on a frame with a location, the floor shares of the rounded
    premium [T] being not negative and below [2^63] together, the cells of
    the column at the locations allocated over are [c / 100.0] for cents
    [c] that are not negative and add up to [T], and the other cells of
    the column are 0.0. *)
Theorem build_tiv_matrix_column_total rows res cov T :
  build_tiv_matrix rows = Some res → cov ∈ tiv_covs rows → tiv_locs rows ≠ [] →
  fle (coverage_premium rows cov) fzero = false →
  py_round (to_cents (coverage_premium rows cov)) = Some T →
  shares_in_range T (tivs_of (coverage_weights rows cov).1 (coverage_weights rows cov).2) →
  ∃ cents,
    length cents = length (coverage_weights rows cov).2 ∧
    Forall (λ c, 0 ≤ c) cents ∧ zsum cents = T ∧
    (∀ (i : nat) l, (coverage_weights rows cov).2 !! i = Some l →
       ∃ c, cents !! i = Some c ∧ mat_cell (res_mat res) l cov = Some (dollars c)) ∧
    (∀ l, l ∈ tiv_locs rows → l ∉ (coverage_weights rows cov).2 →
       mat_cell (res_mat res) l cov = Some fzero).
Proof.
  intros Hres Hcov Hne HP HT Hrange.
  destruct (build_tiv_matrix_cells rows res Hres) as (_ & _ & Hall & Hcell).
  destruct (Hall cov Hcov) as [alloc Halloc].
  destruct (allocate_cents_for_coverage_cents (coverage_premium rows cov)
              (coverage_weights rows cov).1 (coverage_weights rows cov).2 T alloc)
    as (cents & Hlen & Hnn & Hsum & Hread);
    [by apply coverage_weights_nonempty|apply coverage_weights_NoDup|done..|].
  exists cents. split_and!; [done|done|done| |].
  - intros i l Hl. destruct (Hread i l Hl) as (c & Hc & Hq).
    exists c. split; [done|].
    assert (l ∈ (coverage_weights rows cov).2) as Hin by (by eapply list_elem_of_lookup_2).
    rewrite Hcell by (by (apply coverage_weights_sub in Hin) || done).
    rewrite bool_decide_eq_true_2 by done. rewrite Halloc. simpl. by rewrite Hq.
  - intros l Hl Hout. rewrite Hcell by done. by rewrite bool_decide_eq_false_2.
Qed.
End ColumnTotals.

Section ColumnZero.
Context {AS : Argsort Q}.
Implicit Types (rows : list (tiv_row Q)) (l cov : string).

(** X2.  A coverage whose premium is zero or negative leaves its column at
    0.0 at every location. *)
Theorem build_tiv_matrix_column_zero rows res cov l :
  build_tiv_matrix rows = Some res → cov ∈ tiv_covs rows → l ∈ tiv_locs rows →
  (coverage_premium rows cov <= 0)%Q →
  mat_cell (res_mat res) l cov = Some 0%Q.
Proof.
  intros Hres Hcov Hl HP. apply (column_zero rows res cov l Hres Hcov Hl).
  by apply Qle_bool_iff.
Qed.
End ColumnZero.


(** * Trimming and header clean-up *)

Section StripFacts.
Implicit Types (s t : string) (c : ascii).


Lemma chars_inj s t : list_ascii_of_string s = list_ascii_of_string t → s = t.
Proof.
  intros Heq. rewrite <- (string_of_list_ascii_of_string s),
    <- (string_of_list_ascii_of_string t). by rewrite Heq.
Qed.

Lemma chars_rev_app s : ∀ t, list_ascii_of_string (String.rev_app s t) = reverse (list_ascii_of_string s) ++ list_ascii_of_string t.
Proof.
  induction s as [|c s IH]; intros t; simpl; [done|].
  rewrite IH, reverse_cons. simpl. by rewrite <- app_assoc.
Qed.

Lemma chars_rev s : list_ascii_of_string (String.rev s) = reverse (list_ascii_of_string s).
Proof. unfold String.rev. rewrite chars_rev_app. simpl. by rewrite app_nil_r. Qed.

Lemma rev_rev s : String.rev (String.rev s) = s.
Proof. apply chars_inj. by rewrite !chars_rev, reverse_involutive. Qed.

(** What [lstrip] removes is white space, and what it leaves does not start
    with white space. *)
Lemma lstrip_split s :
  ∃ pre, list_ascii_of_string s = pre ++ list_ascii_of_string (lstrip s) ∧
         Forall (λ c, py_isspace c = true) pre.
Proof.
  induction s as [|c s (pre & Heq & Hpre)]; simpl.
  - by exists [].
  - destruct (py_isspace c) eqn:Hc.
    + exists (c :: pre). simpl. rewrite Heq. split; [done|]. by constructor.
    + by exists [].
Qed.

Lemma lstrip_head s c r : list_ascii_of_string (lstrip s) = c :: r → py_isspace c = false.
Proof.
  induction s as [|c' s IH]; simpl; [done|].
  destruct (py_isspace c') eqn:Hc; [done|]. simpl. by intros [= <- _].
Qed.

Lemma lstrip_fixed s :
  (∀ c r, list_ascii_of_string s = c :: r → py_isspace c = false) → lstrip s = s.
Proof.
  destruct s as [|c s]; simpl; [done|]. intros Hhd.
  by rewrite (Hhd c (list_ascii_of_string s)).
Qed.

Lemma lstrip_idemp s : lstrip (lstrip s) = lstrip s.
Proof. apply lstrip_fixed. intros c r. apply lstrip_head. Qed.

(** [strip] leaves a trimmed string as it is. *)
Lemma strip_idemp s : strip (strip s) = strip s.
Proof.
  unfold strip. set (t := lstrip s). set (u := lstrip (String.rev t)).
  assert (lstrip (String.rev u) = String.rev u) as ->.
  { apply lstrip_fixed. intros c r Hcr. rewrite chars_rev in Hcr.
    destruct (lstrip_split (String.rev t)) as (pre & Heq & _). fold u in Heq.
    rewrite chars_rev in Heq. apply (f_equal reverse) in Heq.
    rewrite reverse_involutive, reverse_app, Hcr in Heq. simpl in Heq.
    by apply (lstrip_head s c (r ++ reverse pre)). }
  rewrite rev_rev. unfold u. by rewrite lstrip_idemp.
Qed.





Lemma strip_empty : strip "" = ""%string.
Proof. reflexivity. Qed.
End StripFacts.


(** * What the loaders resolve and return *)

Section PickColResult.
Implicit Types (d : list (string * string)) (k v : string).

(** A loop that returns at its first hit returns the hit of the first
    element that has one. *)
Lemma first_some_Some {A B} (f : A → option B) (l : list A) y :
  first_some f l = Some y ↔
  ∃ (i : nat) x, l !! i = Some x ∧ f x = Some y ∧
                 ∀ (j : nat) x', (j < i)%nat → l !! j = Some x' → f x' = None.
Proof.
  induction l as [|x l IH]; simpl.
  - split; [done|]. by intros (i & x & Hl & _).
  - destruct (f x) eqn:Hfx.
    + split.
      * intros [= ->]. exists 0%nat, x. split_and!; [done|done|]. intros; lia.
      * intros (i & x' & Hl & Hf & Hprev). destruct i as [|i].
        -- simpl in Hl. injection Hl as <-. congruence.
        -- specialize (Hprev 0%nat x ltac:(lia) eq_refl). congruence.
    + rewrite IH. split.
      * intros (i & x' & Hl & Hf & Hprev). exists (S i), x'. split_and!; [done|done|].
        intros [|j] x'' Hj Hl'; simpl in Hl'.
        -- by injection Hl' as <-.
        -- apply (Hprev j); [lia|done].
      * intros (i & x' & Hl & Hf & Hprev). destruct i as [|i].
        -- simpl in Hl. injection Hl as <-. congruence.
        -- exists i, x'. split_and!; [done|done|].
           intros j x'' Hj Hl'. apply (Hprev (S j)); [lia|done].
Qed.

Lemma dict_get_Some_elem k v d : dict_get k d = Some v → (k, v) ∈ d.
Proof.
  induction d as [|[k' v'] d IH]; simpl; [done|].
  destruct (String.eqb k k') eqn:Hk.
  - apply String.eqb_eq in Hk as ->. intros [= ->]. by left.
  - intros Hg. right. by apply IH.
Qed.

Lemma dict_get_None k d : dict_get k d = None ↔ k ∉ d.*1.
Proof.
  induction d as [|[k' v'] d IH]; simpl.
  - split; [|done]. intros _ Hin. by apply elem_of_nil in Hin.
  - destruct (String.eqb k k') eqn:Hk.
    + apply String.eqb_eq in Hk as ->. split; [done|]. intros Hn. exfalso. apply Hn. by left.
    + apply String.eqb_neq in Hk. rewrite IH, not_elem_of_cons. tauto.
Qed.

Lemma dict_put_entries (P : string * string → Prop) k v d :
  Forall P d → P (k, v) → Forall P (dict_put k v d).
Proof.
  induction d as [|[k' v'] d IH]; simpl; intros Hall Hkv.
  - by constructor.
  - inversion Hall; subst. destruct (String.eqb k k') eqn:Hk.
    + apply String.eqb_eq in Hk as <-. by constructor.
    + constructor; [done|by apply IH].
Qed.

(** Every entry of the normal-form dictionary is a header under its normal
    form. *)
Lemma norm_map_entries (headers : list string) :
  Forall (λ kv, kv.1 = norm kv.2 ∧ kv.2 ∈ headers) (norm_map headers).
Proof.
  unfold norm_map.
  assert (Hgen : ∀ (hs : list string) d,
            Forall (λ kv, kv.1 = norm kv.2 ∧ kv.2 ∈ headers) d →
            (∀ h, h ∈ hs → h ∈ headers) →
            Forall (λ kv, kv.1 = norm kv.2 ∧ kv.2 ∈ headers)
                   (foldl (λ d c, dict_put (norm c) c d) d hs)).
  { induction hs as [|h hs IH]; intros d Hd Hsub; simpl; [done|].
    apply IH.
    - apply dict_put_entries; [done|]. simpl. split; [done|]. apply Hsub. by left.
    - intros h' Hh'. apply Hsub. by right. }
  apply Hgen; [constructor|done].
Qed.

Lemma pick_col_Some_header (headers candidates : list string) h :
  pick_col headers candidates = Some h →
  h ∈ clean_header <$> headers ∧
  ∃ cand, cand ∈ candidates ∧ contains (norm h) (norm cand) = true.
Proof.
  unfold pick_col. set (nm := norm_map (clean_header <$> headers)).
  pose proof (norm_map_entries (clean_header <$> headers)) as Hent. fold nm in Hent.
  rewrite Forall_forall in Hent.
  destruct (first_some (λ cand, dict_get (norm cand) nm) candidates) as [orig|] eqn:H1.
  - intros [= ->]. apply first_some_Some in H1 as (i & cand & Hl & Hg & _).
    apply dict_get_Some_elem, Hent in Hg as [Hk Hh]. simpl in *.
    split; [done|]. exists cand. split; [by eapply list_elem_of_lookup_2|].
    rewrite <- Hk. apply contains_refl.
  - intros H2. apply first_some_Some in H2 as (i & cand & Hl & Hg & _).
    apply first_some_Some in Hg as (j & [k v] & Hkv & Hc & _). simpl in Hc.
    destruct (contains k (norm cand)) eqn:Hcon; [|done]. injection Hc as ->.
    apply list_elem_of_lookup_2, Hent in Hkv as [Hk Hh]. simpl in *.
    split; [done|]. exists cand. split; [by eapply list_elem_of_lookup_2|].
    by rewrite <- Hk.
Qed.

(** X5.  The header [pick_col] resolves to is a header of the frame, cleaned,
    and its normal form contains that of one of the candidates. *)
Theorem pick_col_returns_header (headers candidates : list string) h :
  pick_col headers candidates = Some h →
  h ∈ clean_header <$> headers ∧
  ∃ cand, cand ∈ candidates ∧ contains (norm h) (norm cand) = true.
Proof. apply pick_col_Some_header. Qed.

(** X6.  A header equal in normal form to a candidate is preferred to one that
    only contains a candidate: [pick_col] resolves to a header equal in
    normal form to the first candidate that has such a header. *)
Theorem pick_col_exact_match_first (headers candidates : list string) (i : nat) cand :
  candidates !! i = Some cand →
  (∃ c, c ∈ headers ∧ norm (clean_header c) = norm cand) →
  (∀ (j : nat) cand', (j < i)%nat → candidates !! j = Some cand' →
     ∀ c, c ∈ headers → norm (clean_header c) ≠ norm cand') →
  ∃ h, pick_col headers candidates = Some h ∧
       h ∈ clean_header <$> headers ∧ norm h = norm cand.
Proof.
  intros Hi (c & Hc & Hnorm) Hfirst.
  unfold pick_col. set (nm := norm_map (clean_header <$> headers)).
  pose proof (norm_map_entries (clean_header <$> headers)) as Hent. fold nm in Hent.
  rewrite Forall_forall in Hent.
  assert (∀ key, key ∈ nm.*1 ↔ ∃ c, c ∈ headers ∧ key = norm (clean_header c)) as Hkeys.
  { intros key. unfold nm. rewrite norm_map_keys. split.
    - intros (c' & Hc' & ->). apply list_elem_of_fmap in Hc' as (c0 & -> & Hc0). by exists c0.
    - intros (c0 & Hc0 & ->). exists (clean_header c0). split; [|done].
      apply list_elem_of_fmap. by exists c0. }
  destruct (dict_get (norm cand) nm) as [h|] eqn:Hg.
  2: { apply dict_get_None in Hg. exfalso. apply Hg, Hkeys. by exists c. }
  assert (first_some (λ cand, dict_get (norm cand) nm) candidates = Some h) as ->.
  { apply first_some_Some. exists i, cand. split_and!; [done|done|].
    intros j cand' Hj Hl. apply dict_get_None. intros (c0 & Hc0 & Heq)%Hkeys.
    by apply (Hfirst j cand' Hj Hl c0). }
  exists h. apply dict_get_Some_elem, Hent in Hg as [Hk Hh]. simpl in *. done.
Qed.
End PickColResult.

Section ReadSheet.

Lemma sheet_absent (xls : workbook) (name : string) :
  list_find (λ sf : string * frame, sf.1 = name) xls = None ↔ name ∉ xls.*1.
Proof.
  rewrite list_find_None, Forall_forall. split.
  - intros Hall Hin. apply list_elem_of_fmap in Hin as (sf & -> & Hsf). by apply (Hall sf).
  - intros Hn sf Hsf Heq. apply Hn. apply list_elem_of_fmap. by exists sf.
Qed.

Lemma read_sheet_any_spec (xls : workbook) (all : list string) :
  ∀ candidates : list string,
  (∀ df, read_sheet_any xls candidates all = inr df ↔
     ∃ (i : nat) name, candidates !! i = Some name ∧
       (∃ k, list_find (λ sf : string * frame, sf.1 = name) xls = Some (k, (name, df))) ∧
       ∀ (j : nat) n, (j < i)%nat → candidates !! j = Some n → n ∉ xls.*1) ∧
  (∀ msg, read_sheet_any xls candidates all = inl msg ↔
     (∀ n, n ∈ candidates → n ∉ xls.*1) ∧
     msg = ("None of the sheets found: " ++ join ", " all)%string).
Proof.
  induction candidates as [|name rest [IHr IHl]]; simpl.
  - split.
    + intros df. split; [done|]. by intros (i & n & Hl & _).
    + intros msg. split.
      * intros [= <-]. split; [|done]. intros n Hn. by apply elem_of_nil in Hn.
      * by intros [_ ->].
  - destruct (list_find (λ sf : string * frame, sf.1 = name) xls)
      as [[k [nm df0]]|] eqn:Hfind.
    + pose proof Hfind as Hf. apply list_find_Some in Hf as (_ & Hnm & _).
      simpl in Hnm. subst nm. split.
      * intros df. split.
        -- intros [= ->]. exists 0%nat, name. split_and!; [done|by exists k|]. intros; lia.
        -- intros (i & n & Hl & (k' & Hk') & Hprev). destruct i as [|i].
           ++ simpl in Hl. injection Hl as <-. rewrite Hfind in Hk'. by simplify_eq.
           ++ exfalso. apply (Hprev 0%nat name); [lia|done|].
              apply list_find_Some in Hfind as (Hlk & _ & _).
              apply list_elem_of_fmap. exists (name, df0). split; [done|].
              by eapply list_elem_of_lookup_2.
      * intros msg. split; [done|]. intros [Hall _]. exfalso.
        apply (Hall name); [by left|].
        apply list_find_Some in Hfind as (Hlk & _ & _).
        apply list_elem_of_fmap. exists (name, df0). split; [done|].
        by eapply list_elem_of_lookup_2.
    + apply sheet_absent in Hfind. split.
      * intros df. rewrite IHr. split.
        -- intros (i & n & Hl & Hk & Hprev). exists (S i), n. split_and!; [done|done|].
           intros [|j] n' Hj Hl'; simpl in Hl'.
           ++ by injection Hl' as <-.
           ++ apply (Hprev j); [lia|done].
        -- intros (i & n & Hl & (k & Hk) & Hprev). destruct i as [|i].
           ++ simpl in Hl. injection Hl as <-. apply list_find_Some in Hk as (Hlk & _ & _).
              exfalso. apply Hfind. apply list_elem_of_fmap. exists (name, df).
              split; [done|]. by eapply list_elem_of_lookup_2.
           ++ exists i, n. split_and!; [done|by exists k|].
              intros j n' Hj Hl'. apply (Hprev (S j)); [lia|done].
      * intros msg. rewrite IHl. split.
        -- intros [Hall ->]. split; [|done].
           intros n [->|Hn]%elem_of_cons; [done|by apply Hall].
        -- intros [Hall ->]. split; [|done]. intros n Hn. apply Hall. by right.
Qed.

(** X7.  [read_sheet_any] opens the first candidate, in the order given, that is
    a sheet of the workbook, and raises, naming all the candidates, exactly
    when none is. *)
Theorem read_sheet_any_first (xls : workbook) (all : list string) :
  ∀ candidates : list string,
  (∀ df, read_sheet_any xls candidates all = inr df ↔
     ∃ (i : nat) name, candidates !! i = Some name ∧
       (∃ k, list_find (λ sf : string * frame, sf.1 = name) xls = Some (k, (name, df))) ∧
       ∀ (j : nat) n, (j < i)%nat → candidates !! j = Some n → n ∉ xls.*1) ∧
  (∀ msg, read_sheet_any xls candidates all = inl msg ↔
     (∀ n, n ∈ candidates → n ∉ xls.*1) ∧
     msg = ("None of the sheets found: " ++ join ", " all)%string).
Proof. apply read_sheet_any_spec. Qed.
End ReadSheet.

Section LoadedRows.
Local Open Scope string_scope.

Lemma ras_text_clean (x : cell) :
  lower (ras_text x) ≠ "nan" ∧ strip (ras_text x) = ras_text x.
Proof.
  unfold ras_text. destruct (String.eqb (lower (strip (as_str x))) "nan") eqn:Hnan.
  - split; [done|reflexivity].
  - apply String.eqb_neq in Hnan. split; [done|apply strip_idemp].
Qed.

(** X8.  The frame [load_ras_sheet] returns has the rows of the sheet, its four
    text columns trimmed and free of the text "nan" in any letter case; so
    [unique_ordered] on its locations drops the blanks and the repetitions
    only, and returns no "nan". *)
Theorem load_ras_sheet_text_clean (xls : workbook) (rows : list ras_row) :
  load_ras_sheet xls = inr rows →
  (∃ df, read_sheet_any xls RAS_SHEETS RAS_SHEETS = inr df ∧
         length rows = length (body df)) ∧
  Forall (λ r, Forall (λ s, lower s ≠ "nan" ∧ strip s = s)
                      [r_loc r; r_cov r; r_ent r; r_addr r]) rows ∧
  unique_ordered_ras (r_loc <$> rows)
    = first_seen (filter (λ v, nonempty v = true) (r_loc <$> rows)) ∧
  ∀ v, v ∈ unique_ordered_ras (r_loc <$> rows) → v ≠ "" ∧ lower v ≠ "nan".
Proof.
  unfold load_ras_sheet.
  destruct (read_sheet_any xls RAS_SHEETS RAS_SHEETS) as [msg|df] eqn:Hread; [done|].
  cbv zeta.
  destruct (existsb _ RAS_TEXT_COLUMNS); [done|].
  destruct (existsb _ RAS_NUMERIC_COLUMNS); [done|].
  intros [= <-].
  set (rows := _ <$> body df).
  assert (Hclean : Forall (λ r, Forall (λ s, lower s ≠ "nan" ∧ strip s = s)
                                 [r_loc r; r_cov r; r_ent r; r_addr r]) rows).
  { unfold rows. apply Forall_fmap, Forall_forall. intros row _. simpl.
    repeat constructor; apply ras_text_clean. }
  assert (Hstrip : strip <$> (r_loc <$> rows) = r_loc <$> rows).
  { rewrite <- list_fmap_compose. apply list_fmap_ext. intros i r Hr. simpl.
    rewrite Forall_forall in Hclean. specialize (Hclean r (list_elem_of_lookup_2 _ _ _ Hr)).
    inversion Hclean as [|? ? [_ Hs] _]; subst. exact Hs. }
  assert (Huo : unique_ordered_ras (r_loc <$> rows)
                = first_seen (filter (λ v, nonempty v = true) (r_loc <$> rows))).
  { unfold unique_ordered_ras. rewrite uo_loop_first_seen. unfold kept_labels.
    by rewrite Hstrip. }
  split_and!.
  - exists df. split; [done|]. unfold rows. by rewrite length_fmap.
  - exact Hclean.
  - exact Huo.
  - intros v. rewrite Huo, elem_of_first_seen, list_elem_of_filter, list_elem_of_fmap.
    intros [Hne (r & -> & Hr)]. split; [by apply nonempty_true|].
    rewrite Forall_forall in Hclean. specialize (Hclean r Hr).
    inversion Hclean as [|? ? [Hs _] _]; subst. exact Hs.
Qed.


Lemma pretty_N_go_nonempty (x : N) : ∀ s, s ≠ "" → pretty_N_go x s ≠ "".
Proof.
  induction (N.lt_wf_0 x) as [x _ IH]. intros s Hs.
  destruct (decide (x = 0)%N) as [->|Hx].
  - by rewrite pretty_N_go_0.
  - rewrite pretty_N_go_step by lia. apply IH; [|done].
    apply N.div_lt; lia.
Qed.

Lemma pretty_Z_nonempty (z : Z) : pretty z ≠ "".
Proof.
  destruct z as [|p|p]; [done| |done].
  change (pretty (Z.pos p)) with (pretty_N_go (N.pos p) "").
  rewrite pretty_N_go_step by lia. by apply pretty_N_go_nonempty.
Qed.

Lemma normalize_loc_Some (x : cell) s :
  normalize_loc x = Some s →
  s ≠ "" ∧ (s = clean_text x ∨
            ∃ f, clean_float x = Some f ∧ is_integer f = true ∧ s = pretty (Qfloor f)).
Proof.
  unfold normalize_loc. destruct (String.eqb (clean_text x) "") eqn:He; [done|].
  apply String.eqb_neq in He.
  destruct (clean_float x) as [f|] eqn:Hf.
  - destruct (is_integer f) eqn:Hint; intros [= <-].
    + split; [apply pretty_Z_nonempty|]. right. by exists f.
    + split; [done|by left].
  - intros [= <-]. split; [done|by left].
Qed.

(** X9.  [_normalize_loc] returns NaN exactly for the cells [_clean_text] makes
    blank, and otherwise a label that is not blank: the cleaned text, or
    the whole number the text is read as, written without fraction. *)
Theorem normalize_loc_never_blank (x : cell) :
  (normalize_loc x = None ↔ clean_text x = "") ∧
  ∀ s, normalize_loc x = Some s →
       s ≠ "" ∧ (s = clean_text x ∨
                 ∃ f, clean_float x = Some f ∧ is_integer f = true ∧
                      s = pretty (Qfloor f)).
Proof.
  split; [|apply normalize_loc_Some].
  unfold normalize_loc. destruct (String.eqb (clean_text x) "") eqn:He.
  - apply String.eqb_eq in He. done.
  - apply String.eqb_neq in He.
    destruct (clean_float x) as [f|]; [destruct (is_integer f)|]; done.
Qed.


End LoadedRows.


(** * The name of the next output file *)

Section OutputPathFacts.
Implicit Types (stem : string) (dir : gset string) (n m : nat).

Lemma chars_app (s t : string) :
  list_ascii_of_string (s +:+ t) = list_ascii_of_string s ++ list_ascii_of_string t.
Proof. induction s as [|c s IH]; simpl; [done|]. by rewrite IH. Qed.

(** Different numbers give different names. *)
Lemma output_name_inj stem n m : output_name stem n = output_name stem m → n = m.
Proof.
  unfold output_name. intros Heq.
  apply (inj (String.append stem)) in Heq. apply (inj (String.append "(")) in Heq.
  apply (f_equal list_ascii_of_string) in Heq. rewrite !chars_app in Heq.
  apply app_inv_tail in Heq. apply chars_inj in Heq. by apply (inj pretty) in Heq.
Qed.

(** A run of taken numbers is no longer than the directory is large. *)
Lemma taken_bound stem dir (k j : nat) :
  (∀ m, k ≤ m < k + j → output_name stem m ∈ dir) → j ≤ size dir.
Proof.
  intros Htaken.
  assert (NoDup (output_name stem <$> seq k j)) as Hnd.
  { apply NoDup_fmap_2; [|apply NoDup_seq]. intros n m. apply output_name_inj. }
  assert (size (list_to_set (output_name stem <$> seq k j) : gset string) = j) as Hsize.
  { rewrite size_list_to_set by done. by rewrite length_fmap, length_seq. }
  rewrite <- Hsize at 1.
  apply subseteq_size. intros p. rewrite elem_of_list_to_set, list_elem_of_fmap.
  intros (m & -> & Hm). apply Htaken. apply elem_of_seq in Hm. lia.
Qed.

(** Up to a bound, either some number is free, and then there is a least
    one, or every number is taken. *)
Lemma least_free stem dir (j : nat) :
  (∃ n, (1 ≤ n ≤ j) ∧ (output_name stem n ∉ dir) ∧
        ∀ m, 1 ≤ m < n → output_name stem m ∈ dir) ∨
  (∀ m, 1 ≤ m ≤ j → output_name stem m ∈ dir).
Proof.
  induction j as [|j [(n & Hn & Hfree & Hleast)|Hall]].
  - right. intros m Hm. exfalso. lia.
  - left. exists n. split_and!; [lia|lia|done|done].
  - destruct (decide (output_name stem (S j) ∈ dir)) as [Hin|Hout].
    + right. intros m Hm. destruct (decide (m = S j)) as [->|Hne]; [done|].
      apply Hall. lia.
    + left. exists (S j). split_and!; [lia|lia|done|]. intros m Hm. apply Hall. lia.
Qed.

(** From a number not above the least free one, the loop returns the name
    of the least free one, given the iterations to reach it. *)
Lemma next_output_from_least stem dir (n' : nat) :
  output_name stem n' ∉ dir →
  (∀ m, 1 ≤ m < n' → output_name stem m ∈ dir) →
  ∀ fuel n, 1 ≤ n ≤ n' → n' - n < fuel →
  next_output_from stem dir fuel n = Some (output_name stem n').
Proof.
  intros Hfree Hleast. induction fuel as [|fuel IH]; intros n Hn Hfuel; [lia|].
  simpl. destruct (decide (n = n')) as [->|Hne].
  - by rewrite bool_decide_eq_true_2.
  - rewrite bool_decide_eq_false_2.
    + apply IH; lia.
    + intros Hout. apply Hout, Hleast. lia.
Qed.

(** X11.  [next_output_path] returns the name with the least number from 1 on
    that no file of the directory bears: a name that is not taken, all
    smaller numbers being taken; the loop needs no more iterations than the
    directory has files, plus one. *)
Theorem next_output_path_least_free stem dir :
  ∃ n, (1 ≤ n ≤ S (size dir)) ∧
       (output_name stem n ∉ dir) ∧
       (∀ m, 1 ≤ m < n → output_name stem m ∈ dir) ∧
       ∀ fuel, size dir < fuel →
               next_output_path stem dir fuel = Some (output_name stem n).
Proof.
  destruct (least_free stem dir (S (size dir))) as [(n & Hn & Hfree & Hleast)|Hall].
  - exists n. split_and!; [lia|lia|done|done|].
    intros fuel Hfuel. unfold next_output_path.
    apply next_output_from_least; [done|done|lia|lia].
  - exfalso. pose proof (taken_bound stem dir 1 (S (size dir))) as Hb.
    assert (S (size dir) ≤ size dir); [|lia]. apply Hb. intros m Hm. apply Hall. lia.
Qed.
End OutputPathFacts.


(** * Location metadata *)

Section LocMetaFacts.
Local Open Scope string_scope.
Implicit Types (rows : list ras_row) (r : ras_row) (loc : string)
  (meta : gmap string loc_meta).

Lemma head_filter_nonblank (l : list string) y :
  head (filter (λ s, s ≠ "") l) = Some y → y ≠ "".
Proof.
  intros Hh. apply head_Some_elem_of, list_elem_of_filter in Hh. tauto.
Qed.

(** Appending an entry changes the first non-blank one only when there was
    none and the entry is not blank. *)
Lemma first_nonblank_snoc (l : list string) x :
  first_nonblank (l ++ [x])%list = fill_blank (first_nonblank l) x.
Proof.
  unfold first_nonblank, fill_blank. rewrite filter_app.
  destruct (filter (λ s, s ≠ "") l) as [|y k] eqn:Hf; simpl.
  - rewrite filter_cons, filter_nil. destruct (decide (x ≠ "")) as [Hx|Hx]; simpl.
    + apply String.eqb_neq in Hx. by rewrite Hx.
    + apply dec_stable in Hx. by subst x.
  - assert (y ≠ "") as Hy.
    { apply (head_filter_nonblank l). by rewrite Hf. }
    apply String.eqb_neq in Hy. by rewrite Hy.
Qed.

Lemma first_nonblank_singleton x : first_nonblank [x] = x.
Proof.
  unfold first_nonblank. rewrite filter_cons, filter_nil.
  destruct (decide (x ≠ "")) as [Hx|Hx]; simpl; [done|].
  apply dec_stable in Hx. by subst x.
Qed.

Lemma first_nonblank_fmap_snoc (f : ras_row → string) (l : list ras_row) r :
  first_nonblank (f <$> (l ++ [r])%list) = fill_blank (first_nonblank (f <$> l)) (f r).
Proof. rewrite fmap_app. apply first_nonblank_snoc. Qed.

Lemma rows_of_snoc loc rows r :
  rows_of loc (rows ++ [r])%list
  = (rows_of loc rows ++ (if decide (strip (r_loc r) = loc) then [r] else []))%list.
Proof.
  unfold rows_of. rewrite filter_app, filter_cons, filter_nil. done.
Qed.

(** What the dictionary holds for a label after the rows seen so far. *)
Lemma build_loc_meta_ras_lookup rows : ∀ loc,
  build_loc_meta_ras rows !! loc
  = if bool_decide (loc ≠ "" ∧ rows_of loc rows ≠ [])
    then Some (LocMeta (first_nonblank ((λ r, strip (r_ent r)) <$> rows_of loc rows))
                       (first_nonblank ((λ r, strip (r_addr r)) <$> rows_of loc rows)))
    else None.
Proof.
  unfold build_loc_meta_ras.
  induction rows as [|r rows IH] using rev_ind; intros loc.
  - simpl. rewrite lookup_empty. rewrite bool_decide_eq_false_2; [done|].
    intros [_ Hne]. by apply Hne.
  - rewrite foldl_app. simpl. unfold meta_step at 1.
    rewrite rows_of_snoc.
    destruct (String.eqb (strip (r_loc r)) "") eqn:Hblank.
    + apply String.eqb_eq in Hblank. rewrite IH.
      destruct (decide (strip (r_loc r) = loc)) as [<-|Hne].
      * rewrite !bool_decide_eq_false_2; [done| |]; intros [Hn _]; by apply Hn.
      * by rewrite app_nil_r.
    + apply String.eqb_neq in Hblank.
      destruct (decide (strip (r_loc r) = loc)) as [<-|Hne].
      * rewrite (bool_decide_eq_true_2 (strip (r_loc r) ≠ "" ∧ _)).
        2: { split; [done|]. intros Hnil. by apply app_eq_nil in Hnil as [_ ?]. }
        rewrite IH. case_bool_decide as Hprev.
        -- rewrite lookup_insert_eq, !first_nonblank_fmap_snoc. done.
        -- rewrite lookup_insert_eq.
           assert (rows_of (strip (r_loc r)) rows = []) as ->.
           { destruct (rows_of (strip (r_loc r)) rows) eqn:Hr; [done|].
             exfalso. apply Hprev. by split. }
           simpl. by rewrite !first_nonblank_singleton.
      * rewrite app_nil_r.
        destruct (foldl meta_step ∅ rows !! strip (r_loc r));
          rewrite lookup_insert_ne by done; apply IH.
Qed.

(** X12.  [build_loc_meta_ras] has an entry for exactly the labels that
    [unique_ordered] lists, and the entry of a label holds the first
    entity name and the first address that are not blank among the rows of
    the label, in the order of the sheet (blank when all are). *)
Theorem build_loc_meta_ras_first_nonblank rows loc :
  (is_Some (build_loc_meta_ras rows !! loc) ↔ loc ∈ unique_ordered_ras (r_loc <$> rows)) ∧
  ∀ m, build_loc_meta_ras rows !! loc = Some m →
       m_entity m = first_nonblank ((λ r, strip (r_ent r)) <$> rows_of loc rows) ∧
       m_address m = first_nonblank ((λ r, strip (r_addr r)) <$> rows_of loc rows).
Proof.
  rewrite build_loc_meta_ras_lookup. split.
  - unfold unique_ordered_ras. rewrite uo_loop_first_seen, elem_of_first_seen,
      elem_of_kept_labels, nonempty_true.
    case_bool_decide as Hd.
    + split; [|by eauto]. intros _. destruct Hd as [Hne Hrows]. split; [|done].
      destruct (rows_of loc rows) as [|r k] eqn:Hr; [done|].
      assert (r ∈ rows_of loc rows) as Hin by (rewrite Hr; by left).
      unfold rows_of in Hin. apply list_elem_of_filter in Hin as [Hloc Hin].
      exists (r_loc r). split; [|done]. apply list_elem_of_fmap. by exists r.
    + split; [by intros [? ?]|]. intros [(x & Hx & ->) Hne]. exfalso. apply Hd.
      split; [done|]. apply list_elem_of_fmap in Hx as (r & -> & Hr).
      intros Hnil. assert (r ∈ rows_of (strip (r_loc r)) rows) as Hin.
      { unfold rows_of. apply list_elem_of_filter. done. }
      rewrite Hnil in Hin. by apply elem_of_nil in Hin.
  - intros m. case_bool_decide; [|done]. by intros [= <-].
Qed.
End LocMetaFacts.

Section LocMetaTivFacts.
Local Open Scope string_scope.
Implicit Types (rows : list (tiv_row Q)) (r : tiv_row Q) (loc : string).

Lemma first_nonblank_map_snoc {A} (f : A → string) (l : list A) (a : A) :
  first_nonblank (f <$> (l ++ [a])%list) = fill_blank (first_nonblank (f <$> l)) (f a).
Proof. rewrite fmap_app. apply first_nonblank_snoc. Qed.

Lemma tiv_rows_of_snoc loc rows r :
  tiv_rows_of loc (rows ++ [r])%list
  = (tiv_rows_of loc rows ++ (if decide (t_loc r = Some loc) then [r] else []))%list.
Proof.
  unfold tiv_rows_of. rewrite filter_app, filter_cons, filter_nil. done.
Qed.

Lemma build_loc_meta_tiv_lookup rows : ∀ loc,
  build_loc_meta_tiv rows !! loc
  = if bool_decide (tiv_rows_of loc rows ≠ [])
    then Some (TivMeta
                 (first_nonblank ((λ r, clean_str (t_ent r)) <$> tiv_rows_of loc rows))
                 (first_nonblank ((λ r, clean_str (t_street r)) <$> tiv_rows_of loc rows))
                 (first_nonblank ((λ r, clean_str (t_city r)) <$> tiv_rows_of loc rows))
                 (first_nonblank ((λ r, clean_str (t_state r)) <$> tiv_rows_of loc rows))
                 (first_nonblank ((λ r, clean_str (t_zip r)) <$> tiv_rows_of loc rows)))
    else None.
Proof.
  unfold build_loc_meta_tiv.
  induction rows as [|r rows IH] using rev_ind; intros loc.
  - cbn [foldl]. rewrite lookup_empty. unfold tiv_rows_of. rewrite filter_nil.
    by rewrite bool_decide_eq_false_2 by (by intros ?).
  - rewrite foldl_app. simpl. unfold tiv_meta_step at 1.
    rewrite tiv_rows_of_snoc.
    destruct (t_loc r) as [l0|] eqn:Hloc.
    + destruct (decide (Some l0 = Some loc)) as [[= ->]|Hne].
      * rewrite (bool_decide_eq_true_2 (_ ≠ [])).
        2: { intros Hnil. by apply app_eq_nil in Hnil as [_ ?]. }
        rewrite IH. case_bool_decide as Hprev.
        -- rewrite lookup_insert_eq, !first_nonblank_map_snoc. done.
        -- rewrite lookup_insert_eq.
           assert (tiv_rows_of loc rows = []) as ->.
           { destruct (tiv_rows_of loc rows) eqn:Hr; done. }
           simpl. by rewrite !first_nonblank_singleton.
      * rewrite app_nil_r.
        assert (l0 ≠ loc) as Hne' by congruence.
        destruct (foldl tiv_meta_step ∅ rows !! l0);
          rewrite lookup_insert_ne by done; apply IH.
    + rewrite decide_False by done. rewrite app_nil_r. apply IH.
Qed.

(** X13.  [build_loc_meta_tiv] has an entry for exactly the labels some row
    bears, and each detail of the entry is the first one that is not blank
    among the rows of the label, in the order of the sheet. *)
Theorem build_loc_meta_tiv_first_nonblank rows loc :
  (is_Some (build_loc_meta_tiv rows !! loc) ↔ ∃ r, r ∈ rows ∧ t_loc r = Some loc) ∧
  ∀ m, build_loc_meta_tiv rows !! loc = Some m →
       tm_entity m = first_nonblank ((λ r, clean_str (t_ent r)) <$> tiv_rows_of loc rows) ∧
       tm_street m = first_nonblank ((λ r, clean_str (t_street r)) <$> tiv_rows_of loc rows) ∧
       tm_city m = first_nonblank ((λ r, clean_str (t_city r)) <$> tiv_rows_of loc rows) ∧
       tm_state m = first_nonblank ((λ r, clean_str (t_state r)) <$> tiv_rows_of loc rows) ∧
       tm_zip m = first_nonblank ((λ r, clean_str (t_zip r)) <$> tiv_rows_of loc rows).
Proof.
  rewrite build_loc_meta_tiv_lookup. split.
  - case_bool_decide as Hd.
    + split; [|by eauto]. intros _.
      destruct (tiv_rows_of loc rows) as [|r k] eqn:Hr; [done|].
      assert (r ∈ tiv_rows_of loc rows) as Hin by (rewrite Hr; by left).
      unfold tiv_rows_of in Hin. apply list_elem_of_filter in Hin as [Hloc Hin].
      by exists r.
    + split; [by intros [? ?]|]. intros (r & Hr & Hloc). exfalso.
      assert (r ∈ tiv_rows_of loc rows) as Hin.
      { unfold tiv_rows_of. apply list_elem_of_filter. done. }
      rewrite Hd in Hin. by apply elem_of_nil in Hin.
  - intros m. case_bool_decide; [|done]. by intros [= <-].
Qed.
End LocMetaTivFacts.


(** * Zero targets, allocation keys and the RAS matrix of a frame *)

Section IPFZeroTargets.
Import PrimFloat.
Implicit Types (rT cT : list float) (X : list (list float)) (x t g : float).

(** Zero or NaN, on the decoded float. *)
Lemma zero_is_zero_or_nan t : b64_zero t → sf_zero_or_nan (FloatOps.Prim2SF t).
Proof. intros Ht. apply zero_or_nan_spec. by left. Qed.

Lemma scaled_by_zero x t g :
  b64_zero t → sf_zero_or_nan (FloatOps.Prim2SF (fmul x (fdiv t g))).
Proof. intros Ht. apply mul_zero_r, div_zero_l. by apply zero_is_zero_or_nan. Qed.

Lemma zero_scaled x g :
  sf_zero_or_nan (FloatOps.Prim2SF x) → sf_zero_or_nan (FloatOps.Prim2SF (fmul x g)).
Proof. apply mul_zero_l. Qed.

Lemma scale_rows_zero rT X (i : nat) t row :
  rT !! i = Some t → b64_zero t → scale_rows rT X !! i = Some row →
  Forall (λ x, sf_zero_or_nan (FloatOps.Prim2SF x)) row.
Proof.
  intros Ht Hz Hrow. unfold scale_rows in Hrow.
  apply lookup_zip_with_Some in Hrow as (t' & row0 & -> & Ht' & Hrow0).
  rewrite Ht in Ht'. injection Ht' as <-.
  apply Forall_fmap, Forall_forall. intros x _. simpl. by apply scaled_by_zero.
Qed.

Lemma scale_cols_zero_row cT X (i : nat) row0 row :
  X !! i = Some row0 → Forall (λ x, sf_zero_or_nan (FloatOps.Prim2SF x)) row0 →
  scale_cols cT X !! i = Some row →
  Forall (λ x, sf_zero_or_nan (FloatOps.Prim2SF x)) row.
Proof.
  intros Hrow0 Hz Hrow. unfold scale_cols in Hrow.
  rewrite list_lookup_fmap, Hrow0 in Hrow. injection Hrow as <-.
  apply Forall_lookup. intros j z Hj.
  apply lookup_zip_with_Some in Hj as (x & f & -> & Hx & _).
  apply zero_scaled. rewrite Forall_lookup in Hz. by apply (Hz j).
Qed.

Lemma scale_cols_zero_col cT X (j : nat) t row x :
  cT !! j = Some t → b64_zero t → row ∈ scale_cols cT X → row !! j = Some x →
  sf_zero_or_nan (FloatOps.Prim2SF x).
Proof.
  intros Ht Hz Hrow Hx. unfold scale_cols in Hrow.
  apply list_elem_of_fmap in Hrow as (row0 & -> & _).
  apply lookup_zip_with_Some in Hx as (a & f & -> & _ & Hf).
  apply lookup_zip_with_Some in Hf as (t' & g & -> & Ht' & _).
  rewrite Ht in Ht'. injection Ht' as <-. by apply scaled_by_zero.
Qed.

(** After a sweep the rows and the columns whose target is zero hold
    zeros or NaNs. *)
Lemma sweep_zero rT cT X :
  (∀ (i : nat) t row, rT !! i = Some t → b64_zero t → sweep rT cT X !! i = Some row →
                      Forall b64_zero_or_nan row) ∧
  (∀ (j : nat) t row x, cT !! j = Some t → b64_zero t → row ∈ sweep rT cT X →
                        row !! j = Some x → b64_zero_or_nan x).
Proof.
  unfold sweep. split.
  - intros i t row Ht Hz Hrow.
    apply (Forall_impl (λ x, sf_zero_or_nan (FloatOps.Prim2SF x)));
      [|intros x Hx; unfold b64_zero_or_nan; by apply zero_or_nan_spec].
    destruct (scale_rows rT X !! i) as [row0|] eqn:Hrow0.
    + eapply scale_cols_zero_row; [exact Hrow0| |exact Hrow].
      by eapply scale_rows_zero.
    + unfold scale_cols in Hrow. by rewrite list_lookup_fmap, Hrow0 in Hrow.
  - intros j t row x Ht Hz Hrow Hx. unfold b64_zero_or_nan. apply zero_or_nan_spec.
    exact (scale_cols_zero_col cT _ j t row x Ht Hz Hrow Hx).
Qed.

(** X14.  In binary64, a location whose total is zero gets from [ipf] a row
    whose entries are zero or NaN, and a coverage whose total is zero a
    column whose entries are zero or NaN, whatever the seed and however
    many iterations are run. *)
Theorem ipf_zero_targets rT cT seed max_iter tol X (k : nat) :
  ipf rT cT seed max_iter tol = Some (X, k) →
  (∀ (i : nat) t row, rT !! i = Some t → b64_zero t → X !! i = Some row →
                      Forall b64_zero_or_nan row) ∧
  (∀ (j : nat) t row x, cT !! j = Some t → b64_zero t → row ∈ X →
                        row !! j = Some x → b64_zero_or_nan x).
Proof.
  unfold ipf. destruct (conforms _ _ _); [|done]. intros [= Hloop].
  destruct (ipf_loop_spec max_iter tol rT cT
              (sweep rT cT (default (default_seed rT cT) seed)))
    as (Y & k' & Hspec & _ & HY & _).
  rewrite Hloop in Hspec. injection Hspec as <- <-.
  destruct k as [|k]; simpl in HY; subst X; apply sweep_zero.
Qed.

(** The zero-target row of [rT = [1e-200; 0]], [cT = [1e200]] is a NaN after
    the first sweep, and stays one. *)
Example ipf_zero_target_nan :
  ipf [1e-200; 0]%float [1e200]%float None 0 b64_default_tol
    = Some ([[infinity]; [nan]], 0%nat) ∧
  ipf [1e-200; 0]%float [1e200]%float None 3 b64_default_tol
    = Some ([[nan]; [nan]], 3%nat).
Proof. split; vm_compute; reflexivity. Qed.
End IPFZeroTargets.

Section AllocationKeys.
Context {AS : Argsort Q}.

Lemma foldl_insert_keys (kvs : list (string * Q)) : ∀ (m : gmap string Q) l,
  is_Some (foldl (λ m lv, <[lv.1 := lv.2]> m) m kvs !! l) ↔ is_Some (m !! l) ∨ l ∈ kvs.*1.
Proof.
  induction kvs as [|[k v] kvs IH]; intros m l; simpl.
  - split; [by left|]. intros [?|Hin]; [done|]. by apply elem_of_nil in Hin.
  - rewrite IH, elem_of_cons. destruct (decide (l = k)) as [->|Hne].
    + rewrite lookup_insert_eq. split; [intros _; right; by left|intros _; left; by eexists].
    + rewrite lookup_insert_ne by done. tauto.
Qed.

Lemma to_dict_keys (locs : list string) (v : list Q) l :
  length v = length locs → (is_Some (to_dict locs v !! l) ↔ l ∈ locs).
Proof.
  intros Hlen. unfold to_dict. rewrite foldl_insert_keys, fst_zip by lia.
  rewrite lookup_empty. split; [|by right]. intros [[? ?]|?]; done.
Qed.

(** X4.  The dictionary [allocate_cents_for_coverage] returns has an amount for
    each location of the list it was given and for no other. *)
Theorem allocate_cents_for_coverage_keys P (m : gmap string Q) (locs : list string) alloc :
  allocate_cents_for_coverage P m locs = Some alloc →
  ∀ l, is_Some (alloc !! l) ↔ l ∈ locs.
Proof.
  unfold allocate_cents_for_coverage. case_bool_decide as Hn.
  - intros [= <-] l. apply length_zero_iff_nil in Hn as ->.
    rewrite lookup_empty. split; [by intros [? ?]|]. intros Hin. by apply elem_of_nil in Hin.
  - destruct (fle P fzero).
    + intros [= <-] l. apply to_dict_keys. by rewrite length_replicate.
    + unfold allocate_cents. destruct (py_round (to_cents P)) as [T|]; [|done].
      cbn [mbind option_bind].
      destruct (apportion T (tivs_of m locs)) as [cents|] eqn:Hap; [|done].
      cbn [mbind option_bind]. intros [= <-] l.
      apply to_dict_keys.
      by rewrite length_fmap, (length_apportion _ _ _ Hap), length_tivs_of.
Qed.
End AllocationKeys.

Section IPFShape.
Implicit Types (rT cT : list Q) (X : list (list Q)).

Lemma scale_rows_conforms rT cT X :
  conforms X (length rT) (length cT) = true →
  conforms (scale_rows rT X) (length rT) (length cT) = true.
Proof.
  intros [Hlen Hrows]%conforms_spec. apply conforms_spec. unfold scale_rows. split.
  - rewrite length_zip_with. lia.
  - apply Forall_lookup. intros i row Hrow.
    apply lookup_zip_with_Some in Hrow as (t & row0 & -> & _ & Hrow0).
    rewrite length_fmap. rewrite Forall_lookup in Hrows. by apply (Hrows i).
Qed.

Lemma scale_cols_conforms rT cT X :
  conforms X (length rT) (length cT) = true →
  conforms (scale_cols cT X) (length rT) (length cT) = true.
Proof.
  intros [Hlen Hrows]%conforms_spec. apply conforms_spec. unfold scale_cols. split.
  - by rewrite length_fmap.
  - apply Forall_fmap. eapply Forall_impl; [exact Hrows|]. intros row Hrow. simpl in *.
    rewrite !length_zip_with, length_fmap. unfold fcol_sums.
    rewrite length_fmap, length_seq. lia.
Qed.

Lemma sweep_conforms rT cT X :
  conforms X (length rT) (length cT) = true →
  conforms (sweep rT cT X) (length rT) (length cT) = true.
Proof. intros HX. unfold sweep. by apply scale_cols_conforms, scale_rows_conforms. Qed.

(** On a seed of the shape of the targets [ipf] returns a matrix of that
    shape. *)
Lemma ipf_conforms rT cT seed max_iter tol :
  seed_fits rT cT seed →
  ∃ X k, ipf rT cT seed max_iter tol = Some (X, k) ∧
         conforms X (length rT) (length cT) = true.
Proof.
  intros Hfit. unfold ipf.
  assert (conforms (default (default_seed rT cT) seed) (length rT) (length cT) = true) as Hs.
  { destruct seed as [s|]; simpl; [exact Hfit|apply default_seed_conforms]. }
  rewrite Hs.
  destruct (ipf_loop_spec max_iter tol rT cT
              (sweep rT cT (default (default_seed rT cT) seed)))
    as (Y & k & Hloop & _ & HY & _).
  exists Y, k. rewrite Hloop. split; [done|]. subst Y. clear Hloop.
  induction k as [|k IH]; [by apply sweep_conforms|].
  rewrite Nat.iter_succ. by apply sweep_conforms.
Qed.

Lemma where_pos_length (v : list Q) : length (where_pos v) = length v.
Proof. unfold where_pos. by rewrite length_fmap. Qed.

Lemma ras_seed_fits rT cT : seed_fits rT cT (ras_seed rT cT).
Proof.
  unfold ras_seed. destruct (is_pos _); [|done]. simpl.
  pose proof (outer_conforms (where_pos rT) (where_pos cT)) as Hc.
  rewrite !where_pos_length in Hc.
  apply conforms_spec in Hc as [Hlen Hrows]. apply conforms_spec. split.
  - by rewrite length_fmap.
  - apply Forall_fmap. eapply Forall_impl; [exact Hrows|]. intros row Hrow. simpl in *.
    by rewrite length_fmap.
Qed.
End IPFShape.

Section RasMatrixFacts.
Implicit Types (rows : list ras_row).

(** On conforming shapes the rounding returns a matrix of the same shape,
    in whole cents. *)
Lemma round_matrix_conforms (X : list (list Q)) (rT cT : list Q) :
  conforms X (length rT) (length cT) = true →
  ∃ M, round_matrix_exact_cents X rT cT = Some M ∧
       conforms M (length rT) (length cT) = true ∧
       Forall (Forall (λ x, ∃ c : Z, x = dollars c)) M.
Proof.
  intros Hconf.
  destruct (pass_evolves X rT cT Hconf) as (st & k & Hpass & _ & (Hws & _) & _).
  unfold round_matrix_exact_cents. rewrite Hpass. cbn [mbind option_bind].
  eexists. split; [reflexivity|]. destruct Hws as (Hlen & Hrows & _). split.
  - apply conforms_spec. split; [by rewrite length_fmap|].
    apply Forall_fmap. eapply Forall_impl; [exact Hrows|]. intros row Hrow. simpl in *.
    by rewrite length_fmap.
  - apply Forall_fmap, Forall_forall. intros row _. simpl.
    apply Forall_fmap, Forall_forall. intros c _. simpl. by exists c.
Qed.

Lemma qsum_snoc (l : list Q) x : (qsum (l ++ [x]) == qsum l + x)%Q.
Proof.
  induction l as [|y l IH]; simpl.
  - ring.
  - fold (qsum (l ++ [x])). fold (qsum l). rewrite IH. ring.
Qed.

(** The grouped sums: the total of the values of the rows under a key. *)
Lemma ras_groupby_total (key : ras_row → string) (val : ras_row → Q) rows k :
  (default 0 (ras_groupby key val rows !! k)
   == qsum (val <$> filter (λ r, key r = k) rows))%Q.
Proof.
  unfold ras_groupby. induction rows as [|r rows IH] using rev_ind.
  - simpl. rewrite lookup_empty. reflexivity.
  - rewrite foldl_app, filter_app, fmap_app. simpl.
    rewrite filter_cons, filter_nil.
    destruct (decide (key r = k)) as [<-|Hne].
    + rewrite lookup_insert_eq. simpl. rewrite qsum_snoc, IH. reflexivity.
    + rewrite lookup_insert_ne by done. simpl. rewrite app_nil_r. exact IH.
Qed.

(** X18.  [build_ras_matrix] never raises.  Its matrix has one row per location
    and one column per coverage that [unique_ordered] lists, in whole
    cents, and is all zeros when there is no location or no coverage; the
    row and column totals are the sums of "Premium Total" over the rows of
    each location and of "Total" over the rows of each coverage. *)
Theorem build_ras_matrix_shape rows :
  ∃ res, build_ras_matrix rows = Some res ∧
    ras_locs res = unique_ordered_ras (r_loc <$> rows) ∧
    ras_covs res = unique_ordered_ras (r_cov <$> rows) ∧
    conforms (ras_M res) (length (ras_locs res)) (length (ras_covs res)) = true ∧
    Forall (Forall (λ x, ∃ c : Z, (x == dollars c)%Q)) (ras_M res) ∧
    (ras_locs res = [] ∨ ras_covs res = [] →
     ras_M res = zeros (length (ras_locs res)) (length (ras_covs res))) ∧
    Forall2 (λ l t, t == qsum (r_row <$> filter (λ r, r_loc r = l) rows))%Q
            (ras_locs res) (ras_row_vec res) ∧
    Forall2 (λ c t, t == qsum (r_col <$> filter (λ r, r_cov r = c) rows))%Q
            (ras_covs res) (ras_col_vec res).
Proof.
  unfold build_ras_matrix. cbv zeta.
  set (locs := unique_ordered_ras (r_loc <$> rows)).
  set (covs := unique_ordered_ras (r_cov <$> rows)).
  set (row_vec := (λ l, default 0%Q (ras_groupby r_loc r_row rows !! l)) <$> locs).
  set (col_vec := (λ c, default 0%Q (ras_groupby r_cov r_col rows !! c)) <$> covs).
  assert (length row_vec = length locs) as Hlr by (unfold row_vec; by rewrite length_fmap).
  assert (length col_vec = length covs) as Hlc by (unfold col_vec; by rewrite length_fmap).
  assert (Htotals :
    Forall2 (λ l t, t == qsum (r_row <$> filter (λ r, r_loc r = l) rows))%Q locs row_vec ∧
    Forall2 (λ c t, t == qsum (r_col <$> filter (λ r, r_cov r = c) rows))%Q covs col_vec).
  { split; apply Forall2_fmap_r, Forall_Forall2_diag, Forall_forall; intros l _;
      apply ras_groupby_total. }
  destruct (bool_decide (length locs = 0%nat) || bool_decide (length covs = 0%nat)) eqn:Hdeg.
  - cbn [mbind option_bind]. eexists. split; [reflexivity|].
    cbn [ras_locs ras_covs ras_M ras_row_vec ras_col_vec].
    split_and!; try done; try apply Htotals.
    + apply conforms_spec. unfold zeros. rewrite length_replicate. split; [done|].
      apply Forall_replicate. by rewrite length_replicate.
    + unfold zeros. apply Forall_replicate, Forall_replicate. by exists 0%Z.
  - apply orb_false_iff in Hdeg as [HL HC].
    apply bool_decide_eq_false in HL, HC.
    destruct (ipf_conforms row_vec col_vec (ras_seed row_vec col_vec)
                default_max_iter default_tol (ras_seed_fits row_vec col_vec))
      as (X & k & Hipf & HX).
    rewrite Hipf. cbn [mbind option_bind].
    destruct (round_matrix_conforms X row_vec col_vec HX) as (M & HM & HMc & Hcents).
    rewrite HM. cbn [mbind option_bind]. eexists. split; [reflexivity|].
    cbn [ras_locs ras_covs ras_M ras_row_vec ras_col_vec].
    split_and!; try done; try apply Htotals.
    + by rewrite <- Hlr, <- Hlc.
    + eapply Forall_impl; [exact Hcents|]. intros row Hrow. simpl in *.
      eapply Forall_impl; [exact Hrow|]. intros x [c ->]. by exists c.
    + intros [Hnil|Hnil]; exfalso; [apply HL|apply HC]; by rewrite Hnil.
Qed.
End RasMatrixFacts.


(** * Unequal totals, and labels listed twice *)

Section RoundingSaturation.
Context {F : Type} {FO : FloatOps F} {CO : CentOps F}.
Local Open Scope Z_scope.

Lemma deficits_nonneg (t s d : list Z) :
  d = zip_with Z.sub t s → length t = length s →
  Forall (λ x, 0 ≤ x) d → Forall2 Z.le s t.
Proof.
  intros -> Hlen Hnn. apply Forall2_same_length_lookup. split; [done|].
  intros i x y Hx Hy. rewrite Forall_lookup in Hnn.
  specialize (Hnn i (y - x)). simpl in Hnn.
  assert (0 ≤ y - x); [|lia]. apply Hnn.
  apply lookup_zip_with_Some. by exists y, x.
Qed.

Lemma deficits_zero (t s d : list Z) :
  d = zip_with Z.sub t s → length t = length s →
  Forall (λ x, x = 0) d → s = t.
Proof.
  intros -> Hlen Hz. apply list_eq_same_length with (length s); [done|done|].
  intros i x y Hi Hx Hy. rewrite Forall_lookup in Hz.
  specialize (Hz i (y - x)). simpl in Hz.
  assert (y - x = 0); [|lia]. apply Hz.
  apply lookup_zip_with_Some. by exists y, x.
Qed.

(** When no deficit is negative and every cell has a row or a column
    without deficit, all the rows or all the columns are without deficit. *)
Lemma one_side_settled (rd cd : list Z) :
  Forall (λ d, 0 ≤ d) rd → Forall (λ d, 0 ≤ d) cd →
  (∀ i j : nat, (i < length rd)%nat → (j < length cd)%nat →
                rd !!! i ≤ 0 ∨ cd !!! j ≤ 0) →
  Forall (λ d, d = 0) rd ∨ Forall (λ d, d = 0) cd.
Proof.
  intros Hrd Hcd Hset.
  destruct (decide (Forall (λ d, d = 0) rd)) as [|Hex]; [by left|right].
  apply not_Forall_Exists in Hex; [|apply _].
  apply Exists_exists in Hex as (d & Hin & Hd).
  apply list_elem_of_lookup in Hin as [i Hi].
  assert (0 < rd !!! i) as Hpos.
  { rewrite (list_lookup_total_correct _ _ _ Hi).
    rewrite Forall_lookup in Hrd. specialize (Hrd i d Hi). simpl in *. lia. }
  apply Forall_lookup. intros j c Hj.
  destruct (Hset i j) as [?|Hle]; [by eapply lookup_lt_Some|by eapply lookup_lt_Some|lia|].
  rewrite (list_lookup_total_correct _ _ _ Hj) in Hle.
  rewrite Forall_lookup in Hcd. specialize (Hcd j c Hj). simpl in *. lia.
Qed.

(** X17.  Within the 64-bit range (no cell of the floor negative, no cent
    target negative, the floor and each vector of cent targets adding up to
    less than [2^63]), when the floor of no row and of no column exceeds
    its cent target, whether or not the two totals agree, the returned
    matrix exceeds no target either, and it meets every row target or
    every column target to the cent. *)
Theorem round_matrix_meets_one_side (X : list (list F)) (rT cT : list F) :
  conforms X (length rT) (length cT) = true →
  cents_in_range X rT cT →
  Forall2 Z.le (row_sums (floor_cents X)) (cent_targets rT) →
  Forall2 Z.le (col_sums (length cT) (floor_cents X)) (cent_targets cT) →
  ∃ C, round_matrix_exact_cents X rT cT = Some ((λ row : list Z, dollars <$> row) <$> C) ∧
       Forall2 Z.le (row_sums C) (cent_targets rT) ∧
       Forall2 Z.le (col_sums (length cT) C) (cent_targets cT) ∧
       (row_sums C = cent_targets rT ∨ col_sums (length cT) C = cent_targets cT).
Proof.
  intros Hconf _ Hrfit Hcfit.
  destruct (pass_evolves X rT cT Hconf) as (st & k & Hpass & _ & Hev & Hend).
  destruct (evolved_deficits X rT cT st Hconf Hev) as [Hrdef Hcdef].
  pose proof Hev as ((HX & Hrows & Hlrd & Hlcd) & _ & _ & _ & _ & Hrd & Hcd).
  assert (Forall (λ d, 0 ≤ d) (row_def st)) as Hrd0.
  { apply Forall_total_nonneg. intros a Ha. apply Hrd.
    pose proof (initial_row_link X rT cT a Hconf ltac:(lia)) as Hl. simpl in Hl.
    pose proof (Forall2_le_lookup _ _ a Hrfit) as Hle.
    rewrite length_row_sums, lookup_row_sums in Hle.
    - destruct (floor_cents_shape X _ _ Hconf) as [HlenF _].
      specialize (Hle ltac:(lia)). simpl. lia.
    - destruct (floor_cents_shape X _ _ Hconf) as [HlenF _]. lia. }
  assert (Forall (λ d, 0 ≤ d) (col_def st)) as Hcd0.
  { apply Forall_total_nonneg. intros b Hb. apply Hcd.
    pose proof (initial_col_link X rT cT b Hconf ltac:(lia)) as Hl. simpl in Hl.
    pose proof (Forall2_le_lookup _ _ b Hcfit) as Hle.
    rewrite length_col_sums, lookup_col_sums in Hle by lia.
    specialize (Hle ltac:(lia)). simpl. lia. }
  assert (length (cent_targets rT) = length (row_sums (Xc st))) as Hlr.
  { by rewrite length_cent_targets, length_row_sums. }
  assert (length (cent_targets cT) = length (col_sums (length cT) (Xc st))) as Hlc.
  { by rewrite length_cent_targets, length_col_sums. }
  exists (Xc st). split_and!.
  - by eapply exact_result.
  - by eapply deficits_nonneg.
  - by eapply deficits_nonneg.
  - assert (Forall (λ d, d = 0) (row_def st) ∨ Forall (λ d, d = 0) (col_def st)) as [Hz|Hz].
    { destruct Hend as [[Hzr Hzc]|Hset].
      - left. by apply zsum_zero_all.
      - apply one_side_settled; [done|done|].
        intros i j Hi Hj. apply (Hset i j); lia. }
    + left. by eapply deficits_zero.
    + right. by eapply deficits_zero.
Qed.
End RoundingSaturation.

Section UniqueOrderedTwice.

Lemma filter_all {A} (P : A → Prop) `{∀ x, Decision (P x)} (l : list A) :
  Forall P l → filter P l = l.
Proof.
  induction 1 as [|x l Hx _ IH]; [done|]. rewrite filter_cons_True by done. by rewrite IH.
Qed.

Lemma first_seen_NoDup (l : list string) : NoDup l → first_seen l = l.
Proof.
  induction 1 as [|x l Hx _ IH]; simpl; [done|]. rewrite IH. f_equal.
  apply filter_all, Forall_forall. intros y Hy ->. done.
Qed.

Lemma uo_loop_twice (keep : string → bool) (series : list string) :
  uo_loop keep (uo_loop keep series) = uo_loop keep series.
Proof.
  rewrite !uo_loop_first_seen.
  set (L := first_seen (kept_labels keep series)).
  assert (Forall (λ v, keep v = true ∧ strip v = v) L) as HL.
  { apply Forall_forall. intros v Hv. unfold L in Hv.
    apply elem_of_first_seen, elem_of_kept_labels in Hv as [(x & _ & ->) Hk].
    split; [done|apply strip_idemp]. }
  assert (kept_labels keep L = L) as ->.
  { unfold kept_labels.
    assert (strip <$> L = L) as ->.
    { rewrite <- (list_fmap_id L) at 2. apply list_fmap_ext. intros i v Hv. simpl.
      rewrite Forall_lookup in HL. by apply (HL i v Hv). }
    apply filter_all. eapply Forall_impl; [exact HL|]. by intros v [? _]. }
  apply first_seen_NoDup, NoDup_first_seen.
Qed.

(** X19.  The list [unique_ordered] returns is left as it is by [unique_ordered]:
    its labels are trimmed, kept by the test and all different. *)
Theorem unique_ordered_twice (series : list string) :
  unique_ordered_ras (unique_ordered_ras series) = unique_ordered_ras series ∧
  unique_ordered_tiv (unique_ordered_tiv series) = unique_ordered_tiv series.
Proof. split; apply uo_loop_twice. Qed.
End UniqueOrderedTwice.


(** * Grouped totals and the stages before writing *)

Section TivTotals.
Context {AS : Argsort Q}.
Implicit Types (rows : list (tiv_row Q)).

(** The grouped sums of the weighted allocator: the total of the values of
    the rows under a key, the rows without key left out. *)
Lemma groupby_sum_total {K} `{Countable K} (key : tiv_row Q → option K)
    (val : tiv_row Q → Q) rows (k : K) :
  (default 0 (groupby_sum key val rows !! k)
   == qsum (val <$> filter (λ r, key r = Some k) rows))%Q.
Proof.
  unfold groupby_sum. induction rows as [|r rows IH] using rev_ind.
  - simpl. rewrite lookup_empty. reflexivity.
  - rewrite foldl_app, filter_app, fmap_app. cbn [foldl].
    rewrite filter_cons, filter_nil.
    destruct (key r) as [k0|] eqn:Hk.
    + destruct (decide (Some k0 = Some k)) as [[= ->]|Hne].
      * rewrite lookup_insert_eq. cbn [default fmap list_fmap].
        rewrite qsum_snoc, IH. reflexivity.
      * rewrite lookup_insert_ne by congruence. cbn [fmap list_fmap].
        rewrite app_nil_r. exact IH.
    + rewrite decide_False by done. cbn [fmap list_fmap]. rewrite app_nil_r. exact IH.
Qed.

Lemma set_defaults_lookup (locs : list string) : ∀ (m : gmap string Q) l,
  set_defaults locs m !! l
  = match m !! l with
    | Some w => Some w
    | None => if bool_decide (l ∈ locs) then Some 0%Q else None
    end.
Proof.
  unfold set_defaults. induction locs as [|a locs IH]; intros m l; cbn [foldl].
  - destruct (m !! l); [done|]. rewrite bool_decide_eq_false_2; [done|]. apply not_elem_of_nil.
  - rewrite IH. destruct (m !! a) as [wa|] eqn:Ha.
    + destruct (m !! l) as [w|] eqn:Hl; [done|].
      destruct (decide (l = a)) as [->|Hne]; [congruence|].
      destruct (decide (l ∈ locs)) as [Hin|Hout].
      * rewrite !bool_decide_eq_true_2; [done|by right|done].
      * rewrite !bool_decide_eq_false_2; [done| |done].
        intros [?|?]%elem_of_cons; done.
    + destruct (decide (l = a)) as [->|Hne].
      * rewrite lookup_insert_eq, Ha. rewrite bool_decide_eq_true_2; [done|by left].
      * rewrite lookup_insert_ne by done. destruct (m !! l) as [w|]; [done|].
        destruct (decide (l ∈ locs)) as [Hin|Hout].
        -- rewrite !bool_decide_eq_true_2; [done|by right|done].
        -- rewrite !bool_decide_eq_false_2; [done| |done].
           intros [?|?]%elem_of_cons; done.
Qed.

(** X20.  The column totals [build_tiv_matrix] returns are, coverage by
    coverage, the sum of the premiums of the rows of the coverage; and the
    global weight of each location is the sum of the insured values of its
    rows, 0.0 for a label that no row bears as it stands. *)
Theorem build_tiv_matrix_totals rows res :
  build_tiv_matrix rows = Some res →
  res_locs res = tiv_locs rows ∧ res_covs res = tiv_covs rows ∧
  Forall2 (λ c t, t == qsum (t_pre <$> filter (λ r, t_cov r = c) rows))%Q
          (res_covs res) (res_col_vec res) ∧
  Forall (λ l, ∃ w, tiv_global rows !! l = Some w ∧
                    (w == qsum (t_tiv <$> filter (λ r, t_loc r = Some l) rows))%Q)
         (res_locs res).
Proof.
  intros Hres. unfold build_tiv_matrix in Hres. cbv zeta in Hres.
  destruct (allocate_coverages _ _ _ _ _ _) as [mat|]; [|done].
  cbn [mbind option_bind] in Hres.
  destruct (mapM _ (tiv_locs rows)) as [row_vec|]; [|done].
  injection Hres as <-. cbn [res_locs res_covs res_col_vec].
  split_and!; [done|done| |].
  - apply Forall2_fmap_r, Forall_Forall2_diag, Forall_forall. intros c _.
    cbv beta. unfold tiv_premiums.
    assert (filter (λ r, t_cov r = c) rows = filter (λ r, Some (t_cov r) = Some c) rows) as ->.
    { apply list_filter_iff. intros r. split; [by intros ->|by intros [= ->]]. }
    apply (groupby_sum_total (λ r, Some (t_cov r)) t_pre rows c).
  - apply Forall_forall. intros l Hl. unfold tiv_global. rewrite set_defaults_lookup.
    pose proof (groupby_sum_total t_loc t_tiv rows l) as Hsum.
    destruct (groupby_sum t_loc t_tiv rows !! l) as [w|] eqn:Hw.
    + by exists w.
    + rewrite bool_decide_eq_true_2 by done. by exists 0%Q.
Qed.
End TivTotals.

Section Stages.
Local Open Scope string_scope.

(** [build_ras_matrix] returns, whatever the rows. *)
Lemma build_ras_matrix_total (rows : list ras_row) : is_Some (build_ras_matrix rows).
Proof.
  unfold build_ras_matrix. cbv zeta.
  destruct (bool_decide _ || bool_decide _); [done|].
  set (row_vec := _ <$> unique_ordered_ras (r_loc <$> rows)).
  set (col_vec := _ <$> unique_ordered_ras (r_cov <$> rows)).
  destruct (ipf_conforms row_vec col_vec (ras_seed row_vec col_vec)
              default_max_iter default_tol (ras_seed_fits row_vec col_vec))
    as (X & k & Hipf & HX).
  rewrite Hipf. cbn [mbind option_bind].
  destruct (round_matrix_conforms X row_vec col_vec HX) as (M & HM & _).
  rewrite HM. done.
Qed.

Lemma sheet_present (xls : workbook) (candidates all : list string) df :
  read_sheet_any xls candidates all = inr df →
  ∃ n, n ∈ candidates ∧ n ∈ xls.*1.
Proof.
  intros Hread.
  apply (proj1 (read_sheet_any_spec xls all candidates)) in Hread
    as (i & name & Hi & (k & Hk) & _).
  exists name. split; [by eapply list_elem_of_lookup_2|].
  apply list_find_Some in Hk as (Hlk & _ & _).
  apply list_elem_of_fmap. exists (name, df). split; [done|].
  by eapply list_elem_of_lookup_2.
Qed.

(** X21.  The loading and matrix stages of [build_ras] fail in the loader
    only, in two ways: with the [ValueError] of [read_sheet_any], when the
    workbook has neither of the two candidate sheets, and with the
    [AttributeError] or [TypeError] of a conversion, when two headers of
    the sheet trim to the same one of the six column names.  On any other
    workbook, whatever the columns and cells of the sheet, both stages
    return. *)
Theorem build_ras_stages_outcome (xls : workbook) :
  match build_ras_stages xls with
  | inl msg =>
      ((∀ n, n ∈ RAS_SHEETS → n ∉ xls.*1) ∧
       msg = "None of the sheets found: RAS Algorithm - INPUT, INPUT") ∨
      (∃ df, read_sheet_any xls RAS_SHEETS RAS_SHEETS = inr df ∧
             ¬ Forall (λ c, (occurrences c (ras_headers df) ≤ 1)%nat)
                      (RAS_TEXT_COLUMNS ++ RAS_NUMERIC_COLUMNS) ∧
             (msg = ATTRIBUTE_ERROR ∨ msg = TYPE_ERROR))
  | inr None => False
  | inr (Some res) =>
      (∃ n, n ∈ RAS_SHEETS ∧ n ∈ xls.*1) ∧
      (∃ df, read_sheet_any xls RAS_SHEETS RAS_SHEETS = inr df ∧
             Forall (λ c, (occurrences c (ras_headers df) ≤ 1)%nat)
                    (RAS_TEXT_COLUMNS ++ RAS_NUMERIC_COLUMNS)) ∧
      ∃ rows, load_ras_sheet xls = inr rows ∧ build_ras_matrix rows = Some res
  end.
Proof.
  unfold build_ras_stages.
  destruct (read_sheet_any xls RAS_SHEETS RAS_SHEETS) as [msg|df] eqn:Hread.
  - unfold load_ras_sheet. rewrite Hread. cbv beta iota. left.
    by apply (proj2 (read_sheet_any_spec xls RAS_SHEETS RAS_SHEETS)) in Hread.
  - destruct (load_ras_sheet_fills xls df Hread) as [Hok Hdup].
    destruct (decide (Forall (λ c, (occurrences c (ras_headers df) ≤ 1)%nat)
                             (RAS_TEXT_COLUMNS ++ RAS_NUMERIC_COLUMNS))) as [Hone|Htwo].
    + destruct (Hok Hone) as (rows & Hload & _). rewrite Hload. cbv beta iota.
      destruct (build_ras_matrix_total rows) as [res Hres]. rewrite Hres.
      split_and!; [by eapply sheet_present|by exists df|by exists rows].
    + destruct (Hdup Htwo) as [Hload|Hload]; rewrite Hload; cbv beta iota; right;
        exists df; split_and!; [done|done|by left|done|done|by right].
Qed.

(** A sheet with the headers "Loc #" and "Loc # " stops the loader. *)
Example build_ras_stages_two_locs :
  build_ras_stages [("INPUT", ras_sheet_two_locs)] = inl ATTRIBUTE_ERROR.
Proof. vm_compute. reflexivity. Qed.
End Stages.

Section StagesInstances.
Local Open Scope string_scope.

Lemma build_tiv_matrix_totals_witness :
  res_locs (default (TivResult [] [] ∅ [] []) (build_tiv_matrix tiv_rows_two_weights))
    = tiv_locs tiv_rows_two_weights ∧
  res_covs (default (TivResult [] [] ∅ [] []) (build_tiv_matrix tiv_rows_two_weights))
    = tiv_covs tiv_rows_two_weights ∧
  Forall2 (λ c t, t == qsum (t_pre <$> filter (λ r, t_cov r = c) tiv_rows_two_weights))%Q
    (res_covs (default (TivResult [] [] ∅ [] []) (build_tiv_matrix tiv_rows_two_weights)))
    (res_col_vec (default (TivResult [] [] ∅ [] []) (build_tiv_matrix tiv_rows_two_weights))) ∧
  Forall (λ l, ∃ w, tiv_global tiv_rows_two_weights !! l = Some w ∧
                    (w == qsum (t_tiv <$> filter (λ r, t_loc r = Some l)
                                            tiv_rows_two_weights))%Q)
    (res_locs (default (TivResult [] [] ∅ [] []) (build_tiv_matrix tiv_rows_two_weights))).
Proof.
  apply (build_tiv_matrix_totals tiv_rows_two_weights).
  vm_compute. reflexivity.
Defined.
End StagesInstances.


(** * Instances *)

Section TivMatrixInstances.
Import PrimFloat.
Local Open Scope string_scope.
Local Open Scope Z_scope.

(** Coverage "A" of the two-location frame: 100.00 over both locations. *)
Lemma build_tiv_matrix_column_total_witness :
  ∃ cents,
    length cents = length (coverage_weights tiv_rows_equal_weights "A").2 ∧
    Forall (λ c, 0 ≤ c) cents ∧ zsum cents = 10000 ∧
    (∀ (i : nat) l, (coverage_weights tiv_rows_equal_weights "A").2 !! i = Some l →
       ∃ c, cents !! i = Some c ∧
            mat_cell (res_mat (default (TivResult [] [] ∅ [] [])
                                       (build_tiv_matrix tiv_rows_equal_weights))) l "A"
            = Some (dollars c)) ∧
    (∀ l, l ∈ tiv_locs tiv_rows_equal_weights →
          l ∉ (coverage_weights tiv_rows_equal_weights "A").2 →
          mat_cell (res_mat (default (TivResult [] [] ∅ [] [])
                                     (build_tiv_matrix tiv_rows_equal_weights))) l "A"
          = Some 0%float).
Proof.
  refine (build_tiv_matrix_column_total tiv_rows_equal_weights
            (default (TivResult [] [] ∅ [] []) (build_tiv_matrix tiv_rows_equal_weights))
            "A" 10000 _ _ _ _ _ _).
  - vm_compute. reflexivity.
  - apply (bool_decide_unpack _). vm_compute. exact I.
  - by vm_compute.
  - vm_compute. reflexivity.
  - vm_compute. reflexivity.
  - split; vm_compute; repeat constructor; discriminate.
Defined.
End TivMatrixInstances.

Section TivMatrixRationalInstances.
Local Open Scope string_scope.

(** Coverage "B" of the same frame has no premium. *)
Lemma build_tiv_matrix_column_zero_witness :
  mat_cell (res_mat (default (TivResult [] [] ∅ [] [])
                             (build_tiv_matrix tiv_rows_two_weights))) "1" "B"
  = Some 0%Q.
Proof.
  apply (build_tiv_matrix_column_zero tiv_rows_two_weights _ "B" "1").
  - vm_compute. reflexivity.
  - apply (bool_decide_unpack _). vm_compute. exact I.
  - apply (bool_decide_unpack _). vm_compute. exact I.
  - by vm_compute.
Defined.

Lemma allocate_cents_for_coverage_keys_witness :
  is_Some (default ∅ (allocate_cents_for_coverage 10%Q
                        {["A" := 1%Q; "B" := 1%Q; "C" := 1%Q]} ["A"; "B"; "C"]) !! "A")
  ↔ "A" ∈ ["A"; "B"; "C"].
Proof.
  apply (allocate_cents_for_coverage_keys 10%Q
           {["A" := 1%Q; "B" := 1%Q; "C" := 1%Q]} ["A"; "B"; "C"]).
  vm_compute. reflexivity.
Defined.
End TivMatrixRationalInstances.

Section LoaderExtraInstances.
Local Open Scope string_scope.

(** "Location Number" is found through the candidate "Loc", which it
    contains. *)
Lemma pick_col_returns_header_witness :
  "Location Number" ∈ clean_header <$> tiv_headers tiv_sheet_small ∧
  ∃ cand, cand ∈ LOC_NAMES ∧ contains (norm "Location Number") (norm cand) = true.
Proof.
  apply (pick_col_returns_header (tiv_headers tiv_sheet_small) LOC_NAMES "Location Number").
  vm_compute. reflexivity.
Defined.

(** "Premium" is taken for the candidate "Premium", not "Total Premium",
    which only contains it. *)
Lemma pick_col_exact_match_first_witness :
  ∃ h, pick_col ["Total Premium"; "Premium"] PREM_NAMES = Some h ∧
       h ∈ clean_header <$> ["Total Premium"; "Premium"] ∧ norm h = norm "Premium".
Proof.
  apply (pick_col_exact_match_first ["Total Premium"; "Premium"] PREM_NAMES 1 "Premium").
  - reflexivity.
  - exists "Premium". split; [|by vm_compute].
    apply list_elem_of_further, list_elem_of_here.
  - intros [|j] cand' Hj Hl c Hc; [|lia]. simpl in Hl. injection Hl as <-.
    apply elem_of_cons in Hc as [->|Hc]; [by vm_compute|].
    apply elem_of_cons in Hc as [->|Hc]; [by vm_compute|].
    by apply elem_of_nil in Hc.
Defined.

Lemma load_ras_sheet_text_clean_witness :
  (∃ df, read_sheet_any [("INPUT", ras_sheet_without_loc)] RAS_SHEETS RAS_SHEETS = inr df ∧
         length [RasRow "" "Fire" "" "" 100 100] = length (body df)) ∧
  Forall (λ r, Forall (λ s, lower s ≠ "nan" ∧ strip s = s)
                      [r_loc r; r_cov r; r_ent r; r_addr r])
         [RasRow "" "Fire" "" "" 100 100] ∧
  unique_ordered_ras (r_loc <$> [RasRow "" "Fire" "" "" 100 100])
    = first_seen (filter (λ v, nonempty v = true)
                         (r_loc <$> [RasRow "" "Fire" "" "" 100 100])) ∧
  ∀ v, v ∈ unique_ordered_ras (r_loc <$> [RasRow "" "Fire" "" "" 100 100]) →
       v ≠ "" ∧ lower v ≠ "nan".
Proof.
  apply (load_ras_sheet_text_clean [("INPUT", ras_sheet_without_loc)]
           [RasRow "" "Fire" "" "" 100 100]).
  vm_compute. reflexivity.
Defined.

End LoaderExtraInstances.

Section MatrixExtraInstances.
Import PrimFloat.
Local Open Scope Z_scope.

(** Row targets 50 and 0 against column targets 30 and 20, three
    iterations. *)
Lemma ipf_zero_targets_witness :
  (∀ (i : nat) t row, [50; 0]%float !! i = Some t → b64_zero t →
     (default ([], 0%nat)
        (ipf [50; 0]%float [30; 20]%float None 3 b64_default_tol)).1 !! i = Some row →
     Forall b64_zero_or_nan row) ∧
  (∀ (j : nat) t row x, [30; 20]%float !! j = Some t → b64_zero t →
     row ∈ (default ([], 0%nat)
              (ipf [50; 0]%float [30; 20]%float None 3 b64_default_tol)).1 →
     row !! j = Some x → b64_zero_or_nan x).
Proof.
  apply (ipf_zero_targets [50; 0]%float [30; 20]%float None 3 b64_default_tol _
           (default ([], 0%nat)
              (ipf [50; 0]%float [30; 20]%float None 3 b64_default_tol)).2).
  vm_compute. reflexivity.
Defined.

(** One row of 10.00 and 20.00 against a row target of 35.00 and column
    targets of 12.00 and 20.00: the columns can take 2.00 more, the row
    5.00. *)
Lemma round_matrix_meets_one_side_witness :
  ∃ C, round_matrix_exact_cents [[10; 20]]%float [35]%float [12; 20]%float
       = Some ((λ row : list Z, dollars <$> row) <$> C) ∧
       Forall2 Z.le (row_sums C) (cent_targets [35]%float) ∧
       Forall2 Z.le (col_sums (length [12; 20]%float) C) (cent_targets [12; 20]%float) ∧
       (row_sums C = cent_targets [35]%float ∨
        col_sums (length [12; 20]%float) C = cent_targets [12; 20]%float).
Proof.
  apply (round_matrix_meets_one_side [[10; 20]]%float [35]%float [12; 20]%float).
  - reflexivity.
  - split_and!; vm_compute; repeat constructor; discriminate.
  - vm_compute. repeat constructor; discriminate.
  - vm_compute. repeat constructor; discriminate.
Defined.
End MatrixExtraInstances.
